(** * auth-action-rate-limiter: token bucket, key builder, decision
      combiner, policy engine, bounded memory store, default policies and
      the hash utilities

    A shallow embedding of the TypeScript sources, followed by the
    properties of the specification that hold of it.

    Conventions of the embedding.
    - A JavaScript [number] is an IEEE 754 binary64 value.  The token bucket
      is embedded twice.  [Module Double] embeds it over Rocq's primitive
      binary64 floats, operation for operation as the code computes; the
      statements that depend on the value of an arithmetic result are made
      there.  The definitions outside that module read token counts,
      durations and times as exact rationals ([Q]), without rounding,
      infinities or NaN; they carry the policy engine and the statements
      about order, invariants and control flow; a statement there that
      depends on the exact value of an amount is restricted to integer
      amounts, which binary64 represents exactly up to 2^53.  Readings of [Date.now()], sizes and the options
      of the store are integers ([Z]).
    - Strings are [string], compared and split by character.
    - A plain object used as a dictionary ([policies], [keys], the
      [dimensions] of a parsed key, the custom fields of a request) is a
      [gmap string _]; names inherited from [Object.prototype] are assumed
      not to be used as keys.
    - The [Map] of the store, whose iteration order eviction observes, is an
      association list in insertion order.
    - An [async] method is a function from the state before to an outcome
      ([Ok] or [Throw]) and the state after; each store call reads the clock
      once; loggers are left out.
    - The options of a store are numbers: an option passed explicitly as
      [undefined] is not a value of [PartialOptions.t].
    - The HMAC-SHA256 digest and the normalisation of an identifier
      ([toLowerCase], [trim]) are parameters of the hash utilities. *)

From Stdlib Require Import ZArith QArith Qround Qminmax Lqa Lia Bool Ascii.
From Stdlib Require Floats Uint63.
From stdpp Require Import gmap strings list sorting.

Local Open Scope Q_scope.

(** ** JavaScript numeric primitives *)

(** [a >= b] on numbers. *)
Definition geq (a b : Q) : bool := Qle_bool b a.
(** [a <= b] on numbers. *)
Definition leq (a b : Q) : bool := Qle_bool a b.

Definition Math_min (a b : Q) : Q := if Qle_bool a b then a else b.
Definition Math_max (a b : Q) : Q := if Qle_bool a b then b else a.
Definition Math_ceil (a : Q) : Q := inject_Z (Qceiling a).

(** [Number.MAX_SAFE_INTEGER], 2^53 - 1. *)
Definition MAX_SAFE_INTEGER : Q := inject_Z 9007199254740991.

(** ** core/types.ts *)

Module State.
(** [TokenBucketState] *)
Record t := mk {
  tokens : Q;
  lastRefillTime : Q;
  createdAt : Q;
  expiresAt : Q
}.
End State.

Module Config.
(** [TokenBucketConfig] *)
Record t := mk {
  capacity : Q;
  refillTokens : Q;
  refillIntervalMs : Q
}.
End Config.

Module Consume.
(** [ConsumeResult] *)
Record t := mk {
  allowed : bool;
  remainingTokens : Q;
  retryAfterMs : Q;
  bucketState : State.t
}.
End Consume.

(** ** core/tokenBucket.ts *)

Definition calculateRefillTokens (elapsedMs : Q) (config : Config.t) : Q :=
  if leq elapsedMs 0 || leq (Config.refillIntervalMs config) 0 then 0
  else
    let intervals := elapsedMs / Config.refillIntervalMs config in
    intervals * Config.refillTokens config.

Definition refillBucket (state : State.t) (config : Config.t) (currentTime : Q)
  : State.t :=
  let elapsedMs := currentTime - State.lastRefillTime state in
  if leq elapsedMs 0 then state
  else
    let tokensToAdd := calculateRefillTokens elapsedMs config in
    let newTokens :=
      Math_min (Config.capacity config) (State.tokens state + tokensToAdd) in
    State.mk newTokens currentTime (State.createdAt state) (State.expiresAt state).

Definition createBucket (config : Config.t) (currentTime ttlMs : Q) : State.t :=
  State.mk (Config.capacity config) currentTime currentTime (currentTime + ttlMs).

Definition calculateRetryAfterMs (tokensNeeded : Q) (config : Config.t) : Q :=
  if leq tokensNeeded 0 then 0
  else if leq (Config.refillTokens config) 0
          || leq (Config.refillIntervalMs config) 0
  then MAX_SAFE_INTEGER
  else
    let intervalsNeeded := tokensNeeded / Config.refillTokens config in
    Math_ceil (intervalsNeeded * Config.refillIntervalMs config).

Definition consumeTokens (state : State.t) (config : Config.t)
    (cost currentTime ttlMs : Q) : Consume.t :=
  let refilledState := refillBucket state config currentTime in
  if geq (State.tokens refilledState) cost then
    let newState :=
      State.mk (State.tokens refilledState - cost)
               (State.lastRefillTime refilledState)
               (State.createdAt refilledState)
               (currentTime + ttlMs) in
    Consume.mk true (State.tokens newState) 0 newState
  else
    let tokensNeeded := cost - State.tokens refilledState in
    let retryAfterMs := calculateRetryAfterMs tokensNeeded config in
    let updatedState :=
      State.mk (State.tokens refilledState)
               (State.lastRefillTime refilledState)
               (State.createdAt refilledState)
               (currentTime + ttlMs) in
    Consume.mk false (State.tokens refilledState) retryAfterMs updatedState.

Definition isBucketExpired (state : State.t) (currentTime : Q) : bool :=
  geq currentTime (State.expiresAt state).

(** ** core/tokenBucket.ts, in binary64

    The same functions, with every [number] a binary64 float and every
    operation the IEEE 754 one, as JavaScript computes them. *)

Module Double.
Import PrimFloat FloatOps SpecFloat.
Local Open Scope float_scope.

(** [a <= b] and [a >= b] on numbers: false when either is NaN. *)
Definition leq (a b : float) : bool := PrimFloat.leb a b.
Definition geq (a b : float) : bool := PrimFloat.leb b a.

(** [Math.min(a, b)]: NaN when either is NaN, and -0 below +0. *)
Definition Math_min (a b : float) : float :=
  if is_nan a || is_nan b then nan
  else if ltb a b then a
  else if ltb b a then b
  else if get_sign a then a else b.

(** [Math.ceil(x)]: a float with a non-negative exponent is an integer
    already; otherwise the magnitude m * 2^e has an integer part below
    2^53, which [of_uint63] converts exactly.  Zeros, infinities and NaN
    are returned as they are, and a negative result of magnitude 0 is -0. *)
Definition Math_ceil (x : float) : float :=
  match Prim2SF x with
  | S754_finite s m e =>
      if (0 <=? e)%Z then x
      else
        let d := (2 ^ (- e))%Z in
        let q := (Z.pos m / d)%Z in
        let up := if (Z.pos m mod d =? 0)%Z then q else (q + 1)%Z in
        if s then - of_uint63 (Uint63.of_Z q) else of_uint63 (Uint63.of_Z up)
  | _ => x
  end.

(** [Number.MAX_SAFE_INTEGER] *)
Definition MAX_SAFE_INTEGER : float := 9007199254740991.

Module State.
(** [TokenBucketState] *)
Record t := mk {
  tokens : float;
  lastRefillTime : float;
  createdAt : float;
  expiresAt : float
}.
End State.

Module Config.
(** [TokenBucketConfig] *)
Record t := mk {
  capacity : float;
  refillTokens : float;
  refillIntervalMs : float
}.
End Config.

Module Consume.
(** [ConsumeResult] *)
Record t := mk {
  allowed : bool;
  remainingTokens : float;
  retryAfterMs : float;
  bucketState : State.t
}.
End Consume.

Definition calculateRefillTokens (elapsedMs : float) (config : Config.t)
  : float :=
  if leq elapsedMs 0 || leq (Config.refillIntervalMs config) 0 then 0
  else
    let intervals := elapsedMs / Config.refillIntervalMs config in
    intervals * Config.refillTokens config.

Definition refillBucket (state : State.t) (config : Config.t)
    (currentTime : float) : State.t :=
  let elapsedMs := currentTime - State.lastRefillTime state in
  if leq elapsedMs 0 then state
  else
    let tokensToAdd := calculateRefillTokens elapsedMs config in
    let newTokens :=
      Math_min (Config.capacity config) (State.tokens state + tokensToAdd) in
    State.mk newTokens currentTime (State.createdAt state)
      (State.expiresAt state).

Definition createBucket (config : Config.t) (currentTime ttlMs : float)
  : State.t :=
  State.mk (Config.capacity config) currentTime currentTime
    (currentTime + ttlMs).

Definition calculateRetryAfterMs (tokensNeeded : float) (config : Config.t)
  : float :=
  if leq tokensNeeded 0 then 0
  else if leq (Config.refillTokens config) 0
          || leq (Config.refillIntervalMs config) 0
  then MAX_SAFE_INTEGER
  else
    let intervalsNeeded := tokensNeeded / Config.refillTokens config in
    Math_ceil (intervalsNeeded * Config.refillIntervalMs config).

Definition consumeTokens (state : State.t) (config : Config.t)
    (cost currentTime ttlMs : float) : Consume.t :=
  let refilledState := refillBucket state config currentTime in
  if geq (State.tokens refilledState) cost then
    let newState :=
      State.mk (State.tokens refilledState - cost)
               (State.lastRefillTime refilledState)
               (State.createdAt refilledState)
               (currentTime + ttlMs) in
    Consume.mk true (State.tokens newState) 0 newState
  else
    let tokensNeeded := cost - State.tokens refilledState in
    let retryAfterMs := calculateRetryAfterMs tokensNeeded config in
    let updatedState :=
      State.mk (State.tokens refilledState)
               (State.lastRefillTime refilledState)
               (State.createdAt refilledState)
               (currentTime + ttlMs) in
    Consume.mk false (State.tokens refilledState) retryAfterMs updatedState.

(** The rational a finite float stands for. *)
Definition toQ (x : float) : option Q :=
  match Prim2SF x with
  | S754_zero _ => Some 0%Q
  | S754_finite s m e =>
      Some ((if s then -1 else 1) * inject_Z (Z.pos m) * Qpower 2 e)%Q
  | _ => None
  end.

(** The float [x] is finite and stands for the rational [q]. *)
Definition represents (x : float) (q : Q) : Prop :=
  exists v, toQ x = Some v /\ (v == q)%Q.
End Double.

(** ** core/types.ts, continued *)

Inductive RuleMode := block | challenge.
Inductive FailMode := open | closed.
Inductive DecisionOutcome := ALLOWED | BLOCKED | CHALLENGE.

Module Rule.
(** [RateLimitRule]; [cost], [mode] and [ttlMs] are optional. *)
Record t := mk {
  name : string;
  key : list string;
  capacity : Q;
  refillTokens : Q;
  refillIntervalMs : Q;
  cost : option Q;
  mode : option RuleMode;
  ttlMs : option Q
}.
End Rule.

Module Policy.
(** [ActionPolicy] *)
Record t := mk {
  id : string;
  rules : list Rule.t;
  failMode : FailMode
}.
End Policy.

Module Ctx.
(** [RequestContext]: the well-known optional fields, the mandatory
    [action], and the index signature for custom fields. *)
Record t := mk {
  ip : option string;
  emailHash : option string;
  phoneHash : option string;
  userId : option string;
  sessionId : option string;
  action : string;
  route : option string;
  custom : gmap string string
}.
End Ctx.

Module RuleResult.
Record t := mk {
  ruleName : string;
  key : string;
  allowed : bool;
  outcome : DecisionOutcome;
  retryAfterMs : Q;
  remainingTokens : Q;
  challenge : option string
}.
End RuleResult.

Module Decision.
(** [RateLimitDecision] *)
Record t := mk {
  allowed : bool;
  action : string;
  outcome : DecisionOutcome;
  retryAfterMs : Q;
  ruleResults : list RuleResult.t;
  keys : gmap string string;
  challenge : option string;
  failedDueToError : option bool
}.
End Decision.

(** [KeyExtractor.extract] *)
Definition KeyExtractor := string -> Ctx.t -> option string.

(** ** core/tokenBucket.ts, continued *)

Definition ruleToConfig (rule : Rule.t) : Config.t :=
  Config.mk (Rule.capacity rule) (Rule.refillTokens rule)
            (Rule.refillIntervalMs rule).

(** For [refillTokens = 0] JavaScript divides by zero here and the TTL is
    infinite or NaN; [Q] division gives 0 instead.  Nothing below depends on
    the value of the default TTL. *)
Definition calculateDefaultTtl (rule : Rule.t) : Q :=
  match Rule.ttlMs rule with
  | Some ttl => ttl
  | None =>
      let fullRefillTime :=
        (Rule.capacity rule / Rule.refillTokens rule)
        * Rule.refillIntervalMs rule in
      Math_ceil (fullRefillTime * 2)
  end.

(** ** JavaScript string primitives used by the key builder *)

(** Truthiness of a string: the empty string is falsy. *)
Definition truthy (s : string) : bool :=
  match s with EmptyString => false | String _ _ => true end.

(** [s.split(sep)] for a one-character separator. *)
Fixpoint split (sep : ascii) (s : string) : list string :=
  match s with
  | EmptyString => [EmptyString]
  | String c s' =>
      if Ascii.eqb c sep then EmptyString :: split sep s'
      else match split sep s' with
           | [] => [String c EmptyString]
           | p :: ps => String c p :: ps
           end
  end.

(** [parts.join(sep)] *)
Fixpoint join (sep : ascii) (parts : list string) : string :=
  match parts with
  | [] => EmptyString
  | [p] => p
  | p :: rest => p +:+ String sep (join sep rest)
  end.

(** [s.indexOf(c)], [-1] when [c] does not occur. *)
Fixpoint indexOf (c : ascii) (s : string) : Z :=
  match s with
  | EmptyString => (-1)%Z
  | String a s' =>
      if Ascii.eqb a c then 0%Z
      else let i := indexOf c s' in
           if (i =? -1)%Z then (-1)%Z else (i + 1)%Z
  end.

(** [s.substring(start, stop)] and [s.substring(start)], for
    [0 <= start <= stop <= s.length] as at both call sites. *)
Definition substring (start stop : Z) (s : string) : string :=
  String.substring (Z.to_nat start) (Z.to_nat (stop - start)) s.
Definition substringFrom (start : Z) (s : string) : string :=
  String.substring (Z.to_nat start) (String.length s - Z.to_nat start) s.

Fixpoint mapChars (f : ascii -> ascii) (s : string) : string :=
  match s with
  | EmptyString => EmptyString
  | String c s' => String (f c) (mapChars f s')
  end.

(** ** core/keyBuilder.ts *)

Definition KEY_SEPARATOR : ascii := ":"%char.
Definition VALUE_SEPARATOR : ascii := "="%char.

Definition isSeparator (c : ascii) : bool :=
  Ascii.eqb c KEY_SEPARATOR || Ascii.eqb c VALUE_SEPARATOR.

(** [DefaultKeyExtractor.extract] *)
Definition defaultKeyExtractor : KeyExtractor := fun dimension context =>
  if String.eqb dimension "ip" then Ctx.ip context
  else if String.eqb dimension "emailHash" then Ctx.emailHash context
  else if String.eqb dimension "phoneHash" then Ctx.phoneHash context
  else if String.eqb dimension "userId" then Ctx.userId context
  else if String.eqb dimension "sessionId" then Ctx.sessionId context
  else if String.eqb dimension "action" then Some (Ctx.action context)
  else if String.eqb dimension "route" then Ctx.route context
  else Ctx.custom context !! dimension.

(** [value.replace(/[:=]/g, '_')] *)
Definition sanitizeValue (value : string) : string :=
  mapChars (fun c => if isSeparator c then "_"%char else c) value.

(** The [`${dimension}=${sanitizeValue(value)}`] template. *)
Definition dimensionPart (dimension value : string) : string :=
  dimension +:+ String VALUE_SEPARATOR (sanitizeValue value).

(** The loop of [buildKey]: [parts] grows by one segment per dimension and
    the function returns early on the first missing or empty value. *)
Fixpoint buildParts (extractor : KeyExtractor) (context : Ctx.t)
    (dimensions : list string) (parts : list string) : option (list string) :=
  match dimensions with
  | [] => Some parts
  | dimension :: rest =>
      match extractor dimension context with
      | None => None
      | Some value =>
          if truthy value
          then buildParts extractor context rest
                 (parts ++ [dimensionPart dimension value])
          else None
      end
  end.

Definition buildKey (action : string) (rule : Rule.t) (context : Ctx.t)
    (extractor : KeyExtractor) : option string :=
  join KEY_SEPARATOR
    <$> buildParts extractor context (Rule.key rule) [action; Rule.name rule].

Module Parsed.
(** The object returned by [parseKey]. *)
Record t := mk {
  action : string;
  ruleName : string;
  dimensions : gmap string string
}.
End Parsed.

(** One iteration of the [for (let i = 2; ...)] loop of [parseKey]. *)
Definition parseSegment (dimensions : gmap string string) (part : string)
  : gmap string string :=
  if negb (truthy part) then dimensions
  else
    let eqIndex := indexOf VALUE_SEPARATOR part in
    if (eqIndex =? -1)%Z then dimensions
    else
      let dimName := substring 0 eqIndex part in
      let dimValue := substringFrom (eqIndex + 1) part in
      if truthy dimName then <[dimName := dimValue]> dimensions
      else dimensions.

Definition parseKey (key : string) : option Parsed.t :=
  let parts := split KEY_SEPARATOR key in
  if (length parts <? 2)%nat then None
  else
    match parts with
    | action :: ruleName :: segments =>
        if negb (truthy action) || negb (truthy ruleName) then None
        else Some (Parsed.mk action ruleName
                     (foldl parseSegment ∅ segments))
    | _ => None
    end.

(** ** core/decision.ts *)

(** [a || b] on optional strings: [a] when it is a non-empty string. *)
Definition orElse (a b : option string) : option string :=
  match a with
  | Some s => if truthy s then a else b
  | None => b
  end.

Module Scan.
(** The four local variables of the scan in [combineRuleResults]. *)
Record t := mk {
  hasBlock : bool;
  hasChallenge : bool;
  maxRetryAfterMs : Q;
  challengeHint : option string
}.
End Scan.

Definition scanResult (acc : Scan.t) (result : RuleResult.t) : Scan.t :=
  match RuleResult.outcome result with
  | BLOCKED =>
      Scan.mk true (Scan.hasChallenge acc)
        (Math_max (Scan.maxRetryAfterMs acc) (RuleResult.retryAfterMs result))
        (Scan.challengeHint acc)
  | CHALLENGE =>
      Scan.mk (Scan.hasBlock acc) true (Scan.maxRetryAfterMs acc)
        (orElse (Scan.challengeHint acc) (RuleResult.challenge result))
  | ALLOWED => acc
  end.

(** The initial values of the scan's variables. *)
Definition scanStart : Scan.t := Scan.mk false false 0 None.

Definition combineRuleResults (action : string)
    (ruleResults : list RuleResult.t) (keys : gmap string string)
  : Decision.t :=
  match ruleResults with
  | [] => Decision.mk true action ALLOWED 0 [] keys None None
  | _ =>
      let acc := foldl scanResult scanStart ruleResults in
      let outcome :=
        if Scan.hasBlock acc then BLOCKED
        else if Scan.hasChallenge acc then CHALLENGE
        else ALLOWED in
      let allowed := negb (Scan.hasBlock acc) in
      Decision.mk allowed action outcome (Scan.maxRetryAfterMs acc)
        ruleResults keys
        (match Scan.challengeHint acc with
         | Some hint => if truthy hint then Some hint else None
         | None => None
         end)
        None
  end.

Definition createErrorDecision (action : string) (failMode : FailMode)
    (errorMessage : string) : Decision.t :=
  let allowed := match failMode with open => true | closed => false end in
  let outcome := if allowed then ALLOWED else BLOCKED in
  let retry : Q := if allowed then 0 else inject_Z 60000 in
  Decision.mk allowed action outcome retry
    [RuleResult.mk "store_error" "error" allowed outcome retry 0
       (Some ("Store error: " +:+ errorMessage))]
    ∅ None (Some true).

Definition createAllowedDecision (action : string) : Decision.t :=
  Decision.mk true action ALLOWED 0 [] ∅ None None.

(** ** Effects: a fallible computation over a world [W]

    An [async] method that may reject is a function from the world to an
    outcome and the world it leaves behind. *)

Inductive result (A : Type) : Type :=
| Ok (a : A)
| Throw (message : string).
Arguments Ok {A} a.
Arguments Throw {A} message.

Definition M (W A : Type) : Type := W -> result A * W.

Definition ret {W A} (a : A) : M W A := fun w => (Ok a, w).

Definition bind {W A B} (c : M W A) (k : A -> M W B) : M W B :=
  fun w =>
    match c w with
    | (Ok a, w') => k a w'
    | (Throw e, w') => (Throw e, w')
    end.

Notation "'let*' x ':=' c 'in' k" := (bind c (fun x => k))
  (at level 10, x name, c at level 100, k at level 200).

(** What the policy engine needs from its surroundings: the injected time
    provider and the [get] and [set] methods of a [RateLimitStore]. *)
Record Env (W : Type) := mkEnv {
  getTime : M W Q;
  storeGet : string -> M W (option State.t);
  storeSet : string -> State.t -> Q -> M W unit
}.
Arguments getTime {W} _.
Arguments storeGet {W} _.
Arguments storeSet {W} _.

(** ** core/policyEngine.ts *)

Module PolicyEngine.
Section Engine.
Context {W : Type}.
Variable env : Env W.
Variable policies : gmap string Policy.t.
Variable keyExtractor : KeyExtractor.

Definition skippedResult (rule : Rule.t) : RuleResult.t :=
  RuleResult.mk (Rule.name rule) "skipped" true ALLOWED 0
    (Rule.capacity rule) None.

Definition evaluateRule (rule : Rule.t) (context : Ctx.t)
    (policy : Policy.t) : M W RuleResult.t :=
  match buildKey (Policy.id policy) rule context keyExtractor with
  | None => ret (skippedResult rule)
  | Some key =>
      let* now := getTime env in
      let config := ruleToConfig rule in
      let ttlMs := calculateDefaultTtl rule in
      let cost := default 1 (Rule.cost rule) in
      let* stored := storeGet env key in
      let bucketState :=
        match stored with
        | Some b => if isBucketExpired b now
                    then createBucket config now ttlMs else b
        | None => createBucket config now ttlMs
        end in
      let consumeResult := consumeTokens bucketState config cost now ttlMs in
      let* _ := storeSet env key (Consume.bucketState consumeResult) ttlMs in
      let mode := default block (Rule.mode rule) in
      let outcome :=
        if Consume.allowed consumeResult then ALLOWED
        else match mode with challenge => CHALLENGE | block => BLOCKED end in
      let challengeHint :=
        if Consume.allowed consumeResult then None
        else match mode with
             | challenge => Some "captcha_required"%string
             | block => None
             end in
      ret (RuleResult.mk (Rule.name rule) key
             (Consume.allowed consumeResult) outcome
             (Consume.retryAfterMs consumeResult)
             (Consume.remainingTokens consumeResult) challengeHint)
  end.

(** The [for (const rule of policy.rules)] loop of [evaluatePolicy]. *)
Fixpoint evaluateRules (policy : Policy.t) (context : Ctx.t)
    (rules : list Rule.t) (ruleResults : list RuleResult.t)
    (keys : gmap string string)
  : M W (list RuleResult.t * gmap string string) :=
  match rules with
  | [] => ret (ruleResults, keys)
  | rule :: rest =>
      let* r := evaluateRule rule context policy in
      let keys' :=
        if String.eqb (RuleResult.key r) "skipped" then keys
        else <[Rule.name rule := RuleResult.key r]> keys in
      evaluateRules policy context rest (ruleResults ++ [r]) keys'
  end.

Definition evaluatePolicy (policy : Policy.t) (context : Ctx.t)
  : M W Decision.t :=
  let* evaluated :=
    evaluateRules policy context (Policy.rules policy) [] ∅ in
  ret (combineRuleResults (Policy.id policy) (fst evaluated) (snd evaluated)).

(** [check] has no failing outcome: the [try]/[catch] turns every
    exception of [evaluatePolicy] into a decision. *)
Definition check (context : Ctx.t) : W -> Decision.t * W := fun w =>
  let action := Ctx.action context in
  match policies !! action with
  | None => (createAllowedDecision action, w)
  | Some policy =>
      match evaluatePolicy policy context w with
      | (Ok d, w') => (d, w')
      | (Throw message, w') =>
          (createErrorDecision action (Policy.failMode policy) message, w')
      end
  end.
End Engine.
End PolicyEngine.

(** ** stores/memoryStore.ts *)

Module Entry.
(** [StoreEntry] *)
Record t := mk {
  state : State.t;
  lastAccessedAt : Z
}.
End Entry.

Module Options.
(** [Required<MemoryStoreOptions>] *)
Record t := mk {
  sweepIntervalMs : Z;
  highWaterMark : Z;
  evictionCount : Z
}.
End Options.

Module PartialOptions.
(** [MemoryStoreOptions], every field optional. *)
Record t := mk {
  sweepIntervalMs : option Z;
  highWaterMark : option Z;
  evictionCount : option Z
}.
End PartialOptions.

Definition DEFAULT_OPTIONS : Options.t := Options.mk 60000 100000 10000.

(** [{ ...DEFAULT_OPTIONS, ...options }], for options whose given fields are
    numbers. *)
Definition mergeOptions (options : PartialOptions.t) : Options.t :=
  Options.mk
    (default (Options.sweepIntervalMs DEFAULT_OPTIONS)
       (PartialOptions.sweepIntervalMs options))
    (default (Options.highWaterMark DEFAULT_OPTIONS)
       (PartialOptions.highWaterMark options))
    (default (Options.evictionCount DEFAULT_OPTIONS)
       (PartialOptions.evictionCount options)).

(** The JavaScript [Map<string, StoreEntry>]: entries in insertion order,
    at most one per key. *)
Abbreviation EntryMap := (list (string * Entry.t)).

Definition Map_get (key : string) (m : EntryMap) : option Entry.t :=
  snd <$> List.find (fun p => String.eqb (fst p) key) m.

Definition Map_delete (key : string) (m : EntryMap) : EntryMap :=
  filter (fun p => fst p <> key) m.

(** Overwrites the value of an existing key where it stands. *)
Definition Map_replace (key : string) (e : Entry.t) (m : EntryMap) : EntryMap :=
  (fun p => if String.eqb (fst p) key then (key, e) else p) <$> m.

Definition Map_size (m : EntryMap) : Z := Z.of_nat (length m).

Definition expiredAt (now : Z) (e : Entry.t) : bool :=
  geq (inject_Z now) (State.expiresAt (Entry.state e)).

(** [Array.prototype.sort] with the comparator
    [(a, b) => a[1].lastAccessedAt - b[1].lastAccessedAt]; the sort is
    stable. *)
Fixpoint insertByAccess (p : string * Entry.t) (sorted : EntryMap) : EntryMap :=
  match sorted with
  | [] => [p]
  | q :: rest =>
      if (Entry.lastAccessedAt (snd p) <=? Entry.lastAccessedAt (snd q))%Z
      then p :: q :: rest
      else q :: insertByAccess p rest
  end.

Definition sortByAccess (m : EntryMap) : EntryMap :=
  foldr insertByAccess [] m.

(** The loop of phase 2 of [evictEntries]: [this.store.delete(entry[0])]
    for each of the chosen entries in turn. *)
Definition deleteAll (m entries : EntryMap) : EntryMap :=
  foldl (fun acc entry => Map_delete (fst entry) acc) m entries.

Definition shutdownMessage : string := "MemoryStore has been shutdown".

Module MemoryStore.
Record t := mk {
  store : EntryMap;
  options : Options.t;
  sweepTimer : bool;
  isShutdown : bool
}.

Definition withStore (ms : t) (m : EntryMap) : t :=
  mk m (options ms) (sweepTimer ms) (isShutdown ms).

(** [startSweeper] decides whether the interval timer is armed. *)
Definition startSweeper (options : Options.t) : bool :=
  negb (Options.sweepIntervalMs options <=? 0)%Z.

Definition new (options : PartialOptions.t) : t :=
  let opts := mergeOptions options in
  mk [] opts (startSweeper opts) false.

Definition checkShutdown {A} (ms : t) (k : result A * t) : result A * t :=
  if isShutdown ms then (Throw shutdownMessage, ms) else k.

Definition get (key : string) (now : Z) (ms : t)
  : result (option State.t) * t :=
  checkShutdown ms
    match Map_get key (store ms) with
    | None => (Ok None, ms)
    | Some entry =>
        if expiredAt now entry
        then (Ok None, withStore ms (Map_delete key (store ms)))
        else (Ok (Some (Entry.state entry)),
              withStore ms
                (Map_replace key (Entry.mk (Entry.state entry) now)
                   (store ms)))
    end.

(** Phase 1 of [evictEntries]: the [for ... of] loop over the live map.
    [pending] is what the iterator has still to visit, [m] the map as
    deleted from so far. *)
Fixpoint evictExpired (targetSize now : Z) (pending m : EntryMap)
  : EntryMap :=
  match pending with
  | [] => m
  | (key, entry) :: rest =>
      if (Map_size m <=? targetSize)%Z then m
      else if expiredAt now entry
           then evictExpired targetSize now rest (Map_delete key m)
           else evictExpired targetSize now rest m
  end.

(** Phase 2 of [evictEntries]. *)
Definition evictOldest (targetSize : Z) (m : EntryMap) : EntryMap :=
  if (targetSize <? Map_size m)%Z then
    let entries := sortByAccess m in
    let toEvict := (Map_size m - targetSize)%Z in
    deleteAll m (take (Z.to_nat toEvict) entries)
  else m.

Definition evictEntries (now : Z) (opts : Options.t) (m : EntryMap)
  : EntryMap :=
  let targetSize :=
    (Options.highWaterMark opts - Options.evictionCount opts)%Z in
  evictOldest targetSize (evictExpired targetSize now m m).

Definition set (key : string) (state : State.t) (_ttlMs : Q) (now : Z)
    (ms : t) : result unit * t :=
  checkShutdown ms
    match Map_get key (store ms) with
    | Some _ =>
        (Ok tt, withStore ms (Map_replace key (Entry.mk state now) (store ms)))
    | None =>
        let m :=
          if (Options.highWaterMark (options ms) <=? Map_size (store ms))%Z
          then evictEntries now (options ms) (store ms)
          else store ms in
        (Ok tt, withStore ms (m ++ [(key, Entry.mk state now)]))
    end.

Definition delete (key : string) (ms : t) : result unit * t :=
  checkShutdown ms (Ok tt, withStore ms (Map_delete key (store ms))).

Definition has (key : string) (now : Z) (ms : t) : result bool * t :=
  checkShutdown ms
    match Map_get key (store ms) with
    | None => (Ok false, ms)
    | Some entry =>
        if expiredAt now entry
        then (Ok false, withStore ms (Map_delete key (store ms)))
        else (Ok true, ms)
    end.

Definition size (ms : t) : result Z * t :=
  checkShutdown ms (Ok (Map_size (store ms)), ms).

Definition clear (ms : t) : result unit * t :=
  checkShutdown ms (Ok tt, withStore ms []).

Definition shutdown (ms : t) : result unit * t :=
  if isShutdown ms then (Ok tt, ms)
  else (Ok tt, mk [] (options ms) false true).

(** The body of the interval callback. *)
Definition sweep (now : Z) (ms : t) : t :=
  if isShutdown ms then ms
  else withStore ms
         (filter (fun p => expiredAt now (snd p) = false) (store ms)).

(** One interaction with a store: a method call, or the interval timer
    firing (which runs [sweep] only while the timer is armed). *)
Inductive Call :=
| CallGet (key : string)
| CallSet (key : string) (state : State.t) (ttlMs : Q)
| CallDelete (key : string)
| CallHas (key : string)
| CallSize
| CallClear
| CallShutdown
| TimerFires.

Inductive Value :=
| VState (s : option State.t)
| VBool (b : bool)
| VSize (n : Z)
| VVoid.

Definition lift {A} (f : A -> Value) (r : result A * t) : result Value * t :=
  match r with
  | (Ok a, ms) => (Ok (f a), ms)
  | (Throw e, ms) => (Throw e, ms)
  end.

Definition perform (c : Call) (now : Z) (ms : t) : result Value * t :=
  match c with
  | CallGet key => lift VState (get key now ms)
  | CallSet key state ttlMs => lift (fun _ => VVoid) (set key state ttlMs now ms)
  | CallDelete key => lift (fun _ => VVoid) (delete key ms)
  | CallHas key => lift VBool (has key now ms)
  | CallSize => lift VSize (size ms)
  | CallClear => lift (fun _ => VVoid) (clear ms)
  | CallShutdown => lift (fun _ => VVoid) (shutdown ms)
  | TimerFires => (Ok VVoid, if sweepTimer ms then sweep now ms else ms)
  end.

(** A history of interactions, each at its own clock reading. *)
Fixpoint run (calls : list (Call * Z)) (ms : t) : list (result Value) * t :=
  match calls with
  | [] => ([], ms)
  | (c, now) :: rest =>
      let '(r, ms') := perform c now ms in
      let '(rs, ms'') := run rest ms' in
      (r :: rs, ms'')
  end.

Definition isStoreOperation (c : Call) : bool :=
  match c with
  | CallShutdown | TimerFires => false
  | _ => true
  end.
End MemoryStore.

(** ** Reference notions used to state the properties *)

(** A challenge hint that is present and non-empty. *)
Definition nonEmptyHint (h : option string) : option string :=
  match h with
  | Some s => if truthy s then Some s else None
  | None => None
  end.

(** The first non-empty challenge hint, in list order, among the results
    whose outcome is CHALLENGE. *)
Fixpoint firstChallengeHint (rs : list RuleResult.t) : option string :=
  match rs with
  | [] => None
  | r :: rest =>
      match RuleResult.outcome r, nonEmptyHint (RuleResult.challenge r) with
      | CHALLENGE, Some h => Some h
      | _, _ => firstChallengeHint rest
      end
  end.

(** [c] does not occur in [s]. *)
Fixpoint noChar (c : ascii) (s : string) : bool :=
  match s with
  | EmptyString => true
  | String a s' => negb (Ascii.eqb a c) && noChar c s'
  end.

(** A dimension value that [buildKey] refuses: absent, or the empty
    string. *)
Definition missingValue (v : option string) : bool :=
  match v with
  | None => true
  | Some s => negb (truthy s)
  end.

(** Well-formedness of the components of a key, for [parseKey] to read it
    back: the action and the rule name are non-empty and free of the key
    separator, and each dimension name is non-empty and free of both
    separators (as the seven well-known dimension names are). *)
Definition wellFormedName (s : string) : bool :=
  truthy s && noChar KEY_SEPARATOR s.
Definition wellFormedDimension (d : string) : bool :=
  truthy d && noChar KEY_SEPARATOR d && noChar VALUE_SEPARATOR d.
Definition wellFormedKey (action : string) (rule : Rule.t) : bool :=
  wellFormedName action && wellFormedName (Rule.name rule)
  && forallb wellFormedDimension (Rule.key rule).

(** Some result of the list is BLOCKED, respectively CHALLENGE. *)
Definition blockedIn (rs : list RuleResult.t) : Prop :=
  exists r, r ∈ rs /\ RuleResult.outcome r = BLOCKED.
Definition challengeIn (rs : list RuleResult.t) : Prop :=
  exists r, r ∈ rs /\ RuleResult.outcome r = CHALLENGE.

(** The key segment [buildKey] appends for a dimension whose value is
    present. *)
Definition segmentOf (extractor : KeyExtractor) (context : Ctx.t)
    (dimension : string) : string :=
  dimensionPart dimension (default EmptyString (extractor dimension context)).

(** The invariant of a JavaScript [Map]: no key occurs twice. *)
Definition uniqueKeys (m : EntryMap) : Prop := NoDup m.*1.

(** Ascending [lastAccessedAt]. *)
Definition olderOrEqual (p q : string * Entry.t) : Prop :=
  (Entry.lastAccessedAt (snd p) <= Entry.lastAccessedAt (snd q))%Z.

(** The entries phase 2 of [evictEntries] picks: the first [toEvict] of the
    map sorted by last access. *)
Definition oldestEntries (targetSize : Z) (m : EntryMap) : EntryMap :=
  take (Z.to_nat (Map_size m - targetSize)) (sortByAccess m).

(** ** Concrete surroundings for the policy engine *)

(** The engine over a [MemoryStore]: the world is a clock reading, used both
    as [Date.now()] inside the store and by the time provider, and the
    store. *)
Definition memoryEnv : Env (Z * MemoryStore.t) :=
  mkEnv (Z * MemoryStore.t)
    (fun w => (Ok (inject_Z (fst w)), w))
    (fun key w =>
       let r := MemoryStore.get key (fst w) (snd w) in (fst r, (fst w, snd r)))
    (fun key state ttlMs w =>
       let r := MemoryStore.set key state ttlMs (fst w) (snd w) in
       (fst r, (fst w, snd r))).

(** A store that is down: every operation throws. *)
Definition failingEnv (message : string) : Env unit :=
  mkEnv unit (fun w => (Ok 0, w))
    (fun _ w => (Throw message, w))
    (fun _ _ _ w => (Throw message, w)).

(** A store that only records which of its operations were called. *)
Inductive StoreCall :=
| GetCalled (key : string)
| SetCalled (key : string).

Definition recordingEnv : Env (list StoreCall) :=
  mkEnv (list StoreCall) (fun w => (Ok 0, w))
    (fun key w => (Ok None, w ++ [GetCalled key]))
    (fun key _ _ w => (Ok tt, w ++ [SetCalled key])).

(** The bucket [evaluateRule] works on: the stored one unless absent or
    expired, else a fresh one. *)
Definition bucketFor (rule : Rule.t) (stored : option State.t) (now : Q)
  : State.t :=
  match stored with
  | Some b =>
      if isBucketExpired b now
      then createBucket (ruleToConfig rule) now (calculateDefaultTtl rule)
      else b
  | None => createBucket (ruleToConfig rule) now (calculateDefaultTtl rule)
  end.

(** The consume attempt [evaluateRule] makes. *)
Definition attemptFor (rule : Rule.t) (stored : option State.t) (now : Q)
  : Consume.t :=
  consumeTokens (bucketFor rule stored now) (ruleToConfig rule)
    (default 1 (Rule.cost rule)) now (calculateDefaultTtl rule).

(** Some store operation throws while the rules are evaluated in order:
    the [get] or the [set] of a rule whose key could be built, all earlier
    rules having been evaluated without exception. *)
Inductive StoreFault {W} (env : Env W) (extractor : KeyExtractor)
    (policy : Policy.t) (context : Ctx.t)
  : list Rule.t -> W -> string -> W -> Prop :=
| fault_in_get rule rest key now w w1 w2 message :
    buildKey (Policy.id policy) rule context extractor = Some key ->
    getTime env w = (Ok now, w1) ->
    storeGet env key w1 = (Throw message, w2) ->
    StoreFault env extractor policy context (rule :: rest) w message w2
| fault_in_set rule rest key now stored w w1 w2 w3 message :
    buildKey (Policy.id policy) rule context extractor = Some key ->
    getTime env w = (Ok now, w1) ->
    storeGet env key w1 = (Ok stored, w2) ->
    storeSet env key (Consume.bucketState (attemptFor rule stored now))
      (calculateDefaultTtl rule) w2 = (Throw message, w3) ->
    StoreFault env extractor policy context (rule :: rest) w message w3
| fault_later rule rest r w w1 w2 message :
    PolicyEngine.evaluateRule env extractor rule context policy w = (Ok r, w1) ->
    StoreFault env extractor policy context rest w1 message w2 ->
    StoreFault env extractor policy context (rule :: rest) w message w2.

(** The challenge policy of the test suite and a request against it. *)
Definition challengeRule : Rule.t :=
  Rule.mk "per_ip" ["ip"%string] 3 3 60000 None (Some challenge) None.
Definition challengePolicy : Policy.t :=
  Policy.mk "challenge_action" [challengeRule] closed.
Definition requestFrom (ip : option string) : Ctx.t :=
  Ctx.mk ip None None None None "challenge_action" None ∅.

(** ** Reference notions for the further properties *)

(** The bucket after [n] consume attempts of the same cost at the same
    instant, each working on the state the one before returned. *)
Fixpoint consumeRepeatedly (n : nat) (state : State.t) (config : Config.t)
    (cost now ttlMs : Q) : State.t :=
  match n with
  | O => state
  | S k =>
      Consume.bucketState
        (consumeTokens (consumeRepeatedly k state config cost now ttlMs)
           config cost now ttlMs)
  end.

(** ** core/decision.ts, the remaining constructors *)

(** [parts.join(sep)] for a separator string. *)
Fixpoint joinWith (sep : string) (parts : list string) : string :=
  match parts with
  | [] => EmptyString
  | [p] => p
  | p :: rest => p +:+ sep +:+ joinWith sep rest
  end.

Definition createMissingDimensionDecision (action ruleName : string)
    (missingDimensions : list string) (failMode : FailMode) : Decision.t :=
  let allowed := match failMode with open => true | closed => false end in
  let outcome := if allowed then ALLOWED else BLOCKED in
  Decision.mk allowed action outcome 0
    [RuleResult.mk ruleName "missing_dimensions" allowed outcome 0 0
       (Some ("Missing dimensions: " +:+ joinWith ", " missingDimensions))]
    ∅ None (Some true).

Definition createBlockedDecision (action : string) (retryAfterMs : Q)
    (reason : string) : Decision.t :=
  Decision.mk false action BLOCKED retryAfterMs
    [RuleResult.mk "manual_block" "manual" false BLOCKED retryAfterMs 0
       (Some reason)]
    ∅ None None.

Module Logged.
(** The object [formatDecisionForLogging] returns. *)
Record t := mk {
  allowed : bool;
  action : string;
  outcome : DecisionOutcome;
  retryAfterMs : Q;
  ruleCount : nat;
  failedRules : list string;
  challenge : option string;
  failedDueToError : option bool
}.
End Logged.

Definition formatDecisionForLogging (decision : Decision.t) : Logged.t :=
  Logged.mk (Decision.allowed decision) (Decision.action decision)
    (Decision.outcome decision) (Decision.retryAfterMs decision)
    (length (Decision.ruleResults decision))
    (RuleResult.ruleName
       <$> filter (fun r => RuleResult.allowed r = false)
             (Decision.ruleResults decision))
    (Decision.challenge decision) (Decision.failedDueToError decision).

(** How restrictive an outcome is: BLOCKED over CHALLENGE over ALLOWED. *)
Definition severity (o : DecisionOutcome) : nat :=
  match o with ALLOWED => 0 | CHALLENGE => 1 | BLOCKED => 2 end.

(** The decision is rejected exactly when its outcome is BLOCKED. *)
Definition rejectsOnlyBlocked (d : Decision.t) : Prop :=
  Decision.allowed d = false <-> Decision.outcome d = BLOCKED.

(** The result [evaluateRule] builds from the key and the consume
    attempt of a rule that is not skipped. *)
Definition resultOf (rule : Rule.t) (key : string) (c : Consume.t)
  : RuleResult.t :=
  RuleResult.mk (Rule.name rule) key (Consume.allowed c)
    (if Consume.allowed c then ALLOWED
     else match default block (Rule.mode rule) with
          | challenge => CHALLENGE
          | block => BLOCKED
          end)
    (Consume.retryAfterMs c) (Consume.remainingTokens c)
    (if Consume.allowed c then None
     else match default block (Rule.mode rule) with
          | challenge => Some "captcha_required"%string
          | block => None
          end).

(** The store calls the evaluation of one rule makes. *)
Definition callsOf (extractor : KeyExtractor) (policy : Policy.t)
    (context : Ctx.t) (rule : Rule.t) : list StoreCall :=
  match buildKey (Policy.id policy) rule context extractor with
  | Some key => [GetCalled key; SetCalled key]
  | None => []
  end.

(** What a rule result has to do with its rule: the rule's name, and the
    rule's key, or "skipped" when there is none. *)
Definition resultFor (extractor : KeyExtractor) (policy : Policy.t)
    (context : Ctx.t) (rule : Rule.t) (r : RuleResult.t) : Prop :=
  RuleResult.ruleName r = Rule.name rule
  /\ RuleResult.key r
     = default "skipped"%string
         (buildKey (Policy.id policy) rule context extractor).

(** What holds of every result of an evaluated or skipped rule: it is
    allowed exactly when its outcome is ALLOWED, it asks for no wait when
    ALLOWED and for a positive wait otherwise, and it carries a hint exactly
    when it is a CHALLENGE, namely "captcha_required". *)
Definition engineResult (r : RuleResult.t) : Prop :=
  (RuleResult.allowed r = true <-> RuleResult.outcome r = ALLOWED)
  /\ (RuleResult.outcome r = ALLOWED -> RuleResult.retryAfterMs r = 0)
  /\ (RuleResult.outcome r <> ALLOWED -> 0 < RuleResult.retryAfterMs r)
  /\ (RuleResult.outcome r = CHALLENGE ->
      RuleResult.challenge r = Some "captcha_required"%string)
  /\ (RuleResult.outcome r <> CHALLENGE -> RuleResult.challenge r = None).

(** A policy of two rules, the first of which can never be satisfied (its
    capacity is 0), and a request that both rules apply to. *)
Definition strictPolicy : Policy.t :=
  Policy.mk "login"
    [Rule.mk "per_ip" ["ip"%string] 0 1 1000 None None None;
     Rule.mk "per_email" ["emailHash"%string] 3 3 60000 None None None]
    closed.
Definition loginRequest : Ctx.t :=
  Ctx.mk (Some "10.0.0.1"%string) (Some "ab12"%string) None None None "login"
    None ∅.

(** What a [get] of [key] at [now] finds in the map: the stored state
    unless it is absent or has expired. *)
Definition liveState (key : string) (now : Z) (m : EntryMap) : option State.t :=
  match Map_get key m with
  | Some entry => if expiredAt now entry then None else Some (Entry.state entry)
  | None => None
  end.

(** [n] requests in a row through [check], each starting from the world the
    one before left. *)
Fixpoint checkRepeatedly {W : Type} (env : Env W)
    (policies : gmap string Policy.t) (extractor : KeyExtractor)
    (context : Ctx.t) (n : nat) (w : W) : W :=
  match n with
  | O => w
  | S k =>
      snd (PolicyEngine.check env policies extractor context
             (checkRepeatedly env policies extractor context k w))
  end.

(** The outcome and the allowed flag of a decision whose single rule, of
    the given mode, was denied. *)
Definition deniedOutcome (mode : option RuleMode) : DecisionOutcome :=
  match default block mode with block => BLOCKED | challenge => CHALLENGE end.
Definition deniedAllowed (mode : option RuleMode) : bool :=
  match default block mode with block => false | challenge => true end.

(** ** stores/memoryStore.ts, the statistics *)

Module Stats.
(** The object [getStats] returns. *)
Record t := mk {
  size : Z;
  highWaterMark : Z;
  utilizationPercent : Q
}.
End Stats.


(** The answer [has] owes a caller to whom [get] would have given [r]. *)
Definition presence (r : result (option State.t)) : result bool :=
  match r with
  | Ok (Some _) => Ok true
  | Ok None => Ok false
  | Throw message => Throw message
  end.

(** ** core/keyBuilder.ts, the remaining functions *)

(** [buildKeysForRules]: the [Map] from rule name to key, a later rule of
    the same name overwriting an earlier one. *)
Definition buildKeysForRules (action : string) (rules : list Rule.t)
    (context : Ctx.t) (extractor : KeyExtractor) : gmap string (option string) :=
  foldl (fun keys rule =>
           <[Rule.name rule := buildKey action rule context extractor]> keys)
    ∅ rules.

Definition maskHash (hash : string) : string :=
  if (Z.of_nat (String.length hash) <=? 8)%Z then hash
  else substring 0 8 hash +:+ "...".

Definition extractDimensionsForLogging (context : Ctx.t)
    (dimensions : list string) : gmap string string :=
  foldl (fun result dim =>
           match defaultKeyExtractor dim context with
           | Some value =>
               if String.eqb dim "emailHash" || String.eqb dim "phoneHash"
               then <[dim := maskHash value]> result
               else <[dim := value]> result
           | None => result
           end)
    ∅ dimensions.

Definition validateDimensions (context : Ctx.t) (dimensions : list string)
    (extractor : KeyExtractor) : list string :=
  foldl (fun missing dim =>
           match extractor dim context with
           | None => missing ++ [dim]
           | Some value =>
               if String.eqb value "" then missing ++ [dim] else missing
           end)
    [] dimensions.

(** The [keys] object [evaluatePolicy] fills in: one entry per rule whose
    key could be built, a later rule of the same name overwriting an
    earlier one. *)
Definition engineKeys (extractor : KeyExtractor) (policy : Policy.t)
    (context : Ctx.t) (keys : gmap string string) (rules : list Rule.t)
  : gmap string string :=
  foldl (fun ks rule =>
           match buildKey (Policy.id policy) rule context extractor with
           | Some key => <[Rule.name rule := key]> ks
           | None => ks
           end)
    keys rules.

(** Whether a dimension is logged masked. *)
Definition isHashDimension (dim : string) : bool :=
  String.eqb dim "emailHash" || String.eqb dim "phoneHash".

(** What [extractDimensionsForLogging] writes for a dimension of the given
    value. *)
Definition loggedValue (dim value : string) : string :=
  if isHashDimension dim then maskHash value else value.

(** Whether an outcome is ALLOWED. *)
Definition isAllowedOutcome (o : DecisionOutcome) : bool :=
  match o with ALLOWED => true | _ => false end.

(** ** index.ts: the default policies and their customisation *)

Module TIME.
Definition SECOND : Q := 1000.
Definition MINUTE : Q := 60 * 1000.
Definition HOUR : Q := 60 * 60 * 1000.
Definition DAY : Q := 24 * 60 * 60 * 1000.
End TIME.

Definition passwordResetPerIp : Rule.t :=
  Rule.mk "per_ip" ["ip"%string] 5 5 TIME.MINUTE (Some 1) (Some block)
    (Some (TIME.MINUTE * 2)).
Definition passwordResetPerEmail : Rule.t :=
  Rule.mk "per_email" ["emailHash"%string] 3 3 (TIME.MINUTE * 15) (Some 1)
    (Some block) (Some (TIME.MINUTE * 30)).
Definition passwordResetRequestPolicy : Policy.t :=
  Policy.mk "password_reset_request"
    [passwordResetPerIp; passwordResetPerEmail] closed.

Definition registerPerIp : Rule.t :=
  Rule.mk "per_ip" ["ip"%string] 10 10 TIME.HOUR (Some 1) (Some block)
    (Some (TIME.HOUR * 2)).
Definition registerPerIpEmail : Rule.t :=
  Rule.mk "per_ip_email" ["ip"%string; "emailHash"%string] 3 3 TIME.HOUR
    (Some 1) (Some challenge) (Some (TIME.HOUR * 2)).
Definition registerPolicy : Policy.t :=
  Policy.mk "register" [registerPerIp; registerPerIpEmail] open.

Definition otpSendPerSession : Rule.t :=
  Rule.mk "per_session" ["sessionId"%string] 3 3 (TIME.MINUTE * 10) (Some 1)
    (Some block) (Some (TIME.MINUTE * 20)).
Definition otpSendPerIp : Rule.t :=
  Rule.mk "per_ip" ["ip"%string] 10 10 TIME.HOUR (Some 1) (Some block)
    (Some (TIME.HOUR * 2)).
Definition otpSendPolicy : Policy.t :=
  Policy.mk "otp_send" [otpSendPerSession; otpSendPerIp] closed.

Definition otpVerifyPerSession : Rule.t :=
  Rule.mk "per_session" ["sessionId"%string] 5 5 (TIME.MINUTE * 10) (Some 1)
    (Some block) (Some (TIME.MINUTE * 20)).
Definition otpVerifyPolicy : Policy.t :=
  Policy.mk "otp_verify" [otpVerifyPerSession] closed.

Definition loginPerIp : Rule.t :=
  Rule.mk "per_ip" ["ip"%string] 20 20 TIME.HOUR (Some 1) (Some block)
    (Some (TIME.HOUR * 2)).
Definition loginPerIpEmail : Rule.t :=
  Rule.mk "per_ip_email" ["ip"%string; "emailHash"%string] 5 5
    (TIME.MINUTE * 15) (Some 1) (Some block) (Some (TIME.MINUTE * 30)).
Definition loginPolicy : Policy.t :=
  Policy.mk "login" [loginPerIp; loginPerIpEmail] closed.

Definition defaultPolicyList : list (string * Policy.t) :=
  [("password_reset_request"%string, passwordResetRequestPolicy);
   ("register"%string, registerPolicy);
   ("otp_send"%string, otpSendPolicy);
   ("otp_verify"%string, otpVerifyPolicy);
   ("login"%string, loginPolicy)].

Definition defaultPolicies : gmap string Policy.t :=
  list_to_map defaultPolicyList.

(** A property of an object literal: absent, present with the value
    [undefined], or present with a value. *)
Inductive Property (A : Type) : Type :=
| Absent
| Undefined
| Given (value : A).
Arguments Absent {A}.
Arguments Undefined {A}.
Arguments Given {A} value.

Module PartialPolicy.
(** [Partial<ActionPolicy>] *)
Record t := mk {
  id : Property string;
  rules : Property (list Rule.t);
  failMode : Property FailMode
}.
End PartialPolicy.

Module RawPolicy.
(** An [ActionPolicy] as it exists at run time: the spread of an override
    can leave [rules] or [failMode] undefined. *)
Record t := mk {
  id : string;
  rules : option (list Rule.t);
  failMode : option FailMode
}.
End RawPolicy.

(** What [{ ...existing, ...override }] leaves in one property: an own
    property of the override wins, whatever its value. *)
Definition spread {A : Type} (existing : option A) (override : Property A)
  : option A :=
  match override with
  | Absent => existing
  | Undefined => None
  | Given value => Some value
  end.

(** [value ?? fallback] *)
Definition nullish {A : Type} (value : Property A) (fallback : A) : A :=
  match value with
  | Given v => v
  | _ => fallback
  end.

(** A policy of [defaultPolicies] as a run-time object. *)
Definition rawPolicy (policy : Policy.t) : RawPolicy.t :=
  RawPolicy.mk (Policy.id policy) (Some (Policy.rules policy))
    (Some (Policy.failMode policy)).

(** The body of the loop of [customizePolicies], for one entry of
    [overrides]; an entry whose value is [undefined] is [None].  Properties
    of an override other than [id], [rules] and [failMode] are left out. *)
Definition applyOverride (result : gmap string RawPolicy.t)
    (entry : string * option PartialPolicy.t) : gmap string RawPolicy.t :=
  let actionId := fst entry in
  match result !! actionId, snd entry with
  | Some existing, Some override =>
      <[actionId :=
          RawPolicy.mk actionId
            (spread (RawPolicy.rules existing) (PartialPolicy.rules override))
            (spread (RawPolicy.failMode existing)
               (PartialPolicy.failMode override))]> result
  | None, Some override =>
      <[actionId :=
          RawPolicy.mk actionId
            (Some (nullish (PartialPolicy.rules override) []))
            (Some (nullish (PartialPolicy.failMode override) closed))]> result
  | _, None => result
  end.

(** [Object.entries(overrides)] lists each key once; the order does not
    matter, as the properties below show. *)
Definition customizePolicies
    (overrides : gmap string (option PartialPolicy.t))
  : gmap string RawPolicy.t :=
  foldl applyOverride (rawPolicy <$> defaultPolicies) (map_to_list overrides).

(** Every policy is stored under its own id. *)
Definition idsMatchKeys (policies : gmap string Policy.t) : Prop :=
  forall actionId policy,
    policies !! actionId = Some policy -> Policy.id policy = actionId.

(** The policy a run-time object is, when its [rules] and [failMode] are
    defined. *)
Definition properPolicy (raw : RawPolicy.t) : option Policy.t :=
  match RawPolicy.rules raw, RawPolicy.failMode raw with
  | Some rules, Some failMode => Some (Policy.mk (RawPolicy.id raw) rules failMode)
  | _, _ => None
  end.

(** No override sets [rules] or [failMode] to [undefined]. *)
Definition noUndefined (overrides : gmap string (option PartialPolicy.t))
  : Prop :=
  forall actionId override,
    overrides !! actionId = Some (Some override) ->
    PartialPolicy.rules override <> Undefined
    /\ PartialPolicy.failMode override <> Undefined.

(** ** utils/hash.ts *)

Section Hash.
(** [identifier.toLowerCase().trim()] and the hexadecimal HMAC-SHA256
    digest of Node's [crypto] module are taken as given. *)
Variable normalize : string -> string.
Variable hmacSha256Hex : string -> string -> string.

Definition hashIdentifier (identifier secret : string) : result string :=
  if negb (truthy identifier) then Throw "Identifier cannot be empty"
  else if negb (truthy secret) then Throw "Secret cannot be empty"
  else Ok (hmacSha256Hex secret (normalize identifier)).

(** The loop [result |= hash1.charCodeAt(i) ^ hash2.charCodeAt(i)] over two
    strings of the same length. *)
Fixpoint xorAccumulate (acc : N) (hash1 hash2 : string) : N :=
  match hash1, hash2 with
  | String a rest1, String b rest2 =>
      xorAccumulate (N.lor acc (N.lxor (N_of_ascii a) (N_of_ascii b)))
        rest1 rest2
  | _, _ => acc
  end.

Definition hashesMatch (identifier1 identifier2 secret : string)
  : result bool :=
  match hashIdentifier identifier1 secret with
  | Throw message => Throw message
  | Ok hash1 =>
      match hashIdentifier identifier2 secret with
      | Throw message => Throw message
      | Ok hash2 =>
          if negb (String.length hash1 =? String.length hash2)%nat
          then Ok false
          else Ok (N.eqb (xorAccumulate 0 hash1 hash2) 0)
      end
  end.
End Hash.

(** * Properties *)

(** ** Comparisons on numbers *)

Lemma leq_true (a b : Q) : leq a b = true <-> a <= b.
Proof. unfold leq. apply Qle_bool_iff. Qed.

Lemma leq_false (a b : Q) : leq a b = false <-> b < a.
Proof.
  unfold leq. split; intros H.
  - apply Qnot_le_lt. intros Hle. apply Qle_bool_iff in Hle. congruence.
  - destruct (Qle_bool a b) eqn:E; [|reflexivity].
    apply Qle_bool_iff in E. exfalso. apply (Qlt_not_le _ _ H E).
Qed.

Lemma geq_true (a b : Q) : geq a b = true <-> b <= a.
Proof. apply leq_true. Qed.

Lemma geq_false (a b : Q) : geq a b = false <-> a < b.
Proof. apply leq_false. Qed.

Lemma Math_min_Qmin (a b : Q) : Math_min a b == Qmin a b.
Proof.
  unfold Math_min. destruct (Qle_bool a b) eqn:E.
  - apply Qle_bool_iff in E. symmetry. apply Q.min_l, E.
  - apply (leq_false a b) in E. symmetry. apply Q.min_r. apply Qlt_le_weak, E.
Qed.

Lemma Math_max_cases (a b : Q) :
  (Math_max a b = a /\ b <= a) \/ (Math_max a b = b /\ a <= b).
Proof.
  unfold Math_max. destruct (Qle_bool a b) eqn:E.
  - right. split; [reflexivity|]. apply Qle_bool_iff, E.
  - left. split; [reflexivity|]. apply Qlt_le_weak, (leq_false a b), E.
Qed.

(** ** Token bucket *)

Section TokenBucket.
Variables (state : State.t) (config : Config.t).

Lemma calculateRefillTokens_nonneg (elapsedMs : Q) :
  0 <= Config.refillTokens config ->
  0 <= calculateRefillTokens elapsedMs config.
Proof.
  intros Hr. unfold calculateRefillTokens.
  destruct (leq elapsedMs 0) eqn:He; simpl; [apply Qle_refl|].
  destruct (leq (Config.refillIntervalMs config) 0) eqn:Hi; [apply Qle_refl|].
  apply leq_false in He, Hi.
  apply Qmult_le_0_compat; [|exact Hr].
  apply Qlt_le_weak. apply Qlt_shift_div_l; [exact Hi|].
  rewrite Qmult_0_l. exact He.
Qed.

Lemma refillBucket_no_elapsed (now : Q) :
  now - State.lastRefillTime state <= 0 -> refillBucket state config now = state.
Proof. intros H. unfold refillBucket. apply leq_true in H. now rewrite H. Qed.

Lemma refillBucket_elapsed (now : Q) :
  0 < now - State.lastRefillTime state ->
  refillBucket state config now =
    State.mk
      (Math_min (Config.capacity config)
         (State.tokens state
          + calculateRefillTokens (now - State.lastRefillTime state) config))
      now (State.createdAt state) (State.expiresAt state).
Proof. intros H. unfold refillBucket. apply leq_false in H. now rewrite H. Qed.

Lemma consumeTokens_expiry (cost now ttlMs : Q) :
  State.expiresAt (Consume.bucketState (consumeTokens state config cost now ttlMs))
  = now + ttlMs.
Proof. unfold consumeTokens. destruct (geq _ cost); reflexivity. Qed.

Lemma calculateRetryAfterMs_nonneg (needed : Q) :
  0 <= calculateRetryAfterMs needed config.
Proof.
  unfold calculateRetryAfterMs.
  destruct (leq needed 0) eqn:Hn; [apply Qle_refl|].
  destruct (leq (Config.refillTokens config) 0) eqn:Hr; simpl; [discriminate|].
  destruct (leq (Config.refillIntervalMs config) 0) eqn:Hi; [discriminate|].
  apply leq_false in Hn, Hr, Hi.
  unfold Math_ceil. eapply Qle_trans; [|apply Qle_ceiling].
  apply Qmult_le_0_compat; [|apply Qlt_le_weak, Hi].
  apply Qlt_le_weak, Qlt_shift_div_l; [exact Hr|]. now rewrite Qmult_0_l.
Qed.
End TokenBucket.

Section DoubleFacts.
Import PrimFloat.
Local Open Scope float_scope.

Lemma ltb_irrefl (a : float) : ltb a a = false.
Proof.
  rewrite FloatAxioms.ltb_spec. generalize (FloatOps.Prim2SF a). intros f.
  unfold SpecFloat.SFltb.
  destruct f as [s|s| |s m e]; simpl; try reflexivity.
  - now destruct s.
  - rewrite Z.compare_refl.
    change (PosDef.Pos.compare_cont Eq m m) with (Pos.compare m m).
    rewrite Pos.compare_refl. now destruct s.
Qed.

Lemma ltb_nan_r (a : float) : ltb a nan = false.
Proof.
  rewrite FloatAxioms.ltb_spec.
  change (FloatOps.Prim2SF nan) with SpecFloat.S754_nan.
  unfold SpecFloat.SFltb. now destruct (FloatOps.Prim2SF a).
Qed.

(** [Math.min] never returns a number above its first argument. *)
Lemma Math_min_not_above (a b : float) : ltb a (Double.Math_min a b) = false.
Proof.
  unfold Double.Math_min.
  destruct (is_nan a || is_nan b); [apply ltb_nan_r|].
  destruct (ltb a b) eqn:Hab; [apply ltb_irrefl|].
  destruct (ltb b a); [exact Hab|].
  destruct (get_sign a); [apply ltb_irrefl | exact Hab].
Qed.

(** C4, counterexamples to the unconditional reading and to the exact
    formula.  In exact arithmetic already, a negative refill amount drains
    the bucket as time passes; a state above capacity is returned as it is
    when no time has elapsed; and for a negative refill interval nothing is
    added, where the stated formula would subtract.  In binary64, a bucket
    of 0.1 tokens refilled with one token per 10 ms after 2 ms holds
    0.30000000000000004 tokens, which is neither 3/10 nor the value of the
    stated formula on the stored 0.1. *)
Lemma refillBucket_unrestricted_fails :
  (State.tokens (refillBucket (State.mk 10 0 0 0) (Config.mk 10 (-5) 1000) 1000)
     < State.tokens (State.mk 10 0 0 0)
   /\ Config.capacity (Config.mk 10 5 1000)
        < State.tokens (refillBucket (State.mk 20 0 0 0) (Config.mk 10 5 1000) 0)
   /\ ~ State.tokens (refillBucket (State.mk 5 0 0 0) (Config.mk 10 5 (-1000)) 1000)
        == Qmin 10 (5 + (1000 - 0) / (-1000) * 5))%Q
  /\ (let tenth := 0x1.999999999999ap-4 in
      let tokens' :=
        Double.State.tokens
          (Double.refillBucket (Double.State.mk tenth 1 0 0)
             (Double.Config.mk 10 1 10) 3) in
      tokens' = 0x1.3333333333334p-2
      /\ Double.represents tenth (3602879701896397 # 36028797018963968)
      /\ Double.represents tokens' (1351079888211149 # 4503599627370496)
      /\ ~ ((1351079888211149 # 4503599627370496)
            == (3602879701896397 # 36028797018963968) + (3 - 1) / 10 * 1)%Q
      /\ ~ ((1351079888211149 # 4503599627370496) == 3 / 10)%Q).
Proof.
  split.
  - vm_compute. repeat split; discriminate.
  - cbv zeta. split; [vm_compute; reflexivity|].
    split; [eexists; split; vm_compute; reflexivity|].
    split; [eexists; split; vm_compute; reflexivity|].
    split; vm_compute; discriminate.
Qed.

(** C4 (amended).  In binary64, as the code computes: when
    [now - lastRefillTime <= 0] holds, [refillBucket] returns the state
    unchanged; when it does not, [lastRefillTime] becomes [now], the dates
    are kept and the tokens become Math.min(capacity, tokens + added), where
    [added] is 0 for a refill interval <= 0 and
    (elapsed / refillIntervalMs) * refillTokens otherwise, each operation
    rounded; and a token count that is not above capacity stays not above
    capacity.  In exact arithmetic: for a state within capacity and a refill
    amount that is not negative, the tokens do not decrease and stay within
    capacity. *)
Theorem refillBucket_spec
    (state : Double.State.t) (config : Double.Config.t) (now : float)
    (state0 : State.t) (config0 : Config.t) (now0 : Q) :
  let elapsed := now - Double.State.lastRefillTime state in
  let added :=
    if Double.leq (Double.Config.refillIntervalMs config) 0 then 0
    else elapsed / Double.Config.refillIntervalMs config
         * Double.Config.refillTokens config in
  let state' := Double.refillBucket state config now in
  (Double.leq elapsed 0 = true -> state' = state)
  /\ (Double.leq elapsed 0 = false ->
      Double.State.lastRefillTime state' = now
      /\ Double.State.createdAt state' = Double.State.createdAt state
      /\ Double.State.expiresAt state' = Double.State.expiresAt state
      /\ Double.State.tokens state'
         = Double.Math_min (Double.Config.capacity config)
             (Double.State.tokens state + added))
  /\ (ltb (Double.Config.capacity config) (Double.State.tokens state) = false ->
      ltb (Double.Config.capacity config) (Double.State.tokens state') = false)
  /\ ((State.tokens state0 <= Config.capacity config0)%Q ->
      (0 <= Config.refillTokens config0)%Q ->
      (State.tokens state0 <= State.tokens (refillBucket state0 config0 now0))%Q
      /\ (State.tokens (refillBucket state0 config0 now0)
          <= Config.capacity config0)%Q).
Proof.
  intros elapsed added state'.
  split; [|split; [|split]].
  - intros H. unfold state', Double.refillBucket. fold elapsed. now rewrite H.
  - intros H. unfold state', Double.refillBucket, Double.calculateRefillTokens.
    fold elapsed. rewrite H. simpl. repeat split; reflexivity.
  - intros Hcap. unfold state', Double.refillBucket. fold elapsed.
    destruct (Double.leq elapsed 0); [exact Hcap|]. simpl.
    apply Math_min_not_above.
  - intros Hcap Hrefill.
    destruct (Qlt_le_dec 0 (now0 - State.lastRefillTime state0)) as [Hpos | Hneg].
    + rewrite (refillBucket_elapsed state0 config0 now0 Hpos). simpl.
      pose proof (calculateRefillTokens_nonneg config0
                    (now0 - State.lastRefillTime state0) Hrefill) as Hadd.
      rewrite Math_min_Qmin. split; [|apply Q.le_min_l].
      apply Q.min_glb; [exact Hcap|]. lra.
    + rewrite (refillBucket_no_elapsed state0 config0 now0 Hneg).
      split; [apply Qle_refl | exact Hcap].
Qed.

(** The amended C4 at the bucket of the test suite: 3 tokens of 10, one
    refill interval later, hold 8 tokens. *)
Lemma refillBucket_spec_witness :
  let state := Double.State.mk 3 1000000 999000 1005000 in
  let config := Double.Config.mk 10 5 1000 in
  let state' := Double.refillBucket state config 1001000 in
  Double.leq (1001000 - Double.State.lastRefillTime state) 0 = false
  /\ ltb (Double.Config.capacity config) (Double.State.tokens state) = false
  /\ Double.State.lastRefillTime state' = 1001000
  /\ Double.State.tokens state' = 8
  /\ ltb (Double.Config.capacity config) (Double.State.tokens state') = false.
Proof.
  intros state config state'.
  assert (Helapsed : Double.leq (1001000 - Double.State.lastRefillTime state) 0
                     = false) by (vm_compute; reflexivity).
  assert (Hcap : ltb (Double.Config.capacity config) (Double.State.tokens state)
                 = false) by (vm_compute; reflexivity).
  destruct (refillBucket_spec state config 1001000 (State.mk 3 0 0 0)
              (Config.mk 10 5 1000) 0%Q) as (_ & Hgrow & Hbound & _).
  destruct (Hgrow Helapsed) as (Hlast & _ & _ & Htokens).
  split; [exact Helapsed|]. split; [exact Hcap|]. split; [exact Hlast|].
  split; [|exact (Hbound Hcap)].
  etransitivity; [exact Htokens | vm_compute; reflexivity].
Defined.

(** C2, counterexample.  The arithmetic is binary64, not exact.  A request
    for 25 tokens on an empty bucket refilled with 3 tokens per 60000 ms is
    told to retry after 500001 ms, where
    ceil((25 - 0) / 3 * 60000) = 500000: the quotient 25 / 3 is rounded up
    before it is multiplied.  And a request for 0.1 tokens (the float
    nearest to it) on a bucket of one token leaves the float 0.9, which is
    not the exact difference of the two operands. *)
Lemma consumeTokens_is_not_exact :
  let denied :=
    Double.consumeTokens (Double.State.mk 0 0 0 0)
      (Double.Config.mk 30 3 60000) 25 0 120000 in
  let tenth := 0x1.999999999999ap-4 in
  let paid :=
    Double.consumeTokens (Double.State.mk 1 0 0 0)
      (Double.Config.mk 1 1 1000) tenth 0 2000 in
  Double.Consume.allowed denied = false
  /\ Double.Consume.retryAfterMs denied = 500001
  /\ Double.represents (Double.Consume.retryAfterMs denied) 500001
  /\ (inject_Z (Qceiling ((25 - 0) / 3 * 60000)) == 500000)%Q
  /\ Double.Consume.allowed paid = true
  /\ Double.represents tenth (3602879701896397 # 36028797018963968)
  /\ Double.represents (Double.Consume.remainingTokens paid)
       (8106479329266893 # 9007199254740992)
  /\ ~ ((8106479329266893 # 9007199254740992)
        == 1 - (3602879701896397 # 36028797018963968))%Q.
Proof.
  cbv zeta. split; [vm_compute; reflexivity|].
  split; [vm_compute; reflexivity|].
  split; [eexists; split; vm_compute; reflexivity|].
  split; [vm_compute; reflexivity|].
  split; [vm_compute; reflexivity|].
  split; [eexists; split; vm_compute; reflexivity|].
  split; [eexists; split; vm_compute; reflexivity|].
  vm_compute. discriminate.
Qed.

(** C2 (amended).  In binary64, as the code computes: [consumeTokens]
    refills first and allows exactly when the refilled tokens are >= the
    cost.  On success the new count is the refilled count minus the cost,
    rounded, and [retryAfterMs] is 0.  On denial the tokens stay at the
    refilled count and [retryAfterMs] is what [calculateRetryAfterMs] gives
    for needed = cost - tokens: 0 if needed <= 0, else [MAX_SAFE_INTEGER] if
    [refillTokens] or [refillIntervalMs] is <= 0, else
    Math.ceil((needed / refillTokens) * refillIntervalMs), each operation
    rounded.  In both cases [expiresAt] is [now + ttlMs] and the other
    fields are those of the refilled state. *)
Theorem consumeTokens_spec (state : Double.State.t) (config : Double.Config.t)
    (cost now ttlMs : float) :
  let refilled := Double.refillBucket state config now in
  let r := Double.consumeTokens state config cost now ttlMs in
  let needed := cost - Double.State.tokens refilled in
  (Double.Consume.allowed r = true
   <-> Double.geq (Double.State.tokens refilled) cost = true)
  /\ (Double.Consume.allowed r = true ->
      Double.State.tokens (Double.Consume.bucketState r)
      = Double.State.tokens refilled - cost
      /\ Double.Consume.remainingTokens r = Double.State.tokens refilled - cost
      /\ Double.Consume.retryAfterMs r = 0)
  /\ (Double.Consume.allowed r = false ->
      Double.State.tokens (Double.Consume.bucketState r)
      = Double.State.tokens refilled
      /\ Double.Consume.remainingTokens r = Double.State.tokens refilled
      /\ Double.Consume.retryAfterMs r
         = if Double.leq needed 0 then 0
           else if Double.leq (Double.Config.refillTokens config) 0
                   || Double.leq (Double.Config.refillIntervalMs config) 0
           then Double.MAX_SAFE_INTEGER
           else Double.Math_ceil
                  (needed / Double.Config.refillTokens config
                   * Double.Config.refillIntervalMs config))
  /\ Double.State.lastRefillTime (Double.Consume.bucketState r)
     = Double.State.lastRefillTime refilled
  /\ Double.State.createdAt (Double.Consume.bucketState r)
     = Double.State.createdAt refilled
  /\ Double.State.expiresAt (Double.Consume.bucketState r) = now + ttlMs.
Proof.
  intros refilled r needed. subst r. unfold Double.consumeTokens. fold refilled.
  destruct (Double.geq (Double.State.tokens refilled) cost) eqn:E; simpl.
  - repeat split; auto; discriminate.
  - repeat split; auto; discriminate.
Qed.

(** The amended C2 at scenario A of the specification: the eleventh request
    at t = 0 is denied and told to retry after 200 ms. *)
Lemma consumeTokens_spec_witness :
  let r :=
    Double.consumeTokens (Double.State.mk 0 0 0 4000)
      (Double.Config.mk 10 5 1000) 1 0 4000 in
  Double.Consume.allowed r = false
  /\ Double.State.tokens (Double.Consume.bucketState r) = 0
  /\ Double.Consume.retryAfterMs r = 200
  /\ Double.State.expiresAt (Double.Consume.bucketState r) = 4000.
Proof.
  intros r.
  destruct (consumeTokens_spec (Double.State.mk 0 0 0 4000)
              (Double.Config.mk 10 5 1000) 1 0 4000)
    as (_ & _ & Hdenied & _ & _ & Hexp).
  assert (Hr : Double.Consume.allowed r = false) by (vm_compute; reflexivity).
  destruct (Hdenied Hr) as (Htok & _ & Hretry).
  split; [exact Hr|].
  split; [etransitivity; [exact Htok | vm_compute; reflexivity]|].
  split; [etransitivity; [exact Hretry | vm_compute; reflexivity]|].
  etransitivity; [exact Hexp | vm_compute; reflexivity].
Defined.
End DoubleFacts.

(** ** Decision combiner *)

Section Combine.
Implicit Types (acc : Scan.t) (rs : list RuleResult.t) (r : RuleResult.t).

Lemma scan_hasBlock rs : forall acc,
  Scan.hasBlock (foldl scanResult acc rs) = true
  <-> Scan.hasBlock acc = true \/ blockedIn rs.
Proof.
  induction rs as [|r rs IH]; intros acc; simpl.
  - split; [auto|]. intros [H | (r & Hin & _)]; [exact H|]. inversion Hin.
  - rewrite IH. unfold blockedIn, scanResult. split.
    + intros [H | (x & Hin & Hx)].
      * destruct (RuleResult.outcome r) eqn:E; simpl in H; auto.
        right. exists r. split; [constructor | exact E].
      * right. exists x. split; [now constructor | exact Hx].
    + intros [H | (x & Hin & Hx)].
      * left. destruct (RuleResult.outcome r); simpl; auto.
      * apply elem_of_cons in Hin as [-> | Hin].
        -- left. rewrite Hx. reflexivity.
        -- right. exists x. auto.
Qed.

Lemma scan_hasChallenge rs : forall acc,
  Scan.hasChallenge (foldl scanResult acc rs) = true
  <-> Scan.hasChallenge acc = true \/ challengeIn rs.
Proof.
  induction rs as [|r rs IH]; intros acc; simpl.
  - split; [auto|]. intros [H | (r & Hin & _)]; [exact H|]. inversion Hin.
  - rewrite IH. unfold challengeIn, scanResult. split.
    + intros [H | (x & Hin & Hx)].
      * destruct (RuleResult.outcome r) eqn:E; simpl in H; auto.
        right. exists r. split; [constructor | exact E].
      * right. exists x. split; [now constructor | exact Hx].
    + intros [H | (x & Hin & Hx)].
      * left. destruct (RuleResult.outcome r); simpl; auto.
      * apply elem_of_cons in Hin as [-> | Hin].
        -- left. rewrite Hx. reflexivity.
        -- right. exists x. auto.
Qed.

(** The running maximum dominates its start value and every BLOCKED
    result, and is one of them. *)
Lemma scan_maxRetry rs : forall acc,
  let m := Scan.maxRetryAfterMs (foldl scanResult acc rs) in
  Scan.maxRetryAfterMs acc <= m
  /\ (forall r, r ∈ rs -> RuleResult.outcome r = BLOCKED ->
      RuleResult.retryAfterMs r <= m)
  /\ (m = Scan.maxRetryAfterMs acc
      \/ exists r, r ∈ rs /\ RuleResult.outcome r = BLOCKED
                   /\ m = RuleResult.retryAfterMs r).
Proof.
  induction rs as [|r rs IH]; intros acc; simpl.
  - split; [apply Qle_refl|]. split; [|now left].
    intros r Hin. inversion Hin.
  - destruct (IH (scanResult acc r)) as (Hge & Hub & Hatt).
    assert (Hstep :
      (RuleResult.outcome r <> BLOCKED
       /\ Scan.maxRetryAfterMs (scanResult acc r) = Scan.maxRetryAfterMs acc)
      \/ (RuleResult.outcome r = BLOCKED
          /\ Scan.maxRetryAfterMs (scanResult acc r)
             = Math_max (Scan.maxRetryAfterMs acc) (RuleResult.retryAfterMs r))).
    { unfold scanResult. destruct (RuleResult.outcome r); simpl;
        [left | right | left]; split; congruence. }
    destruct Hstep as [(Hnb & Heq) | (Hb & Heq)].
    + rewrite Heq in Hge, Hatt. split; [exact Hge|]. split.
      * intros x Hin Hx. apply elem_of_cons in Hin as [-> | Hin];
          [contradiction | now apply Hub].
      * destruct Hatt as [-> | (x & Hin & Hx & ->)]; [now left|].
        right. exists x. split; [now constructor | auto].
    + rewrite Heq in Hge, Hatt.
      destruct (Math_max_cases (Scan.maxRetryAfterMs acc)
                  (RuleResult.retryAfterMs r)) as [(Em & Hle) | (Em & Hle)];
        rewrite Em in Hge, Hatt.
      * split; [exact Hge|]. split.
        -- intros x Hin Hx. apply elem_of_cons in Hin as [-> | Hin];
             [eapply Qle_trans; eauto | now apply Hub].
        -- destruct Hatt as [-> | (x & Hin & Hx & ->)]; [now left|].
           right. exists x. split; [now constructor | auto].
      * split; [eapply Qle_trans; eauto|]. split.
        -- intros x Hin Hx. apply elem_of_cons in Hin as [-> | Hin];
             [exact Hge | now apply Hub].
        -- right. destruct Hatt as [-> | (x & Hin & Hx & ->)].
           ++ exists r. split; [constructor | auto].
           ++ exists x. split; [now constructor | auto].
Qed.

Lemma scan_maxRetry_unblocked rs : forall acc,
  ~ blockedIn rs ->
  Scan.maxRetryAfterMs (foldl scanResult acc rs) = Scan.maxRetryAfterMs acc.
Proof.
  intros acc Hnb.
  destruct (scan_maxRetry rs acc) as (_ & _ & [H | (r & Hin & Hb & _)]);
    [exact H|].
  exfalso. apply Hnb. exists r. auto.
Qed.

Lemma nonEmptyHint_orElse (a b : option string) :
  nonEmptyHint (orElse a b) =
    match nonEmptyHint a with Some h => Some h | None => nonEmptyHint b end.
Proof.
  destruct a as [s|]; simpl; [|reflexivity].
  destruct (truthy s) eqn:E; simpl; [now rewrite E | reflexivity].
Qed.

Lemma scan_challengeHint rs : forall acc,
  nonEmptyHint (Scan.challengeHint (foldl scanResult acc rs)) =
    match nonEmptyHint (Scan.challengeHint acc) with
    | Some h => Some h
    | None => firstChallengeHint rs
    end.
Proof.
  induction rs as [|r rs IH]; intros acc; simpl.
  - now destruct (nonEmptyHint (Scan.challengeHint acc)).
  - rewrite IH. unfold scanResult.
    destruct (RuleResult.outcome r); simpl; rewrite ?nonEmptyHint_orElse;
      destruct (nonEmptyHint (Scan.challengeHint acc));
      destruct (nonEmptyHint (RuleResult.challenge r)); reflexivity.
Qed.
End Combine.

Lemma combineRuleResults_scan (action : string) (rs : list RuleResult.t)
    (keys : gmap string string) :
  combineRuleResults action rs keys =
    let acc := foldl scanResult scanStart rs in
    Decision.mk (negb (Scan.hasBlock acc)) action
      (if Scan.hasBlock acc then BLOCKED
       else if Scan.hasChallenge acc then CHALLENGE else ALLOWED)
      (Scan.maxRetryAfterMs acc) rs keys
      (nonEmptyHint (Scan.challengeHint acc)) None.
Proof. destruct rs; reflexivity. Qed.

(** C1, counterexample.  A single BLOCKED result with a negative
    [retryAfterMs] is its own maximum, yet the decision reports 0, the start
    value of the running maximum.  And a hint carried by a result that is not
    a CHALLENGE is passed over, even when it comes first in the list. *)
Lemma combineRuleResults_max_starts_at_zero :
  let r := RuleResult.mk "per_ip" "login:per_ip:ip=1" false BLOCKED (-5) 0 None in
  let a := RuleResult.mk "a" "login:a:ip=1" true ALLOWED 0 1 (Some "first"%string) in
  let c := RuleResult.mk "c" "login:c:ip=1" false CHALLENGE 7 0 (Some "second"%string) in
  Decision.outcome (combineRuleResults "login" [r] ∅) = BLOCKED
  /\ Decision.retryAfterMs (combineRuleResults "login" [r] ∅) == 0
  /\ ~ Decision.retryAfterMs (combineRuleResults "login" [r] ∅)
       == RuleResult.retryAfterMs r
  /\ Decision.challenge (combineRuleResults "login" [a; c] ∅) = Some "second"%string.
Proof.
  simpl. split; [reflexivity|]. split; [reflexivity|]. split; [|reflexivity].
  intros H. discriminate H.
Qed.

(** C1 (amended).  [combineRuleResults] keeps the action, the results and
    the keys.  An empty list gives ALLOWED, allowed, retry 0.  If some result
    is BLOCKED the decision is BLOCKED and not allowed, and its
    [retryAfterMs] is the maximum of 0 and the [retryAfterMs] of the BLOCKED
    results: an upper bound of them, non-negative, and either 0 or attained
    by one of them.  Otherwise, if some result is CHALLENGE the decision is
    CHALLENGE, allowed, with retry 0 and with [challenge] the first non-empty
    hint among the CHALLENGE results.  Otherwise it is ALLOWED, allowed, with
    retry 0. *)
Theorem combineRuleResults_spec (action : string) (rs : list RuleResult.t)
    (keys : gmap string string) :
  let d := combineRuleResults action rs keys in
  Decision.action d = action
  /\ Decision.ruleResults d = rs
  /\ Decision.keys d = keys
  /\ Decision.failedDueToError d = None
  /\ (rs = [] ->
      Decision.outcome d = ALLOWED /\ Decision.allowed d = true
      /\ Decision.retryAfterMs d = 0)
  /\ (blockedIn rs ->
      Decision.outcome d = BLOCKED /\ Decision.allowed d = false
      /\ (forall r, r ∈ rs -> RuleResult.outcome r = BLOCKED ->
          RuleResult.retryAfterMs r <= Decision.retryAfterMs d)
      /\ 0 <= Decision.retryAfterMs d
      /\ (Decision.retryAfterMs d = 0
          \/ exists r, r ∈ rs /\ RuleResult.outcome r = BLOCKED
                       /\ Decision.retryAfterMs d = RuleResult.retryAfterMs r))
  /\ (~ blockedIn rs -> challengeIn rs ->
      Decision.outcome d = CHALLENGE /\ Decision.allowed d = true
      /\ Decision.retryAfterMs d = 0
      /\ Decision.challenge d = firstChallengeHint rs)
  /\ (~ blockedIn rs -> ~ challengeIn rs ->
      Decision.outcome d = ALLOWED /\ Decision.allowed d = true
      /\ Decision.retryAfterMs d = 0).
Proof.
  intros d. subst d. rewrite combineRuleResults_scan.
  set (acc := foldl scanResult scanStart rs). simpl.
  pose proof (scan_hasBlock rs scanStart) as Hb.
  pose proof (scan_hasChallenge rs scanStart) as Hc.
  pose proof (scan_maxRetry rs scanStart) as (Hge & Hub & Hatt).
  pose proof (scan_challengeHint rs scanStart) as Hh.
  fold acc in Hb, Hc, Hge, Hub, Hatt, Hh. simpl in Hb, Hc, Hge, Hatt, Hh.
  assert (Hunblocked : ~ blockedIn rs -> Scan.hasBlock acc = false
                       /\ Scan.maxRetryAfterMs acc = 0).
  { intros Hnb. split.
    - destruct (Scan.hasBlock acc) eqn:E; [|reflexivity].
      exfalso. apply Hnb. destruct Hb as [Hb _].
      destruct (Hb eq_refl) as [? | ?]; [discriminate | assumption].
    - apply (scan_maxRetry_unblocked rs scanStart Hnb). }
  split; [reflexivity|]. split; [reflexivity|]. split; [reflexivity|].
  split; [reflexivity|]. split; [|split; [|split]].
  - intros ->. subst acc. simpl. auto.
  - intros Hblocked.
    assert (E : Scan.hasBlock acc = true) by (apply Hb; now right).
    rewrite E. simpl. split; [reflexivity|]. split; [reflexivity|].
    split; [exact Hub|]. split; [exact Hge|]. exact Hatt.
  - intros Hnb Hch. destruct (Hunblocked Hnb) as [E Em]. rewrite E, Em.
    assert (E' : Scan.hasChallenge acc = true) by (apply Hc; now right).
    rewrite E'. simpl. split; [reflexivity|]. split; [reflexivity|].
    split; [reflexivity|]. exact Hh.
  - intros Hnb Hnc. destruct (Hunblocked Hnb) as [E Em]. rewrite E, Em.
    assert (E' : Scan.hasChallenge acc = false).
    { destruct (Scan.hasChallenge acc) eqn:E'; [|reflexivity].
      exfalso. apply Hnc. destruct Hc as [Hc _].
      destruct (Hc eq_refl) as [? | ?]; [discriminate | assumption]. }
    rewrite E'. simpl. auto.
Qed.

(** The amended C1 at scenario C of the specification: the per-IP rule
    still allows, the per-email rule blocks. *)
Lemma combineRuleResults_spec_witness :
  let perIp := RuleResult.mk "per_ip" "reset:per_ip:ip=1" true ALLOWED 0 6 None in
  let perEmail :=
    RuleResult.mk "per_email" "reset:per_email:emailHash=ab" false BLOCKED
      20000 0 None in
  let d := combineRuleResults "reset" [perIp; perEmail] ∅ in
  blockedIn [perIp; perEmail]
  /\ Decision.outcome d = BLOCKED
  /\ Decision.allowed d = false
  /\ RuleResult.retryAfterMs perEmail <= Decision.retryAfterMs d.
Proof.
  intros perIp perEmail d.
  assert (Hin : perEmail ∈ [perIp; perEmail]) by (right; left).
  assert (Hblocked : blockedIn [perIp; perEmail]).
  { exists perEmail. split; [exact Hin | reflexivity]. }
  destruct (combineRuleResults_spec "reset" [perIp; perEmail] ∅)
    as (_ & _ & _ & _ & _ & Hcase & _).
  destruct (Hcase Hblocked) as (Houtcome & Hallowed & Hbound & _).
  split; [exact Hblocked|]. split; [exact Houtcome|]. split; [exact Hallowed|].
  exact (Hbound perEmail Hin eq_refl).
Defined.

(** ** Key builder *)

Section Strings.
Implicit Types (s t : string) (c : ascii).

Lemma append_length s t :
  String.length (s +:+ t) = (String.length s + String.length t)%nat.
Proof. induction s as [|a s IH]; simpl; [reflexivity | now rewrite IH]. Qed.

Lemma noChar_append c s t :
  noChar c (s +:+ t) = noChar c s && noChar c t.
Proof.
  induction s as [|a s IH]; simpl; [reflexivity|].
  rewrite IH. now rewrite andb_assoc.
Qed.

Lemma truthy_append_cons s c t : truthy (s +:+ String c t) = true.
Proof. now destruct s. Qed.

Lemma split_noChar c s : noChar c s = true -> split c s = [s].
Proof.
  induction s as [|a s IH]; simpl; [reflexivity|].
  intros [Ha Hs]%andb_true_iff. apply negb_true_iff in Ha.
  rewrite Ha, (IH Hs). reflexivity.
Qed.

Lemma split_append c s t :
  noChar c s = true -> split c (s +:+ String c t) = s :: split c t.
Proof.
  induction s as [|a s IH]; simpl.
  - intros _. now rewrite Ascii.eqb_refl.
  - intros [Ha Hs]%andb_true_iff. apply negb_true_iff in Ha.
    rewrite Ha, (IH Hs). reflexivity.
Qed.

Lemma split_join c (parts : list string) :
  parts <> [] -> forallb (noChar c) parts = true ->
  split c (join c parts) = parts.
Proof.
  induction parts as [|p rest IH]; [congruence|]. intros _.
  simpl forallb. intros [Hp Hrest]%andb_true_iff.
  destruct rest as [|q rest'].
  - simpl. now apply split_noChar.
  - change (join c (p :: q :: rest')) with (p +:+ String c (join c (q :: rest'))).
    rewrite (split_append c p _ Hp). f_equal. now apply IH.
Qed.

Lemma indexOf_append c s t :
  noChar c s = true ->
  indexOf c (s +:+ String c t) = Z.of_nat (String.length s).
Proof.
  induction s as [|a s IH]; simpl.
  - intros _. now rewrite Ascii.eqb_refl.
  - intros [Ha Hs]%andb_true_iff. apply negb_true_iff in Ha.
    rewrite Ha, (IH Hs).
    destruct (Z.eqb_spec (Z.of_nat (String.length s)) (-1)); lia.
Qed.

Lemma substring_prefix s t :
  String.substring 0 (String.length s) (s +:+ t) = s.
Proof.
  induction s as [|a s IH]; simpl; [now destruct t | now rewrite IH].
Qed.

Lemma substring_whole s : String.substring 0 (String.length s) s = s.
Proof. induction s as [|a s IH]; simpl; [reflexivity | now rewrite IH]. Qed.

Lemma substring_suffix s c t (m : nat) :
  String.substring (S (String.length s)) m (s +:+ String c t)
  = String.substring 0 m t.
Proof. induction s as [|a s IH]; simpl; [reflexivity | exact IH]. Qed.

Lemma noChar_mapChars c (f : ascii -> ascii) s :
  (forall a, Ascii.eqb (f a) c = false) -> noChar c (mapChars f s) = true.
Proof.
  intros Hf. induction s as [|a s IH]; simpl; [reflexivity|].
  now rewrite Hf, IH.
Qed.

Lemma get_mapChars (f : ascii -> ascii) s : forall i : nat,
  String.get i (mapChars f s) = f <$> String.get i s.
Proof.
  induction s as [|a s IH]; intros i; simpl; [reflexivity|].
  destruct i; simpl; [reflexivity | apply IH].
Qed.
End Strings.

Lemma sanitizeValue_noSeparator (value : string) :
  noChar KEY_SEPARATOR (sanitizeValue value) = true
  /\ noChar VALUE_SEPARATOR (sanitizeValue value) = true.
Proof.
  split; apply noChar_mapChars; intros a;
    destruct (isSeparator a) eqn:E; try reflexivity;
    unfold isSeparator in E; apply orb_false_iff in E; tauto.
Qed.

Section KeyBuilder.
Variables (extractor : KeyExtractor) (context : Ctx.t).

Local Abbreviation segmentOf := (segmentOf extractor context).

Lemma buildParts_spec (dimensions : list string) : forall parts,
  buildParts extractor context dimensions parts =
    if existsb (fun d => missingValue (extractor d context)) dimensions
    then None
    else Some (parts ++ List.map segmentOf dimensions).
Proof.
  induction dimensions as [|d ds IH]; intros parts; simpl.
  - now rewrite app_nil_r.
  - unfold missingValue at 1. destruct (extractor d context) as [v|] eqn:E;
      simpl; [|reflexivity].
    destruct (truthy v); simpl; [|reflexivity].
    rewrite IH. destruct (existsb _ ds); [reflexivity|].
    rewrite <- app_assoc. simpl. unfold segmentOf at 2. now rewrite E.
Qed.

Lemma existsb_missing (dimensions : list string) :
  existsb (fun d => missingValue (extractor d context)) dimensions = true
  <-> exists d, d ∈ dimensions
        /\ (extractor d context = None
            \/ extractor d context = Some EmptyString).
Proof.
  rewrite existsb_exists. split.
  - intros (d & Hin & Hm). exists d. split; [now apply list_elem_of_In|].
    unfold missingValue in Hm. destruct (extractor d context) as [v|]; [|now left].
    right. destruct v; [reflexivity | discriminate].
  - intros (d & Hin & Hm). exists d. split; [now apply list_elem_of_In|].
    destruct Hm as [-> | ->]; reflexivity.
Qed.

Lemma parseSegment_segment (m : gmap string string) (d v : string) :
  wellFormedDimension d = true ->
  parseSegment m (dimensionPart d v) = <[d := sanitizeValue v]> m.
Proof.
  unfold wellFormedDimension.
  intros [[Ht Hk]%andb_true_iff Hv]%andb_true_iff.
  unfold parseSegment, dimensionPart.
  rewrite truthy_append_cons. simpl negb. cbv iota.
  rewrite (indexOf_append _ _ _ Hv).
  destruct (Z.eqb_spec (Z.of_nat (String.length d)) (-1)) as [Hneg|_]; [lia|].
  unfold substring, substringFrom.
  rewrite Z.sub_0_r, Nat2Z.id. change (Z.to_nat 0) with 0%nat.
  rewrite substring_prefix, Ht.
  replace (Z.to_nat (Z.of_nat (String.length d) + 1)) with (S (String.length d)) by lia.
  rewrite substring_suffix, append_length. simpl String.length.
  replace (String.length d + S (String.length (sanitizeValue v)) - S (String.length d))%nat
    with (String.length (sanitizeValue v)) by lia.
  now rewrite substring_whole.
Qed.

Lemma foldl_parseSegment (dimensions : list string) :
  forallb wellFormedDimension dimensions = true ->
  forall (m : gmap string string) (d : string),
    foldl parseSegment m (List.map segmentOf dimensions) !! d =
      if decide (d ∈ dimensions)
      then Some (sanitizeValue (default EmptyString (extractor d context)))
      else m !! d.
Proof.
  induction dimensions as [|x ds IH]; simpl; intros Hwf m d.
  - destruct (decide (d ∈ [])) as [Hin|_]; [inversion Hin | reflexivity].
  - apply andb_true_iff in Hwf as [Hx Hds].
    unfold segmentOf at 1. rewrite (parseSegment_segment _ _ _ Hx), (IH Hds).
    destruct (decide (d ∈ ds)) as [Hin|Hnin].
    + rewrite decide_True by (now right). reflexivity.
    + destruct (decide (d = x)) as [->|Hne].
      * rewrite decide_True by (left). now rewrite lookup_insert_eq.
      * rewrite lookup_insert_ne by congruence.
        rewrite decide_False; [reflexivity|].
        intros [?|?]%elem_of_cons; contradiction.
Qed.

Lemma segmentOf_noKeySeparator (dimensions : list string) :
  forallb wellFormedDimension dimensions = true ->
  forallb (noChar KEY_SEPARATOR) (List.map segmentOf dimensions) = true.
Proof.
  induction dimensions as [|x ds IH]; simpl; [reflexivity|].
  intros [Hx Hds]%andb_true_iff. rewrite (IH Hds), andb_true_r.
  unfold wellFormedDimension in Hx.
  apply andb_true_iff in Hx as [[_ Hk]%andb_true_iff _].
  unfold segmentOf, dimensionPart. rewrite noChar_append, Hk. simpl.
  apply sanitizeValue_noSeparator.
Qed.
End KeyBuilder.

Lemma buildKey_spec (action : string) (rule : Rule.t) (context : Ctx.t)
    (extractor : KeyExtractor) :
  buildKey action rule context extractor =
    if existsb (fun d => missingValue (extractor d context)) (Rule.key rule)
    then None
    else Some (join KEY_SEPARATOR
                 (action :: Rule.name rule
                  :: List.map (segmentOf extractor context) (Rule.key rule))).
Proof.
  unfold buildKey. rewrite buildParts_spec.
  destruct (existsb _ (Rule.key rule)); reflexivity.
Qed.

(** C8.  [buildKey] returns no key exactly when some declared dimension's
    value is absent or the empty string.  Otherwise the key is the action,
    the rule name and one [dimension=value] segment per declared dimension,
    joined by [:], where the value has every [:] and [=] replaced by [_] and
    every other character kept.  When the key is well formed (action and
    rule name non-empty and free of [:], dimension names non-empty and free
    of [:] and [=]), [parseKey] recovers the action, the rule name and
    exactly the embedded dimension-to-value mapping. *)
Theorem buildKey_parseKey (action : string) (rule : Rule.t) (context : Ctx.t)
    (extractor : KeyExtractor) :
  (buildKey action rule context extractor = None
   <-> exists d, d ∈ Rule.key rule
         /\ (extractor d context = None
             \/ extractor d context = Some EmptyString))
  /\ (forall (value : string) (i : nat),
        String.get i (sanitizeValue value) =
          (fun c => if isSeparator c then "_"%char else c) <$> String.get i value)
  /\ (forall key, buildKey action rule context extractor = Some key ->
        key = join KEY_SEPARATOR
                (action :: Rule.name rule
                 :: List.map (segmentOf extractor context) (Rule.key rule))
        /\ (wellFormedKey action rule = true ->
            exists parsed,
              parseKey key = Some parsed
              /\ Parsed.action parsed = action
              /\ Parsed.ruleName parsed = Rule.name rule
              /\ forall d, Parsed.dimensions parsed !! d =
                   if decide (d ∈ Rule.key rule)
                   then sanitizeValue <$> extractor d context
                   else None)).
Proof.
  rewrite buildKey_spec.
  pose proof (existsb_missing extractor context (Rule.key rule)) as Hmiss.
  destruct (existsb _ (Rule.key rule)) eqn:E.
  - split; [|split].
    + split; [intros _; now apply Hmiss | reflexivity].
    + intros value i. apply get_mapChars.
    + discriminate.
  - split; [|split].
    + split; [discriminate|]. intros H. apply Hmiss in H. discriminate.
    + intros value i. apply get_mapChars.
    + intros key Hk.
      assert (Hkey : key = join KEY_SEPARATOR
                (action :: Rule.name rule
                 :: List.map (segmentOf extractor context) (Rule.key rule)))
        by congruence.
      clear Hk. split; [exact Hkey|]. rewrite Hkey. clear Hkey.
      unfold wellFormedKey, wellFormedName.
      intros [[[Hta Hka]%andb_true_iff [Htn Hkn]%andb_true_iff]%andb_true_iff
                Hdims]%andb_true_iff.
      unfold parseKey. rewrite split_join; [|discriminate|].
      * simpl length. simpl Nat.ltb. cbv iota. rewrite Hta, Htn. simpl.
        eexists. split; [reflexivity|]. simpl.
        split; [reflexivity|]. split; [reflexivity|].
        intros d. rewrite (foldl_parseSegment _ _ _ Hdims).
        destruct (decide (d ∈ Rule.key rule)) as [Hin|_]; [|apply lookup_empty].
        destruct (extractor d context) as [v|] eqn:Ev; [reflexivity|].
        exfalso. enough (false = true) by discriminate.
        apply Hmiss. exists d. split; [exact Hin | now left].
      * simpl. rewrite Hka, Hkn. simpl.
        now apply segmentOf_noKeySeparator.
Qed.

(** C8 on the IPv6 loopback address of the test suite: the colons of the
    value are replaced, and the key parses back to what was embedded. *)
Lemma buildKey_parseKey_witness :
  let rule := Rule.mk "per_ip" ["ip"%string] 10 5 1000 None None None in
  let context := requestFrom (Some "::1"%string) in
  let key := "test_action:per_ip:ip=__1"%string in
  wellFormedKey "test_action" rule = true
  /\ buildKey "test_action" rule context defaultKeyExtractor = Some key
  /\ exists parsed,
       parseKey key = Some parsed
       /\ Parsed.action parsed = "test_action"%string
       /\ Parsed.ruleName parsed = "per_ip"%string
       /\ Parsed.dimensions parsed !! "ip"%string = Some "__1"%string
       /\ Parsed.dimensions parsed !! "route"%string = None.
Proof.
  intros rule context key.
  assert (Hwf : wellFormedKey "test_action" rule = true) by reflexivity.
  assert (Hkey : buildKey "test_action" rule context defaultKeyExtractor = Some key)
    by reflexivity.
  destruct (buildKey_parseKey "test_action" rule context defaultKeyExtractor)
    as (_ & _ & Hbuilt).
  destruct (Hbuilt key Hkey) as (_ & Hparse).
  destruct (Hparse Hwf) as (parsed & Hp & Haction & Hname & Hdims).
  split; [exact Hwf|]. split; [exact Hkey|].
  exists parsed. split; [exact Hp|]. split; [exact Haction|]. split; [exact Hname|].
  split; [exact (Hdims "ip"%string) | exact (Hdims "route"%string)].
Defined.

(** Why the key has to be well formed: a colon inside the action shifts
    every segment, and [parseKey] reads a different action and rule. *)
Example parseKey_colon_in_action :
  let rule := Rule.mk "per_ip" ["ip"%string] 10 5 1000 None None None in
  exists key parsed,
    buildKey "auth:login" rule (requestFrom (Some "1.2.3.4"%string))
      defaultKeyExtractor = Some key
    /\ parseKey key = Some parsed
    /\ Parsed.action parsed = "auth"%string
    /\ Parsed.ruleName parsed = "login"%string.
Proof. intros rule. eexists. eexists. repeat split; reflexivity. Qed.

(** ** Memory store *)

Section Shutdown.
Import MemoryStore.

Lemma perform_after_shutdown (c : Call) (now : Z) (ms : t) :
  isShutdown ms = true ->
  perform c now ms =
    (if isStoreOperation c then Throw shutdownMessage else Ok VVoid, ms).
Proof.
  intros Hdown.
  destruct c; simpl;
    unfold get, set, delete, has, size, clear, shutdown, sweep, checkShutdown;
    rewrite ?Hdown; try reflexivity.
  now destruct (sweepTimer ms).
Qed.

Lemma run_after_shutdown (calls : list (Call * Z)) (ms : t) :
  isShutdown ms = true ->
  run calls ms =
    ((fun call => if isStoreOperation (fst call)
                  then Throw shutdownMessage else Ok VVoid) <$> calls, ms).
Proof.
  intros Hdown. induction calls as [|[c now] rest IH]; simpl.
  - reflexivity.
  - rewrite (perform_after_shutdown c now ms Hdown), IH. reflexivity.
Qed.

Lemma shutdown_isShutdown (ms : t) : isShutdown (snd (shutdown ms)) = true.
Proof. unfold shutdown. now destruct (isShutdown ms) eqn:E. Qed.
End Shutdown.

(** C9.  [shutdown] never fails, and a second [shutdown] is a no-op that
    does not fail either.  After it, whatever is called and whenever (store
    operations, further shutdowns, the timer), the store stays as shutdown
    left it, every [get], [set], [delete], [has], [size] and [clear] throws
    the shut-down error, and nothing else does. *)
Theorem shutdown_idempotent_and_final (ms : MemoryStore.t) :
  let down := snd (MemoryStore.shutdown ms) in
  fst (MemoryStore.shutdown ms) = Ok tt
  /\ MemoryStore.shutdown down = (Ok tt, down)
  /\ forall (calls : list (MemoryStore.Call * Z)),
       let later := snd (MemoryStore.run calls down) in
       later = down
       /\ fst (MemoryStore.run calls down) =
            ((fun call => if MemoryStore.isStoreOperation (fst call)
                          then Throw shutdownMessage else Ok MemoryStore.VVoid)
               <$> calls)
       /\ (forall key now,
             MemoryStore.get key now later = (Throw shutdownMessage, later))
       /\ (forall key state ttlMs now,
             MemoryStore.set key state ttlMs now later
             = (Throw shutdownMessage, later))
       /\ (forall key,
             MemoryStore.delete key later = (Throw shutdownMessage, later))
       /\ (forall key now,
             MemoryStore.has key now later = (Throw shutdownMessage, later))
       /\ MemoryStore.size later = (Throw shutdownMessage, later)
       /\ MemoryStore.clear later = (Throw shutdownMessage, later).
Proof.
  intros down. pose proof (shutdown_isShutdown ms) as Hdown. fold down in Hdown.
  split; [|split].
  - unfold MemoryStore.shutdown. now destruct (MemoryStore.isShutdown ms).
  - unfold MemoryStore.shutdown at 1. now rewrite Hdown.
  - intros calls later. subst later.
    rewrite (run_after_shutdown calls down Hdown). simpl.
    unfold MemoryStore.get, MemoryStore.set, MemoryStore.delete,
      MemoryStore.has, MemoryStore.size, MemoryStore.clear,
      MemoryStore.checkShutdown.
    rewrite Hdown. repeat split; reflexivity.
Qed.

Section EntryMaps.
Implicit Types (m es : EntryMap) (p q : string * Entry.t) (k : string).

Lemma elem_of_Map_delete k m p : p ∈ Map_delete k m <-> fst p <> k /\ p ∈ m.
Proof. unfold Map_delete. now rewrite list_elem_of_filter. Qed.

Lemma Map_delete_sublist k m : Map_delete k m `sublist_of` m.
Proof. unfold Map_delete. apply sublist_filter. Qed.

Lemma uniqueKeys_sublist m1 m2 :
  m1 `sublist_of` m2 -> uniqueKeys m2 -> uniqueKeys m1.
Proof.
  unfold uniqueKeys. intros Hsub Hnd.
  eapply sublist_NoDup; [exact Hnd | now apply fmap_sublist].
Qed.

Lemma uniqueKeys_Map_delete k m : uniqueKeys m -> uniqueKeys (Map_delete k m).
Proof. apply uniqueKeys_sublist, Map_delete_sublist. Qed.

Lemma uniqueKeys_entry m p q :
  uniqueKeys m -> p ∈ m -> q ∈ m -> fst p = fst q -> p = q.
Proof.
  unfold uniqueKeys. induction m as [|x m IH]; simpl.
  - intros _ Hp. inversion Hp.
  - rewrite NoDup_cons. intros [Hx Hm] Hp Hq Hk.
    apply elem_of_cons in Hp as [-> | Hp]; apply elem_of_cons in Hq as [-> | Hq].
    + reflexivity.
    + exfalso. apply Hx. rewrite Hk. now apply list_elem_of_fmap_2.
    + exfalso. apply Hx. rewrite <- Hk. now apply list_elem_of_fmap_2.
    + now apply IH.
Qed.

Lemma Map_delete_absent k m : k ∉ m.*1 -> Map_delete k m = m.
Proof.
  unfold Map_delete. induction m as [|x m IH]; [reflexivity|].
  intros Hk. rewrite fmap_cons, not_elem_of_cons in Hk. destruct Hk as [Hx Hm].
  rewrite filter_cons_True by congruence. now rewrite IH.
Qed.

Lemma Map_delete_length k m :
  uniqueKeys m -> k ∈ m.*1 -> S (length (Map_delete k m)) = length m.
Proof.
  unfold uniqueKeys, Map_delete. induction m as [|x m IH].
  - intros _ Hk. inversion Hk.
  - rewrite fmap_cons, NoDup_cons. intros [Hx Hm] Hk.
    destruct (decide (fst x = k)) as [E | E].
    + rewrite filter_cons_False by (intros H; now apply H).
      subst k. fold (Map_delete (fst x) m). now rewrite Map_delete_absent.
    + rewrite filter_cons_True by exact E. simpl. f_equal.
      apply IH; [exact Hm|].
      apply elem_of_cons in Hk as [Hk | Hk]; [congruence | exact Hk].
Qed.

Lemma elem_of_deleteAll es : forall m p,
  p ∈ deleteAll m es <-> p ∈ m /\ fst p ∉ es.*1.
Proof.
  unfold deleteAll. induction es as [|e es IH]; intros m p; simpl.
  - split; [intros H; split; [exact H | apply not_elem_of_nil] | tauto].
  - rewrite IH, elem_of_Map_delete, not_elem_of_cons. tauto.
Qed.

Lemma deleteAll_length es : forall m,
  uniqueKeys m -> NoDup es.*1 -> (forall p, p ∈ es -> p ∈ m) ->
  (length (deleteAll m es) + length es = length m)%nat.
Proof.
  unfold deleteAll. induction es as [|e es IH]; intros m Hm Hes Hsub; simpl.
  - lia.
  - simpl in Hes. apply NoDup_cons in Hes as [He Hes].
    assert (Hin : fst e ∈ m.*1).
    { apply list_elem_of_fmap_2, Hsub. left. }
    pose proof (Map_delete_length _ _ Hm Hin) as Hlen.
    rewrite <- Hlen, <- (IH (Map_delete (fst e) m)); [lia | | exact Hes |].
    + now apply uniqueKeys_Map_delete.
    + intros p Hp. apply elem_of_Map_delete. split.
      * intros E. apply He. rewrite <- E. now apply list_elem_of_fmap_2.
      * apply Hsub. now right.
Qed.

Lemma insertByAccess_perm p m : insertByAccess p m ≡ₚ p :: m.
Proof.
  induction m as [|q m IH]; simpl; [reflexivity|].
  destruct (_ <=? _)%Z; [reflexivity|].
  rewrite IH. apply Permutation_swap.
Qed.

Lemma sortByAccess_perm m : sortByAccess m ≡ₚ m.
Proof.
  unfold sortByAccess. induction m as [|p m IH]; simpl; [reflexivity|].
  now rewrite insertByAccess_perm, IH.
Qed.

Lemma insertByAccess_sorted p m :
  StronglySorted olderOrEqual m ->
  StronglySorted olderOrEqual (insertByAccess p m).
Proof.
  induction 1 as [|q m Hm IH Hq]; simpl.
  - repeat constructor.
  - destruct (Z.leb_spec (Entry.lastAccessedAt (snd p))
                (Entry.lastAccessedAt (snd q))) as [Hle | Hlt].
    + constructor; [now constructor|]. constructor; [exact Hle|].
      eapply Forall_impl; [exact Hq|]. unfold olderOrEqual. intros; lia.
    + constructor; [exact IH|].
      rewrite insertByAccess_perm. constructor; [|exact Hq].
      unfold olderOrEqual. lia.
Qed.

Lemma sortByAccess_sorted m : StronglySorted olderOrEqual (sortByAccess m).
Proof.
  unfold sortByAccess. induction m as [|p m IH]; simpl; [constructor|].
  now apply insertByAccess_sorted.
Qed.
End EntryMaps.

Section Eviction.
Import MemoryStore.
Variables (targetSize now : Z).
Implicit Types (m pending : EntryMap) (p q : string * Entry.t).

Lemma evictExpired_sublist pending : forall m,
  evictExpired targetSize now pending m `sublist_of` m.
Proof.
  induction pending as [|[k e] rest IH]; intros m; simpl; [reflexivity|].
  destruct (Map_size m <=? targetSize)%Z; [reflexivity|].
  destruct (expiredAt now e); [|apply IH].
  etransitivity; [apply IH | apply Map_delete_sublist].
Qed.

(** Phase 1 deletes expired entries only. *)
Lemma evictExpired_removes_expired pending : forall m,
  uniqueKeys pending -> uniqueKeys m -> (forall p, p ∈ pending -> p ∈ m) ->
  forall q, q ∈ m -> q ∉ evictExpired targetSize now pending m ->
            expiredAt now (snd q) = true.
Proof.
  induction pending as [|[k e] rest IH]; intros m Hp Hm Hsub q Hq Hgone;
    simpl in Hgone; [contradiction|].
  destruct (Map_size m <=? targetSize)%Z; [contradiction|].
  unfold uniqueKeys in Hp. rewrite fmap_cons, NoDup_cons in Hp.
  destruct Hp as [Hk Hrest].
  destruct (expiredAt now e) eqn:He.
  - destruct (decide (fst q = k)) as [E | E].
    + assert (q = (k, e)) as ->; [|exact He].
      apply (uniqueKeys_entry m); [exact Hm | exact Hq | | exact E].
      apply Hsub. left.
    + apply (IH (Map_delete k m)); try assumption.
      * now apply uniqueKeys_Map_delete.
      * intros p Hin. apply elem_of_Map_delete. split.
        -- intros Ep. apply Hk. simpl. rewrite <- Ep.
           now apply list_elem_of_fmap_2.
        -- apply Hsub. now right.
      * apply elem_of_Map_delete. split; assumption.
  - apply (IH m); try assumption.
    intros p Hin. apply Hsub. now right.
Qed.

(** Phase 1 stops at the target size, or else leaves no expired entry. *)
Lemma evictExpired_exhausts pending : forall m,
  (forall q, q ∈ m -> expiredAt now (snd q) = true -> q ∈ pending) ->
  (Map_size (evictExpired targetSize now pending m) <= targetSize)%Z
  \/ forall q, q ∈ evictExpired targetSize now pending m ->
               expiredAt now (snd q) = false.
Proof.
  induction pending as [|[k e] rest IH]; intros m Hpend; simpl.
  - right. intros q Hq. destruct (expiredAt now (snd q)) eqn:E; [|reflexivity].
    exfalso. specialize (Hpend q Hq E). inversion Hpend.
  - destruct (Z.leb_spec (Map_size m) targetSize) as [Hle|_]; [now left|].
    destruct (expiredAt now e) eqn:He; apply IH.
    + intros q [Hk Hq]%elem_of_Map_delete Hexp.
      specialize (Hpend q Hq Hexp).
      apply elem_of_cons in Hpend as [-> | Hin]; [|exact Hin].
      exfalso. now apply Hk.
    + intros q Hq Hexp. specialize (Hpend q Hq Hexp).
      apply elem_of_cons in Hpend as [-> | Hin]; [|exact Hin].
      simpl in Hexp. congruence.
Qed.

Section Oldest.
Variable m : EntryMap.
Hypothesis Hunique : uniqueKeys m.

Local Abbreviation chosen := (oldestEntries targetSize m).

Lemma chosen_in_map p : p ∈ chosen -> p ∈ m.
Proof.
  intros Hp. rewrite <- (sortByAccess_perm m).
  eapply elem_of_sublist; [exact Hp | apply sublist_take].
Qed.

Lemma chosen_uniqueKeys : uniqueKeys chosen.
Proof.
  apply (uniqueKeys_sublist _ (sortByAccess m)); [apply sublist_take|].
  unfold uniqueKeys. now rewrite (sortByAccess_perm m).
Qed.

Lemma evictOldest_size :
  (Map_size (evictOldest targetSize m) <= Z.max targetSize 0)%Z.
Proof.
  unfold evictOldest.
  destruct (Z.ltb_spec targetSize (Map_size m)) as [Hlt | Hge]; [|lia].
  change (take _ (sortByAccess m)) with chosen.
  pose proof (deleteAll_length chosen m Hunique chosen_uniqueKeys
                chosen_in_map) as Hlen.
  assert (Hchosen : length chosen =
            Nat.min (Z.to_nat (Map_size m - targetSize)) (length m)).
  { unfold oldestEntries. rewrite length_take.
    now rewrite (Permutation_length (sortByAccess_perm m)). }
  unfold Map_size in *. lia.
Qed.

Lemma evictOldest_subset q : q ∈ evictOldest targetSize m -> q ∈ m.
Proof.
  unfold evictOldest. destruct (targetSize <? Map_size m)%Z; [|auto].
  intros H. now apply elem_of_deleteAll in H.
Qed.

(** Whatever phase 2 deletes is no younger than whatever it keeps. *)
Lemma evictOldest_order p q :
  p ∈ m -> p ∉ evictOldest targetSize m -> q ∈ evictOldest targetSize m ->
  (targetSize < Map_size m)%Z /\ olderOrEqual p q.
Proof.
  unfold evictOldest.
  destruct (Z.ltb_spec targetSize (Map_size m)) as [Hlt | Hge];
    [|contradiction].
  change (take _ (sortByAccess m)) with chosen.
  intros Hp Hgone Hq. split; [exact Hlt|].
  rewrite elem_of_deleteAll in Hgone, Hq. destruct Hq as [Hq Hqk].
  assert (Hpc : p ∈ chosen).
  { destruct (decide (fst p ∈ chosen.*1)) as [Hin | Hnin]; [|tauto].
    apply list_elem_of_fmap in Hin as (p' & Ek & Hp').
    assert (p = p') as ->; [|exact Hp'].
    apply (uniqueKeys_entry m); auto using chosen_in_map. }
  assert (Hqd : q ∈ drop (Z.to_nat (Map_size m - targetSize)) (sortByAccess m)).
  { assert (Hqs : q ∈ sortByAccess m) by now rewrite (sortByAccess_perm m).
    rewrite <- (take_drop (Z.to_nat (Map_size m - targetSize))) in Hqs.
    apply elem_of_app in Hqs as [Hqt | Hqd]; [|exact Hqd].
    exfalso. apply Hqk. now apply list_elem_of_fmap_2. }
  apply (StronglySorted_app_1_elem_of olderOrEqual chosen
           (drop (Z.to_nat (Map_size m - targetSize)) (sortByAccess m)));
    [|exact Hpc | exact Hqd].
  unfold oldestEntries. rewrite take_drop. apply sortByAccess_sorted.
Qed.
End Oldest.
End Eviction.

Section MapLookups.
Implicit Types (m : EntryMap) (k : string) (e : Entry.t).

Lemma Map_get_None k m : Map_get k m = None <-> k ∉ m.*1.
Proof.
  unfold Map_get. induction m as [|[k' e'] m IH]; simpl.
  - split; [intros _; apply not_elem_of_nil | reflexivity].
  - rewrite not_elem_of_cons. destruct (String.eqb_spec k' k) as [-> | Hne]; simpl.
    + split; [discriminate | intros [H _]; congruence].
    + rewrite IH. split; [intros H; split; [congruence | exact H] | tauto].
Qed.

Lemma Map_get_Some k m e : Map_get k m = Some e -> (k, e) ∈ m.
Proof.
  unfold Map_get. induction m as [|[k' e'] m IH]; simpl; [discriminate|].
  destruct (String.eqb_spec k' k) as [-> | Hne]; simpl.
  - intros [= ->]. left.
  - intros H. right. now apply IH.
Qed.

Lemma Map_get_append k m e : k ∉ m.*1 -> Map_get k (m ++ [(k, e)]) = Some e.
Proof.
  unfold Map_get. induction m as [|[k' e'] m IH]; simpl.
  - intros _. now rewrite String.eqb_refl.
  - rewrite not_elem_of_cons. intros [Hne Hk].
    destruct (String.eqb_spec k' k) as [-> | _]; [congruence | now apply IH].
Qed.

Lemma Map_get_replace k m e e0 :
  Map_get k m = Some e0 -> Map_get k (Map_replace k e m) = Some e.
Proof.
  unfold Map_get, Map_replace. induction m as [|[k' e'] m IH]; simpl; [discriminate|].
  destruct (String.eqb_spec k' k) as [-> | Hne]; simpl.
  - intros _. now rewrite String.eqb_refl.
  - destruct (String.eqb_spec k' k) as [-> | _]; [congruence | exact IH].
Qed.

Lemma Map_replace_keys k m e : (Map_replace k e m).*1 = m.*1.
Proof.
  unfold Map_replace. induction m as [|[k' e'] m IH]; csimpl; [reflexivity|].
  rewrite IH. destruct (String.eqb_spec k' k) as [-> | _]; reflexivity.
Qed.

Lemma kept_or_gone m m1 (p : string * Entry.t) :
  uniqueKeys m -> m1 `sublist_of` m -> p ∈ m -> p ∈ m1 \/ p ∉ m1.
Proof.
  intros Hm Hsub Hp. destruct (decide (fst p ∈ m1.*1)) as [Hin | Hnin].
  - left. apply list_elem_of_fmap in Hin as (p' & Ek & Hp').
    assert (p = p') as ->; [|exact Hp'].
    apply (uniqueKeys_entry m); auto. eapply elem_of_sublist; eauto.
  - right. intros H. apply Hnin. now apply list_elem_of_fmap_2.
Qed.

Lemma deleteAll_sublist (es : EntryMap) : forall m, deleteAll m es `sublist_of` m.
Proof.
  unfold deleteAll. induction es as [|x es IH]; intros m; simpl; [reflexivity|].
  etransitivity; [apply IH | apply Map_delete_sublist].
Qed.

Lemma evictEntries_sublist (now : Z) (opts : Options.t) m :
  MemoryStore.evictEntries now opts m `sublist_of` m.
Proof.
  unfold MemoryStore.evictEntries, MemoryStore.evictOldest.
  destruct (_ <? _)%Z; [|apply evictExpired_sublist].
  etransitivity; [apply deleteAll_sublist | apply evictExpired_sublist].
Qed.
End MapLookups.

(** ** The store keeps its keys unique, and [set] installs what it is given *)

Section StoreInvariant.
Import MemoryStore.

Lemma append_uniqueKeys (kept m : EntryMap) (key : string) (e : Entry.t) :
  kept `sublist_of` m -> uniqueKeys m -> Map_get key m = None ->
  uniqueKeys (kept ++ [(key, e)]).
Proof.
  intros Hsub Hunique Hnew.
  unfold uniqueKeys. rewrite fmap_app. apply NoDup_app. split; [|split].
  - apply (uniqueKeys_sublist kept _ Hsub Hunique).
  - intros k Hk [-> | Hnil]%elem_of_cons; [|inversion Hnil].
    apply Map_get_None in Hnew. apply Hnew.
    eapply elem_of_sublist; [exact Hk | now apply fmap_sublist].
  - simpl. apply NoDup_singleton.
Qed.

Lemma set_store (key : string) (state : State.t) (ttlMs : Q) (now : Z) (ms : t) :
  isShutdown ms = false ->
  exists m,
    set key state ttlMs now ms = (Ok tt, withStore ms m)
    /\ Map_get key m = Some (Entry.mk state now)
    /\ (uniqueKeys (store ms) -> uniqueKeys m).
Proof.
  intros Hlive. unfold set, checkShutdown. rewrite Hlive.
  destruct (Map_get key (store ms)) as [e0|] eqn:Hget.
  - eexists. split; [reflexivity|]. split.
    + now apply (Map_get_replace _ _ _ e0).
    + unfold uniqueKeys. now rewrite Map_replace_keys.
  - set (m := if (_ <=? _)%Z then _ else _).
    assert (Hsub : m `sublist_of` store ms).
    { subst m. destruct (_ <=? _)%Z; [apply evictEntries_sublist | reflexivity]. }
    exists (m ++ [(key, Entry.mk state now)]). split; [reflexivity|]. split.
    + apply Map_get_append. apply Map_get_None in Hget. intros Hin.
      apply Hget. eapply elem_of_sublist; [exact Hin | now apply fmap_sublist].
    + intros Hunique. now apply (append_uniqueKeys m (store ms)).
Qed.

Lemma perform_uniqueKeys (c : Call) (now : Z) (ms : t) :
  uniqueKeys (store ms) -> uniqueKeys (store (snd (perform c now ms))).
Proof.
  intros Hunique.
  assert (Hdel : forall k, uniqueKeys (Map_delete k (store ms)))
    by (intros k; now apply uniqueKeys_Map_delete).
  assert (Hnil : uniqueKeys []) by constructor.
  destruct c; simpl.
  - unfold get, checkShutdown. destruct (isShutdown ms); [exact Hunique|].
    destruct (Map_get key (store ms)); [|exact Hunique].
    destruct (expiredAt now t0); simpl; [apply Hdel|].
    unfold uniqueKeys. now rewrite Map_replace_keys.
  - destruct (isShutdown ms) eqn:Hlive.
    + unfold set, checkShutdown. now rewrite Hlive.
    + destruct (set_store key state ttlMs now ms Hlive) as (m & -> & _ & Hm).
      simpl. now apply Hm.
  - unfold delete, checkShutdown. destruct (isShutdown ms); simpl; auto.
  - unfold has, checkShutdown. destruct (isShutdown ms); [exact Hunique|].
    destruct (Map_get key (store ms)); [|exact Hunique].
    destruct (expiredAt now t0); simpl; auto.
  - unfold size, checkShutdown. now destruct (isShutdown ms).
  - unfold clear, checkShutdown. now destruct (isShutdown ms).
  - unfold shutdown. now destruct (isShutdown ms).
  - destruct (sweepTimer ms); [|exact Hunique].
    unfold sweep. destruct (isShutdown ms); [exact Hunique|]. simpl.
    eapply uniqueKeys_sublist; [apply sublist_filter | exact Hunique].
Qed.

(** Every store reachable from a new one has unique keys. *)
Lemma run_uniqueKeys (calls : list (Call * Z)) : forall ms,
  uniqueKeys (store ms) -> uniqueKeys (store (snd (run calls ms))).
Proof.
  induction calls as [|[c now] rest IH]; intros ms Hunique; simpl; [exact Hunique|].
  pose proof (perform_uniqueKeys c now ms Hunique) as Hstep.
  destruct (perform c now ms) as [r ms']. simpl in Hstep.
  specialize (IH ms' Hstep). destruct (run rest ms') as [rs ms'']. exact IH.
Qed.
End StoreInvariant.

(** The two phases of [evictEntries] together: the result fits the target
    (or is empty when the target is negative), and an unexpired entry is
    deleted only once no expired entry is left, oldest access first. *)
Lemma evictEntries_spec (now : Z) (opts : Options.t) (m : EntryMap) :
  uniqueKeys m ->
  let targetSize := (Options.highWaterMark opts - Options.evictionCount opts)%Z in
  let kept := MemoryStore.evictEntries now opts m in
  (Map_size kept <= Z.max targetSize 0)%Z
  /\ forall p, p ∈ m -> p ∉ kept -> expiredAt now (snd p) = false ->
       forall q, q ∈ kept -> expiredAt now (snd q) = false /\ olderOrEqual p q.
Proof.
  intros Hm targetSize kept. subst kept. unfold MemoryStore.evictEntries.
  fold targetSize.
  set (m1 := MemoryStore.evictExpired targetSize now m m).
  assert (Hm1 : uniqueKeys m1).
  { apply (uniqueKeys_sublist _ m); [apply evictExpired_sublist | exact Hm]. }
  split; [now apply evictOldest_size|].
  intros p Hp Hgone Hlive q Hq.
  assert (Hp1 : p ∈ m1).
  { destruct (kept_or_gone m m1 p Hm (evictExpired_sublist _ _ _ _) Hp)
      as [H | H]; [exact H|]. exfalso.
    pose proof (evictExpired_removes_expired targetSize now m m Hm Hm
                  (fun _ H => H) p Hp H). congruence. }
  destruct (evictOldest_order targetSize m1 Hm1 p q Hp1 Hgone Hq) as [Hover Hold].
  split; [|exact Hold].
  destruct (evictExpired_exhausts targetSize now m m (fun q H _ => H))
    as [Hfit | Hnone].
  - fold m1 in Hfit. lia.
  - apply Hnone. fold m1. now apply (evictOldest_subset targetSize m1).
Qed.

(** C7, counterexample.  A store built with only [highWaterMark: 2] keeps
    the default eviction count of 10000, so the target size is negative:
    the third insertion evicts everything and leaves one entry, more than
    highWaterMark - evictionCount + 1. *)
Lemma set_eviction_bound_fails :
  let fresh := State.mk 10 0 0 60000 in
  let ms0 := MemoryStore.new (PartialOptions.mk None (Some 2%Z) None) in
  let ms2 :=
    snd (MemoryStore.run
           [(MemoryStore.CallSet "k1" fresh 60000, 0%Z);
            (MemoryStore.CallSet "k2" fresh 60000, 1%Z)] ms0) in
  let ms3 := snd (MemoryStore.set "k3" fresh 60000 2%Z ms2) in
  let opts := MemoryStore.options ms2 in
  (Options.highWaterMark opts <= Map_size (MemoryStore.store ms2))%Z
  /\ Map_get "k3" (MemoryStore.store ms2) = None
  /\ Map_size (MemoryStore.store ms3) = 1%Z
  /\ ~ (Map_size (MemoryStore.store ms3)
        <= Options.highWaterMark opts - Options.evictionCount opts + 1)%Z.
Proof. vm_compute. repeat split; try discriminate. intros H. apply H. reflexivity. Qed.

(** C7 (amended).  On a live store at or over [highWaterMark], [set] on a
    new key first evicts toward the target size
    highWaterMark - evictionCount and then appends the new entry, so the
    size afterwards is at most max(highWaterMark - evictionCount, 0) + 1.
    Eviction only deletes; if it deletes an entry that is not expired, then
    no expired entry survives it and no survivor was accessed earlier than
    the deleted entry. *)
Theorem set_new_key_evicts (ms : MemoryStore.t) (key : string)
    (state : State.t) (ttlMs : Q) (now : Z) :
  MemoryStore.isShutdown ms = false ->
  uniqueKeys (MemoryStore.store ms) ->
  Map_get key (MemoryStore.store ms) = None ->
  (Options.highWaterMark (MemoryStore.options ms)
   <= Map_size (MemoryStore.store ms))%Z ->
  let opts := MemoryStore.options ms in
  let targetSize := (Options.highWaterMark opts - Options.evictionCount opts)%Z in
  let kept := MemoryStore.evictEntries now opts (MemoryStore.store ms) in
  let after := snd (MemoryStore.set key state ttlMs now ms) in
  fst (MemoryStore.set key state ttlMs now ms) = Ok tt
  /\ MemoryStore.store after = kept ++ [(key, Entry.mk state now)]
  /\ kept `sublist_of` MemoryStore.store ms
  /\ (Map_size kept <= Z.max targetSize 0)%Z
  /\ (Map_size (MemoryStore.store after) <= Z.max targetSize 0 + 1)%Z
  /\ (forall p, p ∈ MemoryStore.store ms -> p ∉ kept ->
        expiredAt now (snd p) = false ->
        forall q, q ∈ kept -> expiredAt now (snd q) = false /\ olderOrEqual p q)
  /\ uniqueKeys (MemoryStore.store after).
Proof.
  intros Hlive Hunique Hnew Hfull opts targetSize kept after.
  destruct (evictEntries_spec now opts (MemoryStore.store ms) Hunique)
    as [Hsize Horder].
  fold targetSize kept in Hsize, Horder.
  assert (Hset : MemoryStore.set key state ttlMs now ms =
                 (Ok tt, MemoryStore.withStore ms
                           (kept ++ [(key, Entry.mk state now)]))).
  { unfold MemoryStore.set, MemoryStore.checkShutdown.
    rewrite Hlive, Hnew.
    destruct (Z.leb_spec (Options.highWaterMark (MemoryStore.options ms))
                (Map_size (MemoryStore.store ms))) as [_ | Hlt]; [reflexivity | lia]. }
  subst after. rewrite Hset. simpl.
  assert (Hsub : kept `sublist_of` MemoryStore.store ms)
    by apply evictEntries_sublist.
  split; [reflexivity|]. split; [reflexivity|]. split; [exact Hsub|].
  split; [exact Hsize|]. split; [|split; [exact Horder|]].
  - unfold Map_size in *. rewrite length_app. simpl. lia.
  - now apply (append_uniqueKeys kept (MemoryStore.store ms)).
Qed.

(** The amended C7 on a full store of three entries, one of them expired:
    the expired entry goes, the two live ones stay, the new key is
    appended. *)
Lemma set_new_key_evicts_witness :
  let live := State.mk 10 0 0 60000 in
  let stale := State.mk 10 0 0 3 in
  let ms :=
    MemoryStore.mk
      [("a"%string, Entry.mk live 0); ("b"%string, Entry.mk stale 1);
       ("c"%string, Entry.mk live 2)]
      (Options.mk 60000 3 1) true false in
  let after := snd (MemoryStore.set "d" live 60000 5 ms) in
  MemoryStore.isShutdown ms = false
  /\ uniqueKeys (MemoryStore.store ms)
  /\ Map_get "d" (MemoryStore.store ms) = None
  /\ (Options.highWaterMark (MemoryStore.options ms)
      <= Map_size (MemoryStore.store ms))%Z
  /\ (Map_size (MemoryStore.store after) <= 3)%Z
  /\ MemoryStore.store after =
       [("a"%string, Entry.mk live 0); ("c"%string, Entry.mk live 2);
        ("d"%string, Entry.mk live 5)].
Proof.
  intros live stale ms after.
  assert (Hlive : MemoryStore.isShutdown ms = false) by reflexivity.
  assert (Hunique : uniqueKeys (MemoryStore.store ms)).
  { unfold uniqueKeys. simpl. repeat (apply NoDup_cons; split);
      [| | | apply NoDup_nil; exact I]; rewrite ?elem_of_cons, elem_of_nil;
      intros H; repeat (destruct H as [H | H]; [discriminate H|]); exact H. }
  assert (Hnew : Map_get "d" (MemoryStore.store ms) = None) by reflexivity.
  assert (Hfull : (Options.highWaterMark (MemoryStore.options ms)
                   <= Map_size (MemoryStore.store ms))%Z)
    by (vm_compute; discriminate).
  destruct (set_new_key_evicts ms "d" live 60000 5 Hlive Hunique Hnew Hfull)
    as (_ & Hstore & _ & _ & Hsize & _).
  split; [exact Hlive|]. split; [exact Hunique|]. split; [exact Hnew|].
  split; [exact Hfull|]. split; [exact Hsize | exact Hstore].
Defined.

(** C10.  [set] with two different TTL arguments returns the same outcome
    and leaves the same store, so every later history of calls (gets, has,
    sweeps by the timer, anything) gives the same results.  What a later
    [get] on a live store returns is decided by the [expiresAt] field of the
    stored state alone. *)
Theorem set_ignores_ttl (ms : MemoryStore.t) (key : string) (state : State.t)
    (ttl1 ttl2 : Q) (now : Z) :
  let ms1 := snd (MemoryStore.set key state ttl1 now ms) in
  let ms2 := snd (MemoryStore.set key state ttl2 now ms) in
  MemoryStore.set key state ttl1 now ms = MemoryStore.set key state ttl2 now ms
  /\ ms1 = ms2
  /\ (forall calls, MemoryStore.run calls ms1 = MemoryStore.run calls ms2)
  /\ (forall key' later,
        MemoryStore.get key' later ms1 = MemoryStore.get key' later ms2
        /\ MemoryStore.has key' later ms1 = MemoryStore.has key' later ms2
        /\ MemoryStore.sweep later ms1 = MemoryStore.sweep later ms2)
  /\ (MemoryStore.isShutdown ms = false ->
      forall later,
        fst (MemoryStore.get key later ms1) =
          Ok (if geq (inject_Z later) (State.expiresAt state)
              then None else Some state)).
Proof.
  intros ms1 ms2.
  assert (Hsame : MemoryStore.set key state ttl1 now ms
                  = MemoryStore.set key state ttl2 now ms) by reflexivity.
  assert (Hms : ms1 = ms2) by (subst ms1 ms2; now rewrite Hsame).
  split; [exact Hsame|]. split; [exact Hms|].
  split; [intros calls; now rewrite Hms|].
  split; [intros key' later; now rewrite Hms|].
  intros Hlive later. subst ms1.
  destruct (set_store key state ttl1 now ms Hlive) as (m & -> & Hget & _).
  simpl. unfold MemoryStore.get, MemoryStore.checkShutdown. simpl.
  rewrite Hlive, Hget. unfold expiredAt. simpl.
  now destruct (geq (inject_Z later) (State.expiresAt state)).
Qed.

(** C10 on a new store: a state that expires at 5000 is stored once with
    TTL 1 and once with TTL 60000; read at 4999 it is there either way, and
    at 5000 it is gone either way. *)
Lemma set_ignores_ttl_witness :
  let ms := MemoryStore.new (PartialOptions.mk None None None) in
  let state := State.mk 10 0 0 5000 in
  MemoryStore.isShutdown ms = false
  /\ fst (MemoryStore.get "k" 4999
            (snd (MemoryStore.set "k" state 1 0 ms))) = Ok (Some state)
  /\ fst (MemoryStore.get "k" 5000
            (snd (MemoryStore.set "k" state 1 0 ms))) = Ok None
  /\ snd (MemoryStore.set "k" state 1 0 ms)
     = snd (MemoryStore.set "k" state 60000 0 ms).
Proof.
  intros ms state.
  assert (Hlive : MemoryStore.isShutdown ms = false) by reflexivity.
  destruct (set_ignores_ttl ms "k" state 1 60000 0) as (_ & Hms & _ & _ & Hget).
  split; [exact Hlive|]. split; [exact (Hget Hlive 4999%Z)|].
  split; [exact (Hget Hlive 5000%Z) | exact Hms].
Defined.

(** ** Policy engine *)

Section Engine.
Context {W : Type}.
Variables (env : Env W) (policies : gmap string Policy.t)
          (extractor : KeyExtractor).
Variables (policy : Policy.t) (context : Ctx.t).

Local Abbreviation evaluateRule :=
  (PolicyEngine.evaluateRule env extractor).
Local Abbreviation evaluateRules :=
  (PolicyEngine.evaluateRules env extractor policy context).

Lemma evaluateRule_missing (rule : Rule.t) (w : W) :
  buildKey (Policy.id policy) rule context extractor = None ->
  evaluateRule rule context policy w
  = (Ok (PolicyEngine.skippedResult rule), w).
Proof. intros H. unfold PolicyEngine.evaluateRule. now rewrite H. Qed.

(** The shape of every result of an evaluated (not skipped) rule. *)
Lemma evaluateRule_evaluated (rule : Rule.t) (key : string) (now : Q)
    (stored : option State.t) (w w1 w2 w3 : W) :
  buildKey (Policy.id policy) rule context extractor = Some key ->
  getTime env w = (Ok now, w1) ->
  storeGet env key w1 = (Ok stored, w2) ->
  storeSet env key (Consume.bucketState (attemptFor rule stored now))
    (calculateDefaultTtl rule) w2 = (Ok tt, w3) ->
  let c := attemptFor rule stored now in
  evaluateRule rule context policy w =
    (Ok (RuleResult.mk (Rule.name rule) key (Consume.allowed c)
           (if Consume.allowed c then ALLOWED
            else match default block (Rule.mode rule) with
                 | challenge => CHALLENGE
                 | block => BLOCKED
                 end)
           (Consume.retryAfterMs c) (Consume.remainingTokens c)
           (if Consume.allowed c then None
            else match default block (Rule.mode rule) with
                 | challenge => Some "captcha_required"%string
                 | block => None
                 end)), w3).
Proof.
  intros Hkey Htime Hget Hset c.
  unfold PolicyEngine.evaluateRule. rewrite Hkey.
  unfold bind at 1. rewrite Htime.
  unfold bind at 1. rewrite Hget.
  unfold attemptFor, bucketFor in Hset.
  unfold bind at 1. rewrite Hset. reflexivity.
Qed.

Lemma evaluateRules_fault (rules : list Rule.t) (w w' : W) (message : string) :
  StoreFault env extractor policy context rules w message w' ->
  forall results keys,
    evaluateRules rules results keys w = (Throw message, w').
Proof.
  induction 1 as [rule rest key now w w1 w2 message Hkey Htime Hget
                 |rule rest key now stored w w1 w2 w3 message Hkey Htime Hget Hset
                 |rule rest r w w1 w2 message Hrule Hrest IH];
    intros results keys; simpl; unfold bind at 1.
  - unfold PolicyEngine.evaluateRule. rewrite Hkey.
    unfold bind at 1. rewrite Htime. unfold bind at 1. now rewrite Hget.
  - unfold PolicyEngine.evaluateRule. rewrite Hkey.
    unfold bind at 1. rewrite Htime. unfold bind at 1. rewrite Hget.
    unfold attemptFor, bucketFor in Hset.
    unfold bind at 1. now rewrite Hset.
  - rewrite Hrule. apply IH.
Qed.
End Engine.

(** C6.  When the key of a rule cannot be built because a declared dimension
    is absent or empty, the rule evaluates, under every fail mode and
    whatever the store is, to the result with key "skipped", allowed,
    ALLOWED, retry 0 and the rule's capacity as remaining tokens, and the
    world is left exactly as it was: neither the store nor the time provider
    is called. *)
Theorem evaluateRule_skips_missing_dimension {W : Type} (env : Env W)
    (extractor : KeyExtractor) (rule : Rule.t) (context : Ctx.t)
    (policy : Policy.t) (w : W) :
  (exists d, d ∈ Rule.key rule
     /\ (extractor d context = None \/ extractor d context = Some EmptyString)) ->
  buildKey (Policy.id policy) rule context extractor = None
  /\ PolicyEngine.evaluateRule env extractor rule context policy w =
       (Ok (RuleResult.mk (Rule.name rule) "skipped" true ALLOWED 0
              (Rule.capacity rule) None), w).
Proof.
  intros Hmissing.
  assert (Hkey : buildKey (Policy.id policy) rule context extractor = None).
  { rewrite buildKey_spec.
    apply (existsb_missing extractor context) in Hmissing. now rewrite Hmissing. }
  split; [exact Hkey|]. now apply evaluateRule_missing.
Qed.

(** C6 at the request without an IP of the test suite, under a closed
    policy: over a store that records its calls nothing is recorded, and over
    a store that always throws nothing is thrown. *)
Lemma evaluateRule_skips_missing_dimension_witness :
  (exists d, d ∈ Rule.key challengeRule
     /\ (defaultKeyExtractor d (requestFrom None) = None
         \/ defaultKeyExtractor d (requestFrom None) = Some EmptyString))
  /\ PolicyEngine.evaluateRule recordingEnv defaultKeyExtractor challengeRule
       (requestFrom None) challengePolicy []
     = (Ok (RuleResult.mk "per_ip" "skipped" true ALLOWED 0 3 None), [])
  /\ PolicyEngine.evaluateRule (failingEnv "down") defaultKeyExtractor challengeRule
       (requestFrom None) challengePolicy tt
     = (Ok (RuleResult.mk "per_ip" "skipped" true ALLOWED 0 3 None), tt).
Proof.
  assert (Hmissing : exists d, d ∈ Rule.key challengeRule
     /\ (defaultKeyExtractor d (requestFrom None) = None
         \/ defaultKeyExtractor d (requestFrom None) = Some EmptyString)).
  { exists "ip"%string. split; [left | left; reflexivity]. }
  split; [exact Hmissing|]. split.
  - exact (proj2 (evaluateRule_skips_missing_dimension recordingEnv
             defaultKeyExtractor challengeRule (requestFrom None)
             challengePolicy [] Hmissing)).
  - exact (proj2 (evaluateRule_skips_missing_dimension (failingEnv "down")
             defaultKeyExtractor challengeRule (requestFrom None)
             challengePolicy tt Hmissing)).
Defined.

(** C5.  When the action has a policy and a store operation throws while
    its rules are evaluated, [check] still returns a decision (its type has
    no failing outcome): the error decision of the policy's fail mode, with
    [failedDueToError] set; open gives allowed, ALLOWED, retry 0; closed
    gives not allowed, BLOCKED, retry 60000 ms. *)
Theorem check_contains_store_faults {W : Type} (env : Env W)
    (policies : gmap string Policy.t) (extractor : KeyExtractor)
    (context : Ctx.t) (policy : Policy.t) (message : string) (w w' : W) :
  policies !! Ctx.action context = Some policy ->
  StoreFault env extractor policy context (Policy.rules policy) w message w' ->
  let d := fst (PolicyEngine.check env policies extractor context w) in
  snd (PolicyEngine.check env policies extractor context w) = w'
  /\ d = createErrorDecision (Ctx.action context) (Policy.failMode policy) message
  /\ Decision.failedDueToError d = Some true
  /\ match Policy.failMode policy with
     | open => Decision.allowed d = true /\ Decision.outcome d = ALLOWED
               /\ Decision.retryAfterMs d = 0
     | closed => Decision.allowed d = false /\ Decision.outcome d = BLOCKED
                 /\ Decision.retryAfterMs d = inject_Z 60000
     end.
Proof.
  intros Hpolicy Hfault d. subst d.
  unfold PolicyEngine.check. rewrite Hpolicy.
  unfold PolicyEngine.evaluatePolicy, bind.
  rewrite (evaluateRules_fault env extractor policy context _ _ _ _ Hfault).
  simpl. split; [reflexivity|]. split; [reflexivity|]. split; [reflexivity|].
  destruct (Policy.failMode policy); simpl; auto.
Qed.

(** C5 at scenario E of the specification: the store throws on [get] and
    the policy fails closed. *)
Lemma check_contains_store_faults_witness :
  let policies : gmap string Policy.t := {[ "challenge_action"%string := challengePolicy ]} in
  let context := requestFrom (Some "192.168.1.1"%string) in
  let d := fst (PolicyEngine.check (failingEnv "down") policies
                  defaultKeyExtractor context tt) in
  policies !! Ctx.action context = Some challengePolicy
  /\ StoreFault (failingEnv "down") defaultKeyExtractor challengePolicy context
       (Policy.rules challengePolicy) tt "down" tt
  /\ Decision.allowed d = false /\ Decision.outcome d = BLOCKED
  /\ Decision.retryAfterMs d = inject_Z 60000
  /\ Decision.failedDueToError d = Some true.
Proof.
  intros policies context d.
  assert (Hpolicy : policies !! Ctx.action context = Some challengePolicy)
    by reflexivity.
  assert (Hfault : StoreFault (failingEnv "down") defaultKeyExtractor
                     challengePolicy context (Policy.rules challengePolicy)
                     tt "down" tt).
  { eapply (fault_in_get _ _ _ _ challengeRule []
              "challenge_action:per_ip:ip=192.168.1.1" 0); reflexivity. }
  destruct (check_contains_store_faults (failingEnv "down") policies
              defaultKeyExtractor context challengePolicy "down" tt tt
              Hpolicy Hfault) as (_ & _ & Hflag & Hallowed & Houtcome & Hretry).
  split; [exact Hpolicy|]. split; [exact Hfault|]. split; [exact Hallowed|].
  split; [exact Houtcome|]. split; [exact Hretry | exact Hflag].
Defined.

(** C3, the failing input.  The challenge policy of the test suite with its
    bucket exhausted: the rule's result is CHALLENGE but its [allowed] flag is
    false, the flag of the denied consume attempt.  Its [retryAfterMs] of
    20000 stays inside the rule result; the decision itself is allowed with
    [retryAfterMs] 0. *)
Lemma challenge_result_is_not_allowed :
  let key := "challenge_action:per_ip:ip=192.168.1.1"%string in
  let ms :=
    MemoryStore.mk [(key, Entry.mk (State.mk 0 0 0 120000) 0)]
      DEFAULT_OPTIONS true false in
  let context := requestFrom (Some "192.168.1.1"%string) in
  let policies : gmap string Policy.t :=
    {[ "challenge_action"%string := challengePolicy ]} in
  let d := fst (PolicyEngine.check memoryEnv policies defaultKeyExtractor
                  context (0%Z, ms)) in
  exists r,
    fst (PolicyEngine.evaluateRule memoryEnv defaultKeyExtractor challengeRule
           context challengePolicy (0%Z, ms)) = Ok r
    /\ RuleResult.outcome r = CHALLENGE
    /\ RuleResult.allowed r = false
    /\ RuleResult.retryAfterMs r = inject_Z 20000
    /\ Decision.ruleResults d = [r]
    /\ Decision.outcome d = CHALLENGE
    /\ Decision.allowed d = true
    /\ Decision.retryAfterMs d = 0.
Proof.
  intros key ms context policies d. eexists. split; [vm_compute; reflexivity|].
  vm_compute. repeat split; reflexivity.
Qed.

(** C3, what the code does.  For a rule in challenge mode whose key can be
    built and whose consume attempt is denied, the rule's result has outcome
    CHALLENGE, the hint "captcha_required", the [retryAfterMs] computed by
    the consume attempt, and [allowed] = false, where the specification
    keeps it true.  Combined with any results none of which is BLOCKED, the
    decision is CHALLENGE and allowed; it lists the results as they are, so
    the rule's [retryAfterMs] is in its rule result, and its own
    [retryAfterMs] is 0. *)
Theorem evaluateRule_challenge_denied {W : Type} (env : Env W)
    (extractor : KeyExtractor) (rule : Rule.t) (context : Ctx.t)
    (policy : Policy.t) (key : string) (now : Q) (stored : option State.t)
    (w w1 w2 w3 : W) :
  Rule.mode rule = Some challenge ->
  buildKey (Policy.id policy) rule context extractor = Some key ->
  getTime env w = (Ok now, w1) ->
  storeGet env key w1 = (Ok stored, w2) ->
  storeSet env key (Consume.bucketState (attemptFor rule stored now))
    (calculateDefaultTtl rule) w2 = (Ok tt, w3) ->
  Consume.allowed (attemptFor rule stored now) = false ->
  exists r,
    PolicyEngine.evaluateRule env extractor rule context policy w = (Ok r, w3)
    /\ RuleResult.ruleName r = Rule.name rule
    /\ RuleResult.key r = key
    /\ RuleResult.outcome r = CHALLENGE
    /\ RuleResult.allowed r = false
    /\ RuleResult.retryAfterMs r
       = Consume.retryAfterMs (attemptFor rule stored now)
    /\ RuleResult.challenge r = Some "captcha_required"%string
    /\ forall action rs keys, r ∈ rs -> ~ blockedIn rs ->
         let d := combineRuleResults action rs keys in
         Decision.outcome d = CHALLENGE /\ Decision.allowed d = true
         /\ Decision.ruleResults d = rs
         /\ Decision.retryAfterMs d = 0.
Proof.
  intros Hmode Hkey Htime Hget Hset Hdenied.
  eexists. split.
  { rewrite (evaluateRule_evaluated env extractor policy context rule key now
               stored w w1 w2 w3 Hkey Htime Hget Hset).
    rewrite Hdenied, Hmode. reflexivity. }
  simpl. repeat (split; [reflexivity|]).
  intros action rs keys Hin Hnb.
  rewrite combineRuleResults_scan. simpl.
  assert (Hb : Scan.hasBlock (foldl scanResult scanStart rs) = false).
  { destruct (Scan.hasBlock _) eqn:E; [|reflexivity]. exfalso.
    apply scan_hasBlock in E as [E | E]; [discriminate | contradiction]. }
  assert (Hc : Scan.hasChallenge (foldl scanResult scanStart rs) = true).
  { apply scan_hasChallenge. right. eexists. split; [exact Hin | reflexivity]. }
  rewrite Hb, Hc. simpl. repeat split.
  apply (scan_maxRetry_unblocked rs scanStart Hnb).
Qed.

(** C3 on the exhausted bucket of the test suite, over the memory
    store. *)
Lemma evaluateRule_challenge_denied_witness :
  let key := "challenge_action:per_ip:ip=192.168.1.1"%string in
  let ms :=
    MemoryStore.mk [(key, Entry.mk (State.mk 0 0 0 120000) 0)]
      DEFAULT_OPTIONS true false in
  let context := requestFrom (Some "192.168.1.1"%string) in
  Rule.mode challengeRule = Some challenge
  /\ buildKey (Policy.id challengePolicy) challengeRule context
       defaultKeyExtractor = Some key
  /\ Consume.allowed (attemptFor challengeRule (Some (State.mk 0 0 0 120000)) 0)
     = false
  /\ exists r,
       fst (PolicyEngine.evaluateRule memoryEnv defaultKeyExtractor
              challengeRule context challengePolicy (0%Z, ms)) = Ok r
       /\ RuleResult.outcome r = CHALLENGE /\ RuleResult.allowed r = false.
Proof.
  intros key ms context.
  assert (Hmode : Rule.mode challengeRule = Some challenge) by reflexivity.
  assert (Hkey : buildKey (Policy.id challengePolicy) challengeRule context
                   defaultKeyExtractor = Some key) by reflexivity.
  assert (Hdenied : Consume.allowed
            (attemptFor challengeRule (Some (State.mk 0 0 0 120000)) 0) = false)
    by reflexivity.
  split; [exact Hmode|]. split; [exact Hkey|]. split; [exact Hdenied|].
  destruct (evaluateRule_challenge_denied memoryEnv defaultKeyExtractor
              challengeRule context challengePolicy key 0
              (Some (State.mk 0 0 0 120000)) (0%Z, ms)
              (0%Z, ms) (0%Z, ms)
              (0%Z, snd (MemoryStore.set key
                           (Consume.bucketState
                              (attemptFor challengeRule
                                 (Some (State.mk 0 0 0 120000)) 0))
                           (calculateDefaultTtl challengeRule) 0%Z ms))
              Hmode Hkey eq_refl eq_refl eq_refl Hdenied)
    as (r & Hr & _ & _ & Houtcome & Hallowed & _).
  exists r. rewrite Hr. split; [reflexivity|]. split; assumption.
Defined.

(** * Further properties *)

(** ** Token bucket: retry times, bursts, refills *)

Section RefillFacts.
Variable config : Config.t.

Lemma calculateRefillTokens_positive_interval (e : Q) :
  0 < e -> 0 < Config.refillIntervalMs config ->
  calculateRefillTokens e config
  = e / Config.refillIntervalMs config * Config.refillTokens config.
Proof.
  intros He Hi. unfold calculateRefillTokens.
  apply leq_false in He, Hi. now rewrite He, Hi.
Qed.

Lemma calculateRefillTokens_no_interval (e : Q) :
  Config.refillIntervalMs config <= 0 -> calculateRefillTokens e config = 0.
Proof.
  intros Hi. unfold calculateRefillTokens. apply leq_true in Hi.
  rewrite Hi. now rewrite orb_true_r.
Qed.

(** Tokens after a refill, in one formula for both branches. *)
Lemma refillBucket_tokens (state : State.t) (now : Q) :
  State.tokens state <= Config.capacity config ->
  State.tokens (refillBucket state config now)
  == Qmin (Config.capacity config)
       (State.tokens state
        + calculateRefillTokens (now - State.lastRefillTime state) config).
Proof.
  intros Hcap. destruct (Qlt_le_dec 0 (now - State.lastRefillTime state)) as [H | H].
  - rewrite (refillBucket_elapsed state config now H). simpl. apply Math_min_Qmin.
  - rewrite (refillBucket_no_elapsed state config now H).
    assert (E : calculateRefillTokens (now - State.lastRefillTime state) config = 0).
    { unfold calculateRefillTokens. apply leq_true in H. now rewrite H. }
    rewrite E. rewrite Q.min_r; lra.
Qed.

Lemma refillBucket_range (state : State.t) (now : Q) :
  State.tokens state <= Config.capacity config ->
  0 <= Config.refillTokens config ->
  State.tokens state <= State.tokens (refillBucket state config now)
  /\ State.tokens (refillBucket state config now) <= Config.capacity config.
Proof.
  intros Hcap Hrefill. rewrite (refillBucket_tokens state now Hcap).
  pose proof (calculateRefillTokens_nonneg config
                (now - State.lastRefillTime state) Hrefill) as Hadd.
  split; [apply Q.min_glb; lra | apply Q.le_min_l].
Qed.

Lemma consumeTokens_lastRefillTime (state : State.t) (cost now ttlMs : Q) :
  State.lastRefillTime (Consume.bucketState (consumeTokens state config cost now ttlMs))
  = State.lastRefillTime (refillBucket state config now).
Proof. unfold consumeTokens. now destruct (geq _ cost). Qed.

Lemma consumeTokens_denied (state : State.t) (cost now ttlMs : Q) :
  Consume.allowed (consumeTokens state config cost now ttlMs) = false ->
  State.tokens (refillBucket state config now) < cost
  /\ State.tokens (Consume.bucketState (consumeTokens state config cost now ttlMs))
     = State.tokens (refillBucket state config now)
  /\ Consume.retryAfterMs (consumeTokens state config cost now ttlMs)
     = calculateRetryAfterMs (cost - State.tokens (refillBucket state config now))
         config.
Proof.
  unfold consumeTokens. destruct (geq _ cost) eqn:E; simpl; [discriminate|].
  intros _. apply geq_false in E. auto.
Qed.

Lemma consumeTokens_allowed (state : State.t) (cost now ttlMs : Q) :
  Consume.allowed (consumeTokens state config cost now ttlMs) = true
  <-> cost <= State.tokens (refillBucket state config now).
Proof.
  unfold consumeTokens. destruct (geq _ cost) eqn:E; simpl.
  - apply geq_true in E. tauto.
  - apply geq_false in E. split; [discriminate|].
    intros H. exfalso. apply (Qlt_not_le _ _ E H).
Qed.

Lemma consumeTokens_allowed_tokens (state : State.t) (cost now ttlMs : Q) :
  Consume.allowed (consumeTokens state config cost now ttlMs) = true ->
  State.tokens (Consume.bucketState (consumeTokens state config cost now ttlMs))
  = State.tokens (refillBucket state config now) - cost.
Proof. unfold consumeTokens. destruct (geq _ cost); [reflexivity | discriminate]. Qed.
End RefillFacts.

(** X1.  The retry time is never negative, is 0 exactly when no token is
    needed, and does not decrease when more tokens are needed. *)
Theorem calculateRetryAfterMs_monotone (config : Config.t) (n1 n2 : Q) :
  0 <= calculateRetryAfterMs n1 config
  /\ (calculateRetryAfterMs n1 config == 0 <-> n1 <= 0)
  /\ (n1 <= n2 ->
      calculateRetryAfterMs n1 config <= calculateRetryAfterMs n2 config).
Proof.
  split; [apply calculateRetryAfterMs_nonneg|].
  assert (Hpos : forall n, 0 < n -> 0 < calculateRetryAfterMs n config).
  { intros n Hn. unfold calculateRetryAfterMs. apply leq_false in Hn. rewrite Hn.
    apply leq_false in Hn.
    destruct (leq (Config.refillTokens config) 0) eqn:Hr; simpl; [reflexivity|].
    destruct (leq (Config.refillIntervalMs config) 0) eqn:Hi; [reflexivity|].
    apply leq_false in Hr, Hi. unfold Math_ceil.
    eapply Qlt_le_trans; [|apply Qle_ceiling].
    apply Qmult_lt_0_compat; [|exact Hi].
    apply Qlt_shift_div_l; [exact Hr|]. now rewrite Qmult_0_l. }
  split.
  - split.
    + intros Hz. apply Qnot_lt_le. intros Hn. specialize (Hpos n1 Hn).
      rewrite Hz in Hpos. apply (Qlt_irrefl 0 Hpos).
    + intros Hn. unfold calculateRetryAfterMs. apply leq_true in Hn.
      now rewrite Hn.
  - intros Hle. destruct (Qlt_le_dec 0 n1) as [H1 | H1].
    + assert (H2 : 0 < n2) by lra.
      unfold calculateRetryAfterMs. apply leq_false in H1, H2. rewrite H1, H2.
      apply leq_false in H1, H2.
      destruct (leq (Config.refillTokens config) 0) eqn:Hr; simpl; [apply Qle_refl|].
      destruct (leq (Config.refillIntervalMs config) 0) eqn:Hi; [apply Qle_refl|].
      apply leq_false in Hr, Hi. unfold Math_ceil.
      rewrite <- Zle_Qle. apply Qceiling_resp_le.
      apply Qmult_le_compat_r; [|lra].
      apply Qmult_le_compat_r; [exact Hle|].
      apply Qlt_le_weak, Qinv_lt_0_compat, Hr.
    + unfold calculateRetryAfterMs at 1. apply leq_true in H1. rewrite H1.
      apply calculateRetryAfterMs_nonneg.
Qed.

(** X1 on the configuration of the test suite: needing one token costs
    200 ms, needing two costs no less. *)
Lemma calculateRetryAfterMs_monotone_witness :
  1 <= 2
  /\ calculateRetryAfterMs 1 (Config.mk 10 5 1000)
     <= calculateRetryAfterMs 2 (Config.mk 10 5 1000).
Proof.
  assert (H : 1 <= 2) by (vm_compute; discriminate).
  split; [exact H|].
  exact (proj2 (proj2 (calculateRetryAfterMs_monotone (Config.mk 10 5 1000) 1 2)) H).
Defined.

(** X3.  [consumeTokens] keeps the bucket invariant of the data model: from
    0 <= tokens <= capacity, with a refill amount and a cost that are not
    negative, the returned state again has 0 <= tokens <= capacity, and the
    reported remaining tokens are the tokens of that state. *)
Theorem consumeTokens_keeps_invariant (state : State.t) (config : Config.t)
    (cost now ttlMs : Q) :
  0 <= State.tokens state ->
  State.tokens state <= Config.capacity config ->
  0 <= Config.refillTokens config ->
  0 <= cost ->
  let r := consumeTokens state config cost now ttlMs in
  0 <= State.tokens (Consume.bucketState r)
  /\ State.tokens (Consume.bucketState r) <= Config.capacity config
  /\ Consume.remainingTokens r = State.tokens (Consume.bucketState r).
Proof.
  intros H0 Hcap Hrefill Hcost r.
  destruct (refillBucket_range config state now Hcap Hrefill) as [Hlow Hhigh].
  destruct (Consume.allowed r) eqn:E; subst r.
  - pose proof (proj1 (consumeTokens_allowed config state cost now ttlMs) E) as Hle.
    rewrite (consumeTokens_allowed_tokens config state cost now ttlMs E).
    split; [lra|]. split; [lra|].
    unfold consumeTokens in *. destruct (geq _ cost); [reflexivity | discriminate].
  - destruct (consumeTokens_denied config state cost now ttlMs E) as (_ & -> & _).
    split; [lra|]. split; [lra|].
    unfold consumeTokens in *. destruct (geq _ cost); [discriminate | reflexivity].
Qed.

Lemma consumeTokens_keeps_invariant_witness :
  let state := State.mk 3 1000000 999000 1005000 in
  let config := Config.mk 10 5 1000 in
  let r := consumeTokens state config 1 1001000 5000 in
  0 <= State.tokens (Consume.bucketState r)
  /\ State.tokens (Consume.bucketState r) <= 10.
Proof.
  intros state config r.
  destruct (consumeTokens_keeps_invariant state config 1 1001000 5000)
    as (H1 & H2 & _); try (vm_compute; discriminate).
  split; [exact H1 | exact H2].
Defined.

Section Burst.
Variables (config : Config.t) (cost now ttlMs : Q).

Lemma refillBucket_same_instant (state : State.t) :
  State.lastRefillTime state = now -> refillBucket state config now = state.
Proof. intros H. apply refillBucket_no_elapsed. rewrite H. lra. Qed.

Local Abbreviation after n :=
  (consumeRepeatedly n (createBucket config now ttlMs) config cost now ttlMs).

(** After [n] attempts at one instant the bucket has paid for [k <= n] of
    them, and can pay no more if [k < n]. *)
Lemma consumeRepeatedly_invariant (n : nat) :
  0 < cost ->
  State.lastRefillTime (after n) = now
  /\ exists k : nat,
       (k <= n)%nat
       /\ State.tokens (after n)
          == Config.capacity config - inject_Z (Z.of_nat k) * cost
       /\ (k = n \/ State.tokens (after n) < cost).
Proof.
  intros Hcost. induction n as [|n (Hlast & k & Hk & Htok & Hfull)].
  - split; [reflexivity|]. exists O. split; [lia|]. split; [|now left].
    simpl. change (inject_Z (Z.of_nat 0)) with 0. lra.
  - simpl consumeRepeatedly.
    rewrite consumeTokens_lastRefillTime, (refillBucket_same_instant _ Hlast).
    split; [exact Hlast|].
    destruct (Consume.allowed (consumeTokens (after n) config cost now ttlMs)) eqn:E.
    + pose proof (proj1 (consumeTokens_allowed config _ cost now ttlMs) E) as Hle.
      rewrite (consumeTokens_allowed_tokens config _ cost now ttlMs E).
      rewrite (refillBucket_same_instant _ Hlast) in *.
      destruct Hfull as [-> | Hlt]; [|exfalso; apply (Qlt_not_le _ _ Hlt Hle)].
      exists (S n). split; [lia|]. split; [|now left].
      assert (Hs : inject_Z (Z.of_nat (S n)) == inject_Z (Z.of_nat n) + 1).
      { rewrite Nat2Z.inj_succ, <- Z.add_1_r, inject_Z_plus. reflexivity. }
      rewrite Htok, Hs. lra.
    + destruct (consumeTokens_denied config _ cost now ttlMs E) as (Hlt & -> & _).
      rewrite (refillBucket_same_instant _ Hlast) in *.
      exists k. split; [lia|]. split; [exact Htok | now right].
Qed.
End Burst.

Lemma consumeRepeatedly_attempt (config : Config.t) (cost now ttlMs : Q)
    (n : nat) :
  0 < cost ->
  Consume.allowed
    (consumeTokens
       (consumeRepeatedly n (createBucket config now ttlMs) config cost now ttlMs)
       config cost now ttlMs) = true
  <-> inject_Z (Z.of_nat (S n)) * cost <= Config.capacity config.
Proof.
  intros Hcost.
  destruct (consumeRepeatedly_invariant config cost now ttlMs n Hcost)
    as (Hlast & k & Hk & Htok & Hfull).
  set (state := consumeRepeatedly n (createBucket config now ttlMs) config cost
                  now ttlMs) in *.
  assert (Hsucc : inject_Z (Z.of_nat (S n)) == inject_Z (Z.of_nat n) + 1).
  { rewrite Nat2Z.inj_succ, <- Z.add_1_r, inject_Z_plus. reflexivity. }
  assert (Hkn : inject_Z (Z.of_nat k) <= inject_Z (Z.of_nat n))
    by (rewrite <- Zle_Qle; lia).
  rewrite consumeTokens_allowed.
  rewrite (refillBucket_same_instant config now state Hlast), Hsucc. split.
  - intros Hle. destruct Hfull as [-> | Hlt]; [lra|].
    exfalso. apply (Qlt_not_le _ _ Hlt Hle).
  - intros Hle. destruct Hfull as [-> | Hlt]; [lra|].
    assert (Hk1 : inject_Z (Z.of_nat k) + 1 <= inject_Z (Z.of_nat n)).
    { assert (k = n \/ (S k <= n)%nat) as [-> | Hlt'] by lia.
      - exfalso. lra.
      - apply Qle_trans with (inject_Z (Z.of_nat k + 1)).
        + rewrite inject_Z_plus. apply Qle_refl.
        + rewrite <- Zle_Qle. lia. }
    assert (Hmul : (inject_Z (Z.of_nat k) + 1) * cost
                   <= inject_Z (Z.of_nat n) * cost)
      by (apply Qmult_le_compat_r; lra).
    lra.
Qed.

Lemma consumeRepeatedly_remaining (config : Config.t) (cost now ttlMs : Q)
    (n : nat) :
  0 < cost ->
  let attempt :=
    consumeTokens
      (consumeRepeatedly n (createBucket config now ttlMs) config cost now ttlMs)
      config cost now ttlMs in
  Consume.allowed attempt = true ->
  Consume.remainingTokens attempt
  == Config.capacity config - inject_Z (Z.of_nat (S n)) * cost.
Proof.
  intros Hcost attempt E.
  destruct (consumeRepeatedly_invariant config cost now ttlMs n Hcost)
    as (Hlast & k & Hk & Htok & Hfull).
  set (state := consumeRepeatedly n (createBucket config now ttlMs) config cost
                  now ttlMs) in *.
  assert (Hsucc : inject_Z (Z.of_nat (S n)) == inject_Z (Z.of_nat n) + 1).
  { rewrite Nat2Z.inj_succ, <- Z.add_1_r, inject_Z_plus. reflexivity. }
  assert (Hle : cost <= State.tokens state).
  { apply (consumeTokens_allowed config state cost now ttlMs) in E.
    now rewrite (refillBucket_same_instant config now state Hlast) in E. }
  destruct Hfull as [-> | Hlt]; [|exfalso; apply (Qlt_not_le _ _ Hlt Hle)].
  assert (Hrem : Consume.remainingTokens attempt = State.tokens state - cost).
  { unfold attempt, consumeTokens in *.
    rewrite (refillBucket_same_instant config now state Hlast) in *.
    destruct (geq (State.tokens state) cost); [reflexivity | discriminate]. }
  rewrite Hrem, Htok, Hsucc. lra.
Qed.

(** X5.  Burst limit, for whole tokens.  With a capacity that is an integer
    of magnitude at most 2^53 and a cost that is a positive integer (so
    that every token count is an integer that binary64 holds exactly),
    starting from a new bucket and asking repeatedly for the same cost at
    one instant, attempt number n + 1 is allowed exactly when
    (n + 1) * cost <= capacity, and it then leaves
    capacity - (n + 1) * cost tokens. *)
Theorem burst_is_capacity (config : Config.t) (now ttlMs : Q)
    (capacity cost : Z) (n : nat) :
  Config.capacity config = inject_Z capacity ->
  (Z.abs capacity <= 2 ^ 53)%Z ->
  (1 <= cost)%Z ->
  let attempt :=
    consumeTokens
      (consumeRepeatedly n (createBucket config now ttlMs) config
         (inject_Z cost) now ttlMs)
      config (inject_Z cost) now ttlMs in
  (Consume.allowed attempt = true <-> (Z.of_nat (S n) * cost <= capacity)%Z)
  /\ (Consume.allowed attempt = true ->
      Consume.remainingTokens attempt
      == inject_Z (capacity - Z.of_nat (S n) * cost)).
Proof.
  intros Hcapacity _ Hcost attempt.
  assert (Hpos : 0 < inject_Z cost).
  { apply Qlt_le_trans with (inject_Z 1); [reflexivity|]. now rewrite <- Zle_Qle. }
  pose proof (consumeRepeatedly_attempt config (inject_Z cost) now ttlMs n Hpos)
    as Hiff.
  fold attempt in Hiff. rewrite Hcapacity, <- inject_Z_mult, <- Zle_Qle in Hiff.
  split; [exact Hiff|].
  intros E.
  eapply Qeq_trans;
    [exact (consumeRepeatedly_remaining config (inject_Z cost) now ttlMs n Hpos E)|].
  rewrite Hcapacity. unfold Zminus.
  rewrite inject_Z_plus, inject_Z_opp, inject_Z_mult. lra.
Qed.

(** X5 at scenario A of the specification: capacity 10, cost 1; the tenth
    attempt is allowed and the eleventh is not. *)
Lemma burst_is_capacity_witness :
  let config := Config.mk 10 5 1000 in
  Config.capacity config = inject_Z 10
  /\ (Z.abs 10 <= 2 ^ 53)%Z
  /\ (1 <= 1)%Z
  /\ Consume.allowed
       (consumeTokens
          (consumeRepeatedly 9 (createBucket config 0 4000) config (inject_Z 1)
             0 4000)
          config (inject_Z 1) 0 4000) = true
  /\ Consume.allowed
       (consumeTokens
          (consumeRepeatedly 10 (createBucket config 0 4000) config (inject_Z 1)
             0 4000)
          config (inject_Z 1) 0 4000) = false.
Proof.
  intros config.
  assert (Hcapacity : Config.capacity config = inject_Z 10) by reflexivity.
  assert (Hsafe : (Z.abs 10 <= 2 ^ 53)%Z) by (vm_compute; discriminate).
  assert (Hcost : (1 <= 1)%Z) by lia.
  split; [exact Hcapacity|]. split; [exact Hsafe|]. split; [exact Hcost|].
  split.
  - apply (proj1 (burst_is_capacity config 0 4000 10 1 9 Hcapacity Hsafe Hcost)).
    vm_compute. discriminate.
  - destruct (Consume.allowed _) eqn:E; [|reflexivity].
    apply (proj1 (burst_is_capacity config 0 4000 10 1 10 Hcapacity Hsafe Hcost))
      in E.
    vm_compute in E. exfalso. apply E. reflexivity.
Defined.

Lemma rate_monotone (a b interval amount : Q) :
  0 < interval -> 0 <= amount -> a <= b ->
  a / interval * amount <= b / interval * amount.
Proof.
  intros Hi Ha Hab. apply Qmult_le_compat_r; [|exact Ha].
  apply Qmult_le_compat_r; [exact Hab|].
  apply Qlt_le_weak, Qinv_lt_0_compat, Hi.
Qed.

(** X6.  Expiry under the default TTL loses nothing.  For a rule without an
    explicit [ttlMs] and with positive refill amount and interval, a bucket
    within 0 <= tokens <= capacity whose expiry lies at least the default
    TTL after its last refill would, once expired, refill to full
    capacity; so the new full bucket that [evaluateRule] puts in its place
    admits exactly the requests the refilled old one would. *)
Theorem expiry_is_lossless (rule : Rule.t) (state : State.t) (now : Q) :
  Rule.ttlMs rule = None ->
  0 < Rule.refillTokens rule ->
  0 < Rule.refillIntervalMs rule ->
  0 <= State.tokens state ->
  State.tokens state <= Rule.capacity rule ->
  State.lastRefillTime state + calculateDefaultTtl rule <= State.expiresAt state ->
  isBucketExpired state now = true ->
  State.tokens (refillBucket state (ruleToConfig rule) now) == Rule.capacity rule
  /\ State.tokens (bucketFor rule (Some state) now) = Rule.capacity rule
  /\ Consume.allowed (attemptFor rule (Some state) now)
     = Consume.allowed
         (consumeTokens state (ruleToConfig rule) (default 1 (Rule.cost rule))
            now (calculateDefaultTtl rule)).
Proof.
  intros Httl Hrt Hri H0 Hcap Hexp Hexpired.
  set (config := ruleToConfig rule).
  set (cap := Rule.capacity rule) in *.
  set (rt := Rule.refillTokens rule) in *.
  set (ri := Rule.refillIntervalMs rule) in *.
  assert (Hdefault : cap / rt * ri * 2 <= calculateDefaultTtl rule).
  { unfold calculateDefaultTtl. rewrite Httl. apply Qle_ceiling. }
  unfold isBucketExpired in Hexpired. apply geq_true in Hexpired.
  set (elapsed := now - State.lastRefillTime state).
  assert (Helapsed : cap / rt * ri * 2 <= elapsed) by (unfold elapsed; lra).
  assert (Hrate : 2 * cap <= elapsed / ri * rt).
  { assert (E : 2 * cap == cap / rt * ri * 2 / ri * rt) by (field; split; lra).
    rewrite E. apply rate_monotone; lra. }
  assert (Hfull : State.tokens (refillBucket state config now) == cap).
  { rewrite (refillBucket_tokens config state now Hcap). fold elapsed.
    change (Config.capacity config) with cap.
    destruct (Qlt_le_dec 0 elapsed) as [Hpos | Hneg].
    - rewrite (calculateRefillTokens_positive_interval config elapsed Hpos Hri).
      change (Config.refillIntervalMs config) with ri.
      change (Config.refillTokens config) with rt.
      apply Q.min_l. lra.
    - assert (Hsign : elapsed / ri * rt <= 0 / ri * rt)
        by (apply rate_monotone; lra).
      assert (Hz : 0 / ri * rt == 0) by (field; lra).
      assert (E : calculateRefillTokens elapsed config = 0).
      { unfold calculateRefillTokens. apply leq_true in Hneg. now rewrite Hneg. }
      rewrite E. rewrite Q.min_r by lra. lra. }
  split; [exact Hfull|].
  assert (Hexpired' : isBucketExpired state now = true)
    by (unfold isBucketExpired; now apply geq_true).
  split.
  - unfold bucketFor. now rewrite Hexpired'.
  - unfold attemptFor, bucketFor. rewrite Hexpired'. fold config.
    set (cost := default 1 (Rule.cost rule)).
    set (ttl := calculateDefaultTtl rule).
    destruct (Consume.allowed (consumeTokens state config cost now ttl)) eqn:E.
    + apply consumeTokens_allowed. apply consumeTokens_allowed in E.
      rewrite (refillBucket_same_instant config now (createBucket config now ttl) eq_refl).
      simpl. fold cap. lra.
    + destruct (Consume.allowed (consumeTokens (createBucket config now ttl)
                                   config cost now ttl)) eqn:E'; [|reflexivity].
      apply consumeTokens_allowed in E'.
      rewrite (refillBucket_same_instant config now (createBucket config now ttl) eq_refl)
        in E'. simpl in E'. fold cap in E'.
      destruct (consumeTokens_denied config state cost now ttl E) as (Hlt & _).
      exfalso. lra.
Qed.

(** X6 on a default-like rule (3 tokens per minute, default TTL of two
    minutes): an empty bucket last refilled at 0 and expiring at 120000 is,
    at 120000, as good as new. *)
Lemma expiry_is_lossless_witness :
  let rule := Rule.mk "per_ip" ["ip"%string] 3 3 60000 None None None in
  let state := State.mk 0 0 0 120000 in
  calculateDefaultTtl rule = inject_Z 120000
  /\ isBucketExpired state 120000 = true
  /\ State.tokens (refillBucket state (ruleToConfig rule) 120000) == 3.
Proof.
  intros rule state.
  split; [reflexivity|]. split; [reflexivity|].
  apply (expiry_is_lossless rule state 120000); try reflexivity;
    vm_compute; discriminate.
Defined.

(** ** Decisions: coherence, order, growth *)

Lemma combineRuleResults_outcome (action : string) (rs : list RuleResult.t)
    (keys : gmap string string) :
  let d := combineRuleResults action rs keys in
  (Decision.outcome d = BLOCKED <-> blockedIn rs)
  /\ (Decision.outcome d = CHALLENGE <-> ~ blockedIn rs /\ challengeIn rs)
  /\ (Decision.outcome d = ALLOWED <-> ~ blockedIn rs /\ ~ challengeIn rs)
  /\ Decision.allowed d = negb (Scan.hasBlock (foldl scanResult scanStart rs))
  /\ (Decision.allowed d = false <-> blockedIn rs).
Proof.
  intros d. subst d. rewrite combineRuleResults_scan. simpl.
  pose proof (scan_hasBlock rs scanStart) as Hb.
  pose proof (scan_hasChallenge rs scanStart) as Hc.
  simpl in Hb, Hc.
  destruct (Scan.hasBlock (foldl scanResult scanStart rs)) eqn:Eb;
    destruct (Scan.hasChallenge (foldl scanResult scanStart rs)) eqn:Ec;
    simpl; repeat split; try discriminate; try tauto;
    try (intros _; tauto);
    try (intros H; exfalso; intuition discriminate);
    intuition (try discriminate).
Qed.

(** X7.  Every way of making a decision (combining rule results, the error
    and missing-dimension fallbacks, the plain allowed and blocked
    decisions, and [check] itself over any store) yields a decision that is
    rejected exactly when its outcome is BLOCKED: a CHALLENGE is never
    rejected. *)
Theorem decisions_reject_only_blocked :
  (forall action rs keys, rejectsOnlyBlocked (combineRuleResults action rs keys))
  /\ (forall action failMode message,
        rejectsOnlyBlocked (createErrorDecision action failMode message))
  /\ (forall action ruleName missing failMode,
        rejectsOnlyBlocked
          (createMissingDimensionDecision action ruleName missing failMode))
  /\ (forall action, rejectsOnlyBlocked (createAllowedDecision action))
  /\ (forall action retry reason,
        rejectsOnlyBlocked (createBlockedDecision action retry reason))
  /\ (forall (W : Type) (env : Env W) policies extractor context (w : W),
        rejectsOnlyBlocked
          (fst (PolicyEngine.check env policies extractor context w))).
Proof.
  assert (Hcombine : forall action rs keys,
            rejectsOnlyBlocked (combineRuleResults action rs keys)).
  { intros action rs keys. unfold rejectsOnlyBlocked.
    destruct (combineRuleResults_outcome action rs keys) as (H1 & _ & _ & _ & H5).
    rewrite H1, H5. reflexivity. }
  assert (Herror : forall action failMode message,
            rejectsOnlyBlocked (createErrorDecision action failMode message)).
  { intros action [] message; unfold rejectsOnlyBlocked; simpl;
      split; congruence. }
  split; [exact Hcombine|]. split; [exact Herror|].
  split; [|split; [|split]].
  - intros action ruleName missing []; unfold rejectsOnlyBlocked; simpl;
      split; congruence.
  - intros action. unfold rejectsOnlyBlocked. simpl. split; congruence.
  - intros action retry reason. unfold rejectsOnlyBlocked. simpl. tauto.
  - intros W env policies extractor context w. unfold PolicyEngine.check.
    destruct (policies !! Ctx.action context) as [policy|].
    + unfold PolicyEngine.evaluatePolicy, bind.
      destruct (PolicyEngine.evaluateRules env extractor policy context
                  (Policy.rules policy) [] ∅ w) as [[[rs keys] | message] w'];
        simpl; [apply Hcombine | apply Herror].
    + simpl. unfold rejectsOnlyBlocked. simpl. split; congruence.
Qed.

Lemma combineRuleResults_same_outcome (action action' : string)
    (rs rs' : list RuleResult.t) (keys keys' : gmap string string) :
  (blockedIn rs <-> blockedIn rs') -> (challengeIn rs <-> challengeIn rs') ->
  Decision.outcome (combineRuleResults action rs keys)
  = Decision.outcome (combineRuleResults action' rs' keys')
  /\ Decision.allowed (combineRuleResults action rs keys)
     = Decision.allowed (combineRuleResults action' rs' keys').
Proof.
  intros Hb Hc.
  destruct (combineRuleResults_outcome action rs keys) as (B & C & A & _ & N).
  destruct (combineRuleResults_outcome action' rs' keys') as (B' & C' & A' & _ & N').
  split.
  - destruct (Decision.outcome (combineRuleResults action rs keys));
      destruct (Decision.outcome (combineRuleResults action' rs' keys'));
      try reflexivity; exfalso;
      repeat match goal with
             | H : ?x = ?x <-> _ |- _ => pose proof (proj1 H eq_refl); clear H
             end; tauto.
  - destruct (Decision.allowed (combineRuleResults action rs keys));
      destruct (Decision.allowed (combineRuleResults action' rs' keys'));
      try reflexivity; exfalso;
      repeat match goal with
             | H : ?x = ?x <-> _ |- _ => pose proof (proj1 H eq_refl); clear H
             end.
    + assert (blockedIn rs) by tauto. assert (true = false) by tauto. discriminate.
    + assert (blockedIn rs') by tauto. assert (true = false) by tauto. discriminate.
Qed.

Lemma combineRuleResults_retry (action : string) (rs : list RuleResult.t)
    (keys : gmap string string) :
  Decision.retryAfterMs (combineRuleResults action rs keys)
  = Scan.maxRetryAfterMs (foldl scanResult scanStart rs).
Proof. now rewrite combineRuleResults_scan. Qed.

(** X8.  The combination does not depend on the order of the rules as far
    as the outcome, the allowed flag and the retry time go: permuting the
    rule results changes none of them.  (The challenge hint is the first one
    in list order and does depend on it.) *)
Theorem combineRuleResults_order_independent (action : string)
    (rs rs' : list RuleResult.t) (keys : gmap string string) :
  rs ≡ₚ rs' ->
  let d := combineRuleResults action rs keys in
  let d' := combineRuleResults action rs' keys in
  Decision.outcome d = Decision.outcome d'
  /\ Decision.allowed d = Decision.allowed d'
  /\ Decision.retryAfterMs d == Decision.retryAfterMs d'.
Proof.
  intros Hperm d d'.
  assert (Hin : forall r, r ∈ rs <-> r ∈ rs') by (intros r; now rewrite Hperm).
  assert (Hb : blockedIn rs <-> blockedIn rs').
  { unfold blockedIn. split; intros (r & Hr & Ho); exists r; split; auto;
      now apply Hin. }
  assert (Hc : challengeIn rs <-> challengeIn rs').
  { unfold challengeIn. split; intros (r & Hr & Ho); exists r; split; auto;
      now apply Hin. }
  destruct (combineRuleResults_same_outcome action action rs rs' keys keys Hb Hc)
    as [Ho Ha].
  split; [exact Ho|]. split; [exact Ha|].
  subst d d'. rewrite !combineRuleResults_retry.
  destruct (scan_maxRetry rs scanStart) as (Hge & Hub & Hatt).
  destruct (scan_maxRetry rs' scanStart) as (Hge' & Hub' & Hatt').
  simpl in *. apply Qle_antisym.
  - destruct Hatt as [-> | (r & Hr & Hbl & ->)]; [exact Hge'|].
    apply Hub'; [now apply Hin | exact Hbl].
  - destruct Hatt' as [-> | (r & Hr & Hbl & ->)]; [exact Hge|].
    apply Hub; [now apply Hin | exact Hbl].
Qed.

Lemma combineRuleResults_order_independent_witness :
  let a := RuleResult.mk "per_ip" "k1" false BLOCKED 10000 0 None in
  let b := RuleResult.mk "per_email" "k2" false BLOCKED 30000 0 None in
  [a; b] ≡ₚ [b; a]
  /\ Decision.retryAfterMs (combineRuleResults "login" [a; b] ∅)
     == Decision.retryAfterMs (combineRuleResults "login" [b; a] ∅).
Proof.
  intros a b.
  assert (Hperm : [a; b] ≡ₚ [b; a]) by apply Permutation_swap.
  split; [exact Hperm|].
  exact (proj2 (proj2 (combineRuleResults_order_independent "login" [a; b] [b; a]
                         ∅ Hperm))).
Defined.

(** X9.  Adding rule results never relaxes a decision: the outcome of the
    longer list is at least as restrictive, its retry time at least as
    long, and if it is allowed then so was the shorter one. *)
Theorem combineRuleResults_grows (action : string)
    (rs more : list RuleResult.t) (keys keys' : gmap string string) :
  let d := combineRuleResults action rs keys in
  let d' := combineRuleResults action (rs ++ more) keys' in
  (severity (Decision.outcome d) <= severity (Decision.outcome d'))%nat
  /\ Decision.retryAfterMs d <= Decision.retryAfterMs d'
  /\ (Decision.allowed d' = true -> Decision.allowed d = true).
Proof.
  intros d d'.
  assert (Hb : blockedIn rs -> blockedIn (rs ++ more)).
  { intros (r & Hr & Ho). exists r. split; [|exact Ho].
    apply elem_of_app. now left. }
  assert (Hc : challengeIn rs -> challengeIn (rs ++ more)).
  { intros (r & Hr & Ho). exists r. split; [|exact Ho].
    apply elem_of_app. now left. }
  destruct (combineRuleResults_outcome action rs keys) as (B & C & A & _ & N).
  destruct (combineRuleResults_outcome action (rs ++ more) keys')
    as (B' & C' & A' & _ & N').
  fold d in B, C, A, N. fold d' in B', C', A', N'.
  split; [|split].
  - destruct (Decision.outcome d); destruct (Decision.outcome d'); simpl;
      try lia; exfalso;
      repeat match goal with
             | H : ?x = ?x <-> _ |- _ => pose proof (proj1 H eq_refl); clear H
             end; tauto.
  - subst d d'. rewrite !combineRuleResults_retry, foldl_app.
    apply (scan_maxRetry more).
  - intros Ha. destruct (Decision.allowed d); [reflexivity|].
    assert (Hbl : blockedIn (rs ++ more)) by (apply Hb; tauto).
    apply N' in Hbl. congruence.
Qed.

(** ** Policy engine: what every evaluation produces *)

Section EngineFacts.
Context {W : Type}.
Variables (env : Env W) (extractor : KeyExtractor).
Variables (policy : Policy.t) (context : Ctx.t).

Local Abbreviation evaluateRule := (PolicyEngine.evaluateRule env extractor).
Local Abbreviation evaluateRules :=
  (PolicyEngine.evaluateRules env extractor policy context).

(** A rule that evaluates without exception was either skipped, leaving the
    world alone, or ran time provider, [get], consume and [set]. *)
Lemma evaluateRule_inversion (rule : Rule.t) (r : RuleResult.t) (w w' : W) :
  evaluateRule rule context policy w = (Ok r, w') ->
  (buildKey (Policy.id policy) rule context extractor = None
   /\ r = PolicyEngine.skippedResult rule /\ w' = w)
  \/ exists key now stored w1 w2,
       buildKey (Policy.id policy) rule context extractor = Some key
       /\ getTime env w = (Ok now, w1)
       /\ storeGet env key w1 = (Ok stored, w2)
       /\ storeSet env key (Consume.bucketState (attemptFor rule stored now))
            (calculateDefaultTtl rule) w2 = (Ok tt, w')
       /\ r = resultOf rule key (attemptFor rule stored now).
Proof.
  unfold PolicyEngine.evaluateRule.
  destruct (buildKey (Policy.id policy) rule context extractor) as [key|] eqn:Hkey.
  - intros H. right. unfold bind at 1 in H.
    destruct (getTime env w) as [[now | e] w1] eqn:Htime; [|discriminate].
    unfold bind at 1 in H.
    destruct (storeGet env key w1) as [[stored | e] w2] eqn:Hget; [|discriminate].
    unfold bind at 1 in H.
    fold (bucketFor rule stored now) in H. fold (attemptFor rule stored now) in H.
    destruct (storeSet env key (Consume.bucketState (attemptFor rule stored now))
                (calculateDefaultTtl rule) w2) as [[[] | e] w3] eqn:Hset;
      [|discriminate].
    injection H as <- <-.
    exists key, now, stored, w1, w2. repeat split; auto.
  - intros [= <- <-]. left. auto.
Qed.

Lemma evaluateRule_resultFor (rule : Rule.t) (r : RuleResult.t) (w w' : W) :
  evaluateRule rule context policy w = (Ok r, w') ->
  resultFor extractor policy context rule r.
Proof.
  intros H. unfold resultFor.
  destruct (evaluateRule_inversion rule r w w' H)
    as [(-> & -> & _) | (key & now & stored & w1 & w2 & -> & _ & _ & _ & ->)];
    split; reflexivity.
Qed.

Lemma evaluateRules_results (rules : list Rule.t) :
  forall acc keys rs keys' (w w' : W),
    evaluateRules rules acc keys w = (Ok (rs, keys'), w') ->
    exists new,
      rs = acc ++ new
      /\ Forall2 (fun rule r => exists w1 w2,
                    evaluateRule rule context policy w1 = (Ok r, w2)) rules new.
Proof.
  induction rules as [|rule rest IH]; intros acc keys rs keys' w w' H; simpl in H.
  - injection H as <- <- <-. exists []. split; [now rewrite app_nil_r | constructor].
  - unfold bind at 1 in H.
    destruct (evaluateRule rule context policy w) as [[r | e] w1] eqn:Hr;
      [|discriminate].
    destruct (IH _ _ _ _ _ _ H) as (new & -> & Hall).
    exists (r :: new). split; [now rewrite <- app_assoc|].
    constructor; [|exact Hall]. eauto.
Qed.
End EngineFacts.

Lemma recordingEnv_evaluateRule (extractor : KeyExtractor) (policy : Policy.t)
    (context : Ctx.t) (rule : Rule.t) (w : list StoreCall) :
  exists r,
    PolicyEngine.evaluateRule recordingEnv extractor rule context policy w
    = (Ok r, w ++ callsOf extractor policy context rule).
Proof.
  unfold PolicyEngine.evaluateRule, callsOf.
  destruct (buildKey (Policy.id policy) rule context extractor) as [key|].
  - eexists. unfold bind, recordingEnv. simpl. rewrite <- app_assoc. reflexivity.
  - eexists. unfold ret. now rewrite app_nil_r.
Qed.

(** X10.  No short circuit.  When no store operation throws, the decision
    of [evaluatePolicy] holds one result per rule of the policy, in the
    policy's order, each under its rule's name and key ("skipped" without
    one), whatever the outcomes of the rules before it.  Over a store that
    records its calls, every rule whose key can be built does its [get] and
    [set], also after a rule that blocked. *)
Theorem evaluatePolicy_evaluates_every_rule :
  (forall (W : Type) (env : Env W) extractor policy context (w w' : W) d,
      PolicyEngine.evaluatePolicy env extractor policy context w = (Ok d, w') ->
      Decision.action d = Policy.id policy
      /\ length (Decision.ruleResults d) = length (Policy.rules policy)
      /\ Forall2 (resultFor extractor policy context)
           (Policy.rules policy) (Decision.ruleResults d))
  /\ (forall extractor policy context (w : list StoreCall),
        exists d,
          PolicyEngine.evaluatePolicy recordingEnv extractor policy context w
          = (Ok d, w ++ concat (callsOf extractor policy context
                                  <$> Policy.rules policy))).
Proof.
  split.
  - intros W env extractor policy context w w' d H.
    unfold PolicyEngine.evaluatePolicy, bind in H.
    destruct (PolicyEngine.evaluateRules env extractor policy context
                (Policy.rules policy) [] ∅ w) as [[[rs keys] | e] w1] eqn:E;
      [|discriminate].
    injection H as <- <-.
    destruct (evaluateRules_results env extractor policy context _ _ _ _ _ _ _ E)
      as (new & -> & Hall).
    rewrite combineRuleResults_scan. simpl.
    assert (Hfor : Forall2 (resultFor extractor policy context)
                     (Policy.rules policy) new).
    { eapply Forall2_impl; [exact Hall|].
      intros rule r (w1' & w2' & Hr).
      eapply evaluateRule_resultFor; eauto. }
    split; [reflexivity|]. split; [|exact Hfor].
    symmetry. eapply Forall2_length; eauto.
  - intros extractor policy context w.
    unfold PolicyEngine.evaluatePolicy.
    assert (Hrules : forall rules acc keys (w0 : list StoreCall),
              exists rs keys',
                PolicyEngine.evaluateRules recordingEnv extractor policy context
                  rules acc keys w0
                = (Ok (rs, keys'),
                   w0 ++ concat (callsOf extractor policy context <$> rules))).
    { induction rules as [|rule rest IH]; intros acc keys w0; simpl.
      - eexists. eexists. unfold ret. now rewrite app_nil_r.
      - destruct (recordingEnv_evaluateRule extractor policy context rule w0)
          as (r & Hr).
        unfold bind at 1. rewrite Hr.
        edestruct IH as (rs & keys' & ->).
        eexists. eexists. now rewrite <- app_assoc. }
    destruct (Hrules (Policy.rules policy) [] ∅ w) as (rs & keys' & Hrs).
    unfold bind. rewrite Hrs. eexists. reflexivity.
Qed.

(** X10 on a policy whose first rule always blocks: the second rule is
    evaluated all the same, and the store sees both rules. *)
Lemma evaluatePolicy_evaluates_every_rule_witness :
  exists d,
    PolicyEngine.evaluatePolicy recordingEnv defaultKeyExtractor strictPolicy
      loginRequest []
    = (Ok d, [GetCalled "login:per_ip:ip=10.0.0.1";
              SetCalled "login:per_ip:ip=10.0.0.1";
              GetCalled "login:per_email:emailHash=ab12";
              SetCalled "login:per_email:emailHash=ab12"])
    /\ length (Decision.ruleResults d) = 2%nat.
Proof.
  destruct evaluatePolicy_evaluates_every_rule as [Hall Hrec].
  destruct (Hrec defaultKeyExtractor strictPolicy loginRequest []) as (d & Hd).
  exists d. split; [exact Hd|].
  exact (proj1 (proj2 (Hall _ recordingEnv defaultKeyExtractor strictPolicy
                         loginRequest _ _ d Hd))).
Defined.

Lemma calculateRetryAfterMs_positive (config : Config.t) (needed : Q) :
  0 < needed -> 0 < calculateRetryAfterMs needed config.
Proof.
  intros Hn. unfold calculateRetryAfterMs. apply leq_false in Hn. rewrite Hn.
  apply leq_false in Hn.
  destruct (leq (Config.refillTokens config) 0) eqn:Hr; simpl; [reflexivity|].
  destruct (leq (Config.refillIntervalMs config) 0) eqn:Hi; [reflexivity|].
  apply leq_false in Hr, Hi. unfold Math_ceil.
  eapply Qlt_le_trans; [|apply Qle_ceiling].
  apply Qmult_lt_0_compat; [|exact Hi].
  apply Qlt_shift_div_l; [exact Hr|]. now rewrite Qmult_0_l.
Qed.

Lemma consumeTokens_retry (state : State.t) (config : Config.t)
    (cost now ttlMs : Q) :
  let c := consumeTokens state config cost now ttlMs in
  (Consume.allowed c = true -> Consume.retryAfterMs c = 0)
  /\ (Consume.allowed c = false -> 0 < Consume.retryAfterMs c).
Proof.
  intros c. split.
  - subst c. unfold consumeTokens. destruct (geq _ cost); [reflexivity | discriminate].
  - intros H. destruct (consumeTokens_denied config state cost now ttlMs H)
      as (Hlt & _ & Hretry).
    fold c in Hretry. rewrite Hretry. apply calculateRetryAfterMs_positive. lra.
Qed.

Lemma resultOf_engineResult (rule : Rule.t) (key : string)
    (stored : option State.t) (now : Q) :
  engineResult (resultOf rule key (attemptFor rule stored now)).
Proof.
  unfold attemptFor.
  destruct (consumeTokens_retry (bucketFor rule stored now) (ruleToConfig rule)
              (default 1 (Rule.cost rule)) now (calculateDefaultTtl rule))
    as [Hzero Hpos].
  unfold engineResult, resultOf. simpl.
  destruct (Consume.allowed _) eqn:E; simpl.
  - repeat split; auto; try discriminate; try congruence.
  - specialize (Hpos eq_refl).
    destruct (default block (Rule.mode rule)); simpl;
      repeat split; auto; try discriminate; try congruence.
Qed.

Lemma skippedResult_engineResult (rule : Rule.t) :
  engineResult (PolicyEngine.skippedResult rule).
Proof.
  unfold engineResult, PolicyEngine.skippedResult. simpl.
  repeat split; auto; try discriminate; try congruence.
Qed.

Lemma firstChallengeHint_engine (rs : list RuleResult.t) :
  Forall engineResult rs -> challengeIn rs ->
  firstChallengeHint rs = Some "captcha_required"%string.
Proof.
  induction 1 as [|r rs Hr Hrs IH]; intros (x & Hx & Ho).
  - inversion Hx.
  - destruct Hr as (_ & _ & _ & Hhint & _).
    change (firstChallengeHint (r :: rs))
      with (match RuleResult.outcome r, nonEmptyHint (RuleResult.challenge r) with
            | CHALLENGE, Some h => Some h
            | _, _ => firstChallengeHint rs
            end).
    destruct (RuleResult.outcome r) eqn:E.
    + apply IH.
      apply elem_of_cons in Hx as [-> | Hx]; [congruence|]. exists x. auto.
    + apply IH.
      apply elem_of_cons in Hx as [-> | Hx]; [congruence|]. exists x. auto.
    + now rewrite (Hhint eq_refl).
Qed.

(** X11.  What the engine's decisions tell the caller.  When no store
    operation throws, every rule result of the decision is allowed exactly
    when its outcome is ALLOWED, asks for no wait when ALLOWED and for a
    positive wait otherwise.  A BLOCKED decision asks for a positive wait,
    which is the longest wait among its BLOCKED rules; any other decision
    asks for none; and a CHALLENGE decision carries the hint
    "captcha_required". *)
Theorem evaluatePolicy_decision_facts {W : Type} (env : Env W)
    (extractor : KeyExtractor) (policy : Policy.t) (context : Ctx.t)
    (w w' : W) (d : Decision.t) :
  PolicyEngine.evaluatePolicy env extractor policy context w = (Ok d, w') ->
  Forall engineResult (Decision.ruleResults d)
  /\ (Decision.outcome d = BLOCKED ->
      0 < Decision.retryAfterMs d
      /\ (exists r, r ∈ Decision.ruleResults d
                    /\ RuleResult.outcome r = BLOCKED
                    /\ Decision.retryAfterMs d = RuleResult.retryAfterMs r)
      /\ forall r, r ∈ Decision.ruleResults d -> RuleResult.outcome r = BLOCKED ->
                   RuleResult.retryAfterMs r <= Decision.retryAfterMs d)
  /\ (Decision.outcome d <> BLOCKED -> Decision.retryAfterMs d = 0)
  /\ (Decision.outcome d = CHALLENGE ->
      Decision.challenge d = Some "captcha_required"%string).
Proof.
  intros H. unfold PolicyEngine.evaluatePolicy, bind in H.
  destruct (PolicyEngine.evaluateRules env extractor policy context
              (Policy.rules policy) [] ∅ w) as [[[rs keys] | e] w1] eqn:E;
    [|discriminate].
  injection H as <- <-.
  destruct (evaluateRules_results env extractor policy context _ _ _ _ _ _ _ E)
    as (new & -> & Hall).
  simpl fst. simpl snd. simpl app.
  assert (Hfacts : Forall engineResult new).
  { clear E. induction Hall as [|rule r rules new (w1' & w2' & Hr) _ IH];
      constructor; [|exact IH].
    destruct (evaluateRule_inversion env extractor policy context rule r w1' w2' Hr)
      as [(_ & -> & _) | (key & now & stored & _ & _ & _ & _ & _ & _ & ->)].
    - apply skippedResult_engineResult.
    - apply resultOf_engineResult. }
  destruct (combineRuleResults_outcome (Policy.id policy) new keys)
    as (B & C & A & _ & _).
  assert (Hresults : Decision.ruleResults
                       (combineRuleResults (Policy.id policy) new keys) = new)
    by (now rewrite combineRuleResults_scan).
  rewrite Hresults.
  destruct (scan_maxRetry new scanStart) as (Hge & Hub & Hatt).
  rewrite <- (combineRuleResults_retry (Policy.id policy) new keys) in Hge, Hub, Hatt.
  simpl in Hge, Hatt.
  split; [exact Hfacts|]. split; [|split].
  - intros Hblocked. apply B in Hblocked. destruct Hblocked as (b & Hb & Hob).
    assert (Hpos : 0 < RuleResult.retryAfterMs b).
    { rewrite Forall_forall in Hfacts.
      destruct (Hfacts b Hb) as (_ & _ & Hp & _). apply Hp. congruence. }
    pose proof (Hub b Hb Hob) as Hle.
    split; [lra|]. split; [|exact Hub].
    destruct Hatt as [Hz | Hex]; [|exact Hex].
    exfalso. rewrite Hz in Hle. lra.
  - intros Hnb. rewrite combineRuleResults_retry.
    apply (scan_maxRetry_unblocked new scanStart). intros Hbl. apply Hnb, B, Hbl.
  - intros Hch. apply C in Hch. destruct Hch as [_ Hch].
    rewrite combineRuleResults_scan. simpl.
    pose proof (scan_challengeHint new scanStart) as Hh. simpl in Hh.
    rewrite Hh. now apply firstChallengeHint_engine.
Qed.

(** X11 on the policy whose first rule always blocks, over the memory
    store: the decision is BLOCKED and asks for a positive wait. *)
Lemma evaluatePolicy_decision_facts_witness :
  let w := (0%Z, MemoryStore.new (PartialOptions.mk None None None)) in
  exists d w',
    PolicyEngine.evaluatePolicy memoryEnv defaultKeyExtractor strictPolicy
      loginRequest w = (Ok d, w')
    /\ Decision.outcome d = BLOCKED
    /\ 0 < Decision.retryAfterMs d.
Proof.
  intros w.
  destruct (PolicyEngine.evaluatePolicy memoryEnv defaultKeyExtractor strictPolicy
              loginRequest w) as [[d | e] w'] eqn:E;
    [|vm_compute in E; discriminate E].
  exists d, w'. split; [reflexivity|].
  assert (Hout : Decision.outcome d = BLOCKED).
  { assert (Hd : fst (PolicyEngine.evaluatePolicy memoryEnv defaultKeyExtractor
                        strictPolicy loginRequest w) = Ok d) by now rewrite E.
    vm_compute in Hd. injection Hd as <-. reflexivity. }
  split; [exact Hout|].
  destruct (evaluatePolicy_decision_facts memoryEnv defaultKeyExtractor
              strictPolicy loginRequest w w' d E) as (_ & Hblocked & _).
  exact (proj1 (Hblocked Hout)).
Defined.

(** ** The engine over the memory store *)

Lemma get_live (key : string) (now : Z) (ms : MemoryStore.t) :
  MemoryStore.isShutdown ms = false ->
  exists m,
    MemoryStore.get key now ms
    = (Ok (liveState key now (MemoryStore.store ms)), MemoryStore.withStore ms m)
    /\ (uniqueKeys (MemoryStore.store ms) -> uniqueKeys m).
Proof.
  intros Hlive. unfold MemoryStore.get, MemoryStore.checkShutdown, liveState.
  rewrite Hlive.
  destruct (Map_get key (MemoryStore.store ms)) as [entry|] eqn:E.
  - destruct (expiredAt now entry).
    + eexists. split; [reflexivity|]. apply uniqueKeys_Map_delete.
    + eexists. split; [reflexivity|]. unfold uniqueKeys.
      now rewrite Map_replace_keys.
  - exists (MemoryStore.store ms). split; [|auto].
    now destruct ms.
Qed.

Lemma memoryEnv_evaluateRule (extractor : KeyExtractor) (policy : Policy.t)
    (context : Ctx.t) (rule : Rule.t) (key : string) (now : Z)
    (ms : MemoryStore.t) :
  buildKey (Policy.id policy) rule context extractor = Some key ->
  MemoryStore.isShutdown ms = false ->
  let attempt :=
    attemptFor rule (liveState key now (MemoryStore.store ms)) (inject_Z now) in
  exists ms',
    PolicyEngine.evaluateRule memoryEnv extractor rule context policy (now, ms)
    = (Ok (resultOf rule key attempt), (now, ms'))
    /\ MemoryStore.isShutdown ms' = false
    /\ Map_get key (MemoryStore.store ms')
       = Some (Entry.mk (Consume.bucketState attempt) now)
    /\ (uniqueKeys (MemoryStore.store ms) -> uniqueKeys (MemoryStore.store ms')).
Proof.
  intros Hkey Hlive attempt.
  destruct (get_live key now ms Hlive) as (m1 & Hget & Hu1).
  destruct (set_store key (Consume.bucketState attempt) (calculateDefaultTtl rule)
              now (MemoryStore.withStore ms m1) Hlive) as (m2 & Hset & Hm2 & Hu2).
  exists (MemoryStore.withStore (MemoryStore.withStore ms m1) m2).
  split; [|split; [exact Hlive|split; [exact Hm2|]]].
  - unfold PolicyEngine.evaluateRule. rewrite Hkey. unfold bind.
    cbn [getTime storeGet storeSet memoryEnv fst snd].
    rewrite Hget. cbn [fst snd].
    fold (bucketFor rule (liveState key now (MemoryStore.store ms)) (inject_Z now)).
    unfold attempt, attemptFor in Hset |- *. rewrite Hset. reflexivity.
  - intros Hu. apply Hu2, Hu1, Hu.
Qed.

Section MemoryBurst.
Variables (policies : gmap string Policy.t) (extractor : KeyExtractor).
Variables (context : Ctx.t) (policy : Policy.t) (rule : Rule.t).
Variables (key : string) (now : Z).
Hypothesis Hpolicy : policies !! Ctx.action context = Some policy.
Hypothesis Hrules : Policy.rules policy = [rule].
Hypothesis Hkey : buildKey (Policy.id policy) rule context extractor = Some key.
Hypothesis Hcost : 0 < default 1 (Rule.cost rule).
Hypothesis Httl : 0 < calculateDefaultTtl rule.

Local Abbreviation after n :=
  (consumeRepeatedly n
     (createBucket (ruleToConfig rule) (inject_Z now) (calculateDefaultTtl rule))
     (ruleToConfig rule) (default 1 (Rule.cost rule)) (inject_Z now)
     (calculateDefaultTtl rule)).

Lemma check_memoryEnv (ms : MemoryStore.t) :
  MemoryStore.isShutdown ms = false ->
  let attempt :=
    attemptFor rule (liveState key now (MemoryStore.store ms)) (inject_Z now) in
  exists ms' keys,
    PolicyEngine.check memoryEnv policies extractor context (now, ms)
    = (combineRuleResults (Policy.id policy) [resultOf rule key attempt] keys,
       (now, ms'))
    /\ MemoryStore.isShutdown ms' = false
    /\ Map_get key (MemoryStore.store ms')
       = Some (Entry.mk (Consume.bucketState attempt) now).
Proof.
  intros Hlive attempt.
  destruct (memoryEnv_evaluateRule extractor policy context rule key now ms
              Hkey Hlive) as (ms' & Heval & Hlive' & Hget & _).
  fold attempt in Heval, Hget.
  exists ms'. eexists. split; [|split; [exact Hlive' | exact Hget]].
  unfold PolicyEngine.check. rewrite Hpolicy.
  unfold PolicyEngine.evaluatePolicy, bind. rewrite Hrules.
  cbn [PolicyEngine.evaluateRules]. unfold bind. rewrite Heval.
  reflexivity.
Qed.

Lemma after_expiresAt (n : nat) :
  State.expiresAt (after n) = inject_Z now + calculateDefaultTtl rule.
Proof.
  destruct n as [|n]; [reflexivity|].
  simpl consumeRepeatedly. unfold consumeTokens.
  now destruct (geq _ _).
Qed.

Lemma after_live (n : nat) (m : EntryMap) :
  Map_get key m = Some (Entry.mk (after n) now) ->
  bucketFor rule (liveState key now m) (inject_Z now) = after n.
Proof.
  intros Hget. unfold liveState. rewrite Hget.
  assert (Hfresh : geq (inject_Z now) (State.expiresAt (after n)) = false).
  { apply geq_false. rewrite after_expiresAt. lra. }
  unfold expiredAt. cbn [Entry.state]. rewrite Hfresh.
  unfold bucketFor, isBucketExpired. now rewrite Hfresh.
Qed.

Lemma checkRepeatedly_memoryEnv (ms : MemoryStore.t) (n : nat) :
  MemoryStore.isShutdown ms = false ->
  Map_get key (MemoryStore.store ms) = None ->
  exists ms',
    checkRepeatedly memoryEnv policies extractor context n (now, ms) = (now, ms')
    /\ MemoryStore.isShutdown ms' = false
    /\ bucketFor rule (liveState key now (MemoryStore.store ms')) (inject_Z now)
       = after n.
Proof.
  intros Hlive Hnone. induction n as [|n (ms1 & Hw & Hlive1 & Hbucket)].
  - exists ms. split; [reflexivity|]. split; [exact Hlive|].
    unfold liveState. now rewrite Hnone.
  - destruct (check_memoryEnv ms1 Hlive1) as (ms2 & keys & Hcheck & Hlive2 & Hget).
    exists ms2. simpl checkRepeatedly. rewrite Hw, Hcheck.
    split; [reflexivity|]. split; [exact Hlive2|].
    apply after_live. rewrite Hget. unfold attemptFor. now rewrite Hbucket.
Qed.
End MemoryBurst.

(** X12.  The engine over the memory store enforces the burst limit, for
    whole tokens.  Take a policy of one rule whose capacity is an integer
    of magnitude at most 2^53, whose cost is a positive integer and whose
    [ttlMs] is given and at least 1; a clock reading of magnitude below
    2^53 (so that every token count and the expiry [now + ttlMs] are what
    binary64 computes, and the bucket is not expired at the instant it is
    written); and a live store that holds no bucket for the request's key.
    After any number n of earlier identical requests at the same clock
    reading, request number n + 1 is ALLOWED exactly when
    (n + 1) * cost <= capacity; beyond that it is BLOCKED and rejected
    under mode block (the default), and CHALLENGE and let through under
    mode challenge. *)
Theorem memory_store_burst (policies : gmap string Policy.t)
    (extractor : KeyExtractor) (context : Ctx.t) (policy : Policy.t)
    (rule : Rule.t) (key : string) (capacity cost : Z) (ttl : Q)
    (now : Z) (ms : MemoryStore.t) (n : nat) :
  policies !! Ctx.action context = Some policy ->
  Policy.rules policy = [rule] ->
  buildKey (Policy.id policy) rule context extractor = Some key ->
  Rule.capacity rule = inject_Z capacity ->
  (Z.abs capacity <= 2 ^ 53)%Z ->
  default 1 (Rule.cost rule) = inject_Z cost ->
  (1 <= cost)%Z ->
  Rule.ttlMs rule = Some ttl ->
  1 <= ttl ->
  (Z.abs now < 2 ^ 53)%Z ->
  MemoryStore.isShutdown ms = false ->
  Map_get key (MemoryStore.store ms) = None ->
  let d :=
    fst (PolicyEngine.check memoryEnv policies extractor context
           (checkRepeatedly memoryEnv policies extractor context n (now, ms))) in
  let within := (Z.of_nat (S n) * cost <= capacity)%Z in
  (within -> Decision.outcome d = ALLOWED /\ Decision.allowed d = true)
  /\ (~ within ->
      Decision.outcome d = deniedOutcome (Rule.mode rule)
      /\ Decision.allowed d = deniedAllowed (Rule.mode rule)).
Proof.
  intros Hpolicy Hrules Hkey Hcapacity _ Hcost Hone Hgiven Hlong _ Hlive Hnone
    d within.
  assert (Httl : 0 < calculateDefaultTtl rule).
  { unfold calculateDefaultTtl. rewrite Hgiven. lra. }
  assert (Hpos : 0 < default 1 (Rule.cost rule)).
  { rewrite Hcost. apply Qlt_le_trans with (inject_Z 1); [reflexivity|].
    now rewrite <- Zle_Qle. }
  destruct (checkRepeatedly_memoryEnv policies extractor context policy rule key
              now Hpolicy Hrules Hkey Httl ms n Hlive Hnone)
    as (ms1 & Hw & Hlive1 & Hbucket).
  destruct (check_memoryEnv policies extractor context policy rule key now
              Hpolicy Hrules Hkey ms1 Hlive1) as (ms2 & keys & Hcheck & _).
  assert (Hd : d = combineRuleResults (Policy.id policy)
                     [resultOf rule key
                        (attemptFor rule
                           (liveState key now (MemoryStore.store ms1))
                           (inject_Z now))] keys).
  { unfold d. now rewrite Hw, Hcheck. }
  clearbody d. subst d. unfold attemptFor. rewrite Hbucket.
  pose proof (consumeRepeatedly_attempt (ruleToConfig rule)
                (default 1 (Rule.cost rule)) (inject_Z now)
                (calculateDefaultTtl rule) n Hpos) as Hiff.
  change (Config.capacity (ruleToConfig rule)) with (Rule.capacity rule) in Hiff.
  rewrite Hcapacity in Hiff. rewrite Hcost in Hiff at 3.
  rewrite <- inject_Z_mult, <- Zle_Qle in Hiff. fold within in Hiff.
  unfold combineRuleResults, resultOf, deniedOutcome, deniedAllowed.
  cbn [foldl]. unfold scanResult. cbn [RuleResult.outcome].
  destruct (Consume.allowed _) eqn:E.
  - split; [intros _; split; reflexivity|].
    intros Hnot. exfalso. apply Hnot, Hiff. reflexivity.
  - split.
    + intros Hin. apply Hiff in Hin. discriminate.
    + intros _. destruct (default block (Rule.mode rule)); split; reflexivity.
Qed.

(** X12 on the default policy for OTP verification (one rule per session,
    capacity 5, cost 1, a TTL of twenty minutes): after five requests in
    one session the sixth is BLOCKED. *)
Lemma memory_store_burst_witness :
  let context :=
    Ctx.mk None None None None (Some "s1"%string) "otp_verify" None ∅ in
  let ms := MemoryStore.new (PartialOptions.mk None None None) in
  let now := 1700000000000%Z in
  let d :=
    fst (PolicyEngine.check memoryEnv defaultPolicies defaultKeyExtractor context
           (checkRepeatedly memoryEnv defaultPolicies defaultKeyExtractor context
              5 (now, ms))) in
  defaultPolicies !! Ctx.action context = Some otpVerifyPolicy
  /\ buildKey (Policy.id otpVerifyPolicy) otpVerifyPerSession context
       defaultKeyExtractor = Some "otp_verify:per_session:sessionId=s1"%string
  /\ Rule.capacity otpVerifyPerSession = inject_Z 5
  /\ default 1 (Rule.cost otpVerifyPerSession) = inject_Z 1
  /\ Rule.ttlMs otpVerifyPerSession = Some (TIME.MINUTE * 20)
  /\ 1 <= TIME.MINUTE * 20
  /\ (Z.abs now < 2 ^ 53)%Z
  /\ ~ (Z.of_nat 6 * 1 <= 5)%Z
  /\ Decision.outcome d = BLOCKED
  /\ Decision.allowed d = false.
Proof.
  intros context ms now d.
  assert (Hpolicy : defaultPolicies !! Ctx.action context = Some otpVerifyPolicy)
    by (vm_compute; reflexivity).
  assert (Hkey : buildKey (Policy.id otpVerifyPolicy) otpVerifyPerSession context
                   defaultKeyExtractor
                 = Some "otp_verify:per_session:sessionId=s1"%string)
    by (vm_compute; reflexivity).
  assert (Hcapacity : Rule.capacity otpVerifyPerSession = inject_Z 5)
    by reflexivity.
  assert (Hcost : default 1 (Rule.cost otpVerifyPerSession) = inject_Z 1)
    by reflexivity.
  assert (Hgiven : Rule.ttlMs otpVerifyPerSession = Some (TIME.MINUTE * 20))
    by reflexivity.
  assert (Hlong : 1 <= TIME.MINUTE * 20) by (vm_compute; discriminate).
  assert (Hclock : (Z.abs now < 2 ^ 53)%Z) by (vm_compute; reflexivity).
  assert (Hover : ~ (Z.of_nat 6 * 1 <= 5)%Z) by (vm_compute; intros H; now apply H).
  repeat (split; [assumption|]).
  exact (proj2 (memory_store_burst defaultPolicies defaultKeyExtractor context
                  otpVerifyPolicy otpVerifyPerSession _ 5 1 (TIME.MINUTE * 20)
                  now ms 5 Hpolicy eq_refl Hkey Hcapacity
                  ltac:(vm_compute; discriminate) Hcost ltac:(lia) Hgiven Hlong
                  Hclock eq_refl eq_refl) Hover).
Defined.

(** ** The memory store as a map with expiry *)

Section StoreObservations.
Import MemoryStore.
Implicit Types (m : EntryMap) (k : string) (e : Entry.t).

Lemma get_result k (now : Z) (ms : t) :
  fst (get k now ms)
  = if isShutdown ms then Throw shutdownMessage
    else Ok (liveState k now (store ms)).
Proof.
  unfold get, checkShutdown, liveState. destruct (isShutdown ms); [reflexivity|].
  destruct (Map_get k (store ms)) as [e|]; [|reflexivity].
  now destruct (expiredAt now e).
Qed.

Lemma has_result k (now : Z) (ms : t) :
  fst (has k now ms) = presence (fst (get k now ms)).
Proof.
  unfold has, get, checkShutdown. destruct (isShutdown ms); [reflexivity|].
  destruct (Map_get k (store ms)) as [e|]; [|reflexivity].
  now destruct (expiredAt now e).
Qed.

Lemma Map_get_replace_other k k' m e :
  k <> k' -> Map_get k' (Map_replace k e m) = Map_get k' m.
Proof.
  intros Hne. unfold Map_get, Map_replace.
  induction m as [|[k0 e0] m IH]; simpl; [reflexivity|].
  destruct (String.eqb_spec k0 k) as [-> | Hk0]; simpl.
  - destruct (String.eqb_spec k k') as [E | _]; [congruence | exact IH].
  - destruct (String.eqb_spec k0 k'); [reflexivity | exact IH].
Qed.

Lemma Map_get_append_other k k' m e :
  k <> k' -> Map_get k' (m ++ [(k, e)]) = Map_get k' m.
Proof.
  intros Hne. unfold Map_get.
  induction m as [|[k0 e0] m IH]; simpl.
  - destruct (String.eqb_spec k k'); [congruence | reflexivity].
  - destruct (String.eqb_spec k0 k'); [reflexivity | exact IH].
Qed.

Lemma Map_get_filter (P : string * Entry.t -> Prop) `{!forall p, Decision (P p)}
    k m :
  (forall e, P (k, e)) -> Map_get k (filter P m) = Map_get k m.
Proof.
  intros Hkeep. induction m as [|[k0 e0] m IH]; [reflexivity|].
  destruct (String.eqb_spec k0 k) as [-> | Hk0].
  - rewrite filter_cons_True by apply Hkeep.
    unfold Map_get. simpl. now rewrite String.eqb_refl.
  - assert (Hskip : forall rest, Map_get k ((k0, e0) :: rest) = Map_get k rest).
    { intros rest. unfold Map_get. simpl.
      destruct (String.eqb_spec k0 k); [congruence | reflexivity]. }
    rewrite Hskip. destruct (decide (P (k0, e0))).
    + rewrite filter_cons_True by assumption. now rewrite Hskip.
    + rewrite filter_cons_False by assumption. exact IH.
Qed.

Lemma Map_get_delete_other k k' m :
  k <> k' -> Map_get k' (Map_delete k m) = Map_get k' m.
Proof.
  intros Hne. unfold Map_delete. apply Map_get_filter.
  intros e. simpl. congruence.
Qed.

Lemma Map_get_delete k m : Map_get k (Map_delete k m) = None.
Proof.
  apply Map_get_None. intros Hin.
  apply list_elem_of_fmap in Hin as (p & -> & Hp).
  apply elem_of_Map_delete in Hp as [Hne _]. now apply Hne.
Qed.

Lemma Map_get_unique k e m :
  uniqueKeys m -> (k, e) ∈ m -> Map_get k m = Some e.
Proof.
  intros Hunique Hin. destruct (Map_get k m) as [e'|] eqn:E.
  - apply Map_get_Some in E.
    pose proof (uniqueKeys_entry m (k, e) (k, e') Hunique Hin E eq_refl).
    congruence.
  - apply Map_get_None in E. exfalso. apply E.
    now apply (list_elem_of_fmap_2 fst m (k, e)).
Qed.

Lemma expiredAt_later (now later : Z) e :
  (now <= later)%Z -> expiredAt now e = true -> expiredAt later e = true.
Proof.
  unfold expiredAt. intros Hle H. apply geq_true in H. apply geq_true.
  apply Qle_trans with (inject_Z now); [exact H|]. now rewrite <- Zle_Qle.
Qed.

(** After a sweep at [now], a lookup at [later >= now] finds what it would
    have found without the sweep. *)
Lemma liveState_sweep k (now later : Z) m :
  uniqueKeys m -> (now <= later)%Z ->
  liveState k later (filter (fun p => expiredAt now (snd p) = false) m)
  = liveState k later m.
Proof.
  intros Hunique Hle. unfold liveState.
  destruct (Map_get k m) as [e|] eqn:E.
  - apply Map_get_Some in E. destruct (expiredAt now e) eqn:Hnow.
    + rewrite (expiredAt_later now later e Hle Hnow).
      assert (Hgone : Map_get k (filter (fun p => expiredAt now (snd p) = false) m)
                      = None).
      { destruct (Map_get k (filter _ m)) as [e'|] eqn:E'; [|reflexivity].
        apply Map_get_Some, list_elem_of_filter in E' as [Hlive Hin].
        pose proof (uniqueKeys_entry m (k, e) (k, e') Hunique E Hin eq_refl).
        simpl in Hlive. congruence. }
      now rewrite Hgone.
    + rewrite (Map_get_unique k e); [reflexivity | |].
      * eapply uniqueKeys_sublist; [apply sublist_filter | exact Hunique].
      * apply list_elem_of_filter. split; [exact Hnow | exact E].
  - assert (Hgone : Map_get k (filter (fun p => expiredAt now (snd p) = false) m)
                    = None).
    { apply Map_get_None. apply Map_get_None in E. intros Hin. apply E.
      eapply elem_of_sublist; [exact Hin|]. apply fmap_sublist, sublist_filter. }
    now rewrite Hgone.
Qed.





End StoreObservations.



(** X14.  Sweeping is invisible to lookups.  For a store with unique keys,
    a sweep at [now] does not change what [get] and [has] answer for any
    key at any time from [now] on; it only removes entries, keeps every
    entry that has not expired at [now], and (on a live store) leaves none
    that has. *)
Theorem sweep_is_invisible (ms : MemoryStore.t) (now later : Z) (key : string) :
  uniqueKeys (MemoryStore.store ms) ->
  (now <= later)%Z ->
  let swept := MemoryStore.sweep now ms in
  fst (MemoryStore.get key later swept) = fst (MemoryStore.get key later ms)
  /\ fst (MemoryStore.has key later swept) = fst (MemoryStore.has key later ms)
  /\ MemoryStore.store swept `sublist_of` MemoryStore.store ms
  /\ (forall p, p ∈ MemoryStore.store ms -> expiredAt now (snd p) = false ->
                p ∈ MemoryStore.store swept)
  /\ (MemoryStore.isShutdown ms = false ->
      forall p, p ∈ MemoryStore.store swept -> expiredAt now (snd p) = false).
Proof.
  intros Hunique Hle swept.
  assert (Hget : fst (MemoryStore.get key later swept)
                 = fst (MemoryStore.get key later ms)).
  { rewrite !get_result. unfold swept, MemoryStore.sweep.
    destruct (MemoryStore.isShutdown ms) eqn:E; [now rewrite E|].
    simpl. rewrite E. now rewrite liveState_sweep. }
  split; [exact Hget|]. split; [now rewrite !has_result, Hget|].
  unfold swept, MemoryStore.sweep.
  destruct (MemoryStore.isShutdown ms); simpl.
  - split; [reflexivity|]. split; [auto | discriminate].
  - split; [apply sublist_filter|]. split.
    + intros p Hp Hlive. apply list_elem_of_filter. now split.
    + intros _ p Hp. now apply list_elem_of_filter in Hp as [Hlive _].
Qed.

(** X14 on a store with one live and one expired entry. *)
Lemma sweep_is_invisible_witness :
  let live := State.mk 10 0 0 60000 in
  let stale := State.mk 10 0 0 3 in
  let ms :=
    MemoryStore.mk [("a"%string, Entry.mk live 0); ("b"%string, Entry.mk stale 1)]
      (Options.mk 60000 3 1) true false in
  uniqueKeys (MemoryStore.store ms)
  /\ (5 <= 7)%Z
  /\ MemoryStore.store (MemoryStore.sweep 5 ms) = [("a"%string, Entry.mk live 0)]
  /\ fst (MemoryStore.get "b" 7 (MemoryStore.sweep 5 ms))
     = fst (MemoryStore.get "b" 7 ms).
Proof.
  intros live stale ms.
  assert (Hunique : uniqueKeys (MemoryStore.store ms)).
  { unfold uniqueKeys. simpl. repeat (apply NoDup_cons; split);
      [| | apply NoDup_nil; exact I]; rewrite ?elem_of_cons, elem_of_nil;
      intros H; repeat (destruct H as [H | H]; [discriminate H|]); exact H. }
  assert (Hle : (5 <= 7)%Z) by lia.
  split; [exact Hunique|]. split; [exact Hle|]. split; [reflexivity|].
  exact (proj1 (sweep_is_invisible ms 5 7 "b" Hunique Hle)).
Defined.

(** X15.  The store is a map.  [has] answers whether [get] would return a
    state.  A [delete] makes its key absent and leaves the answer for every
    other key as it was; so does a [set] for every other key, provided it
    cannot evict: the key is already stored, or the store is below its
    high-water mark. *)
Theorem store_operations_are_local (ms : MemoryStore.t) (key other : string)
    (state : State.t) (ttlMs : Q) (now later : Z) :
  fst (MemoryStore.has key later ms) = presence (fst (MemoryStore.get key later ms))
  /\ (MemoryStore.isShutdown ms = false ->
      fst (MemoryStore.get key later (snd (MemoryStore.delete key ms))) = Ok None)
  /\ (key <> other ->
      fst (MemoryStore.get other later (snd (MemoryStore.delete key ms)))
      = fst (MemoryStore.get other later ms))
  /\ (key <> other ->
      Map_get key (MemoryStore.store ms) <> None
      \/ (Map_size (MemoryStore.store ms)
          < Options.highWaterMark (MemoryStore.options ms))%Z ->
      fst (MemoryStore.get other later
             (snd (MemoryStore.set key state ttlMs now ms)))
      = fst (MemoryStore.get other later ms)).
Proof.
  split; [apply has_result|]. split; [|split].
  - intros Hlive. rewrite get_result.
    unfold MemoryStore.delete, MemoryStore.checkShutdown. rewrite Hlive. simpl.
    rewrite Hlive. unfold liveState. now rewrite Map_get_delete.
  - intros Hne. rewrite !get_result.
    unfold MemoryStore.delete, MemoryStore.checkShutdown.
    destruct (MemoryStore.isShutdown ms) eqn:E; simpl; rewrite E; [reflexivity|].
    unfold liveState. now rewrite Map_get_delete_other.
  - intros Hne Hroom. rewrite !get_result.
    unfold MemoryStore.set, MemoryStore.checkShutdown.
    destruct (MemoryStore.isShutdown ms) eqn:E; simpl; [now rewrite E|].
    destruct (Map_get key (MemoryStore.store ms)) as [e|] eqn:Hget; simpl;
      rewrite E; unfold liveState.
    + now rewrite Map_get_replace_other.
    + rewrite Map_get_append_other by exact Hne.
      destruct Hroom as [Hin | Hlt]; [congruence|].
      destruct (Z.leb_spec (Options.highWaterMark (MemoryStore.options ms))
                  (Map_size (MemoryStore.store ms))); [lia | reflexivity].
Qed.

(** X15 on a new store holding one bucket: setting a second key leaves the
    first as it was. *)
Lemma store_operations_are_local_witness :
  let fresh := State.mk 10 0 0 60000 in
  let ms :=
    snd (MemoryStore.set "k1" fresh 60000 0
           (MemoryStore.new (PartialOptions.mk None None None))) in
  "k2"%string <> "k1"%string
  /\ (Map_size (MemoryStore.store ms)
      < Options.highWaterMark (MemoryStore.options ms))%Z
  /\ fst (MemoryStore.get "k1" 5 (snd (MemoryStore.set "k2" fresh 60000 1 ms)))
     = Ok (Some fresh).
Proof.
  intros fresh ms.
  assert (Hne : "k2"%string <> "k1"%string) by discriminate.
  assert (Hroom : (Map_size (MemoryStore.store ms)
                   < Options.highWaterMark (MemoryStore.options ms))%Z)
    by (vm_compute; reflexivity).
  split; [exact Hne|]. split; [exact Hroom|].
  etransitivity;
    [exact (proj2 (proj2 (proj2 (store_operations_are_local ms "k2" "k1" fresh
                                   60000 1 5))) Hne (or_intror Hroom))
    | reflexivity].
Defined.

(** ** The key builder, continued *)

Section KeyFacts.
Variables (extractor : KeyExtractor) (context : Ctx.t).

Lemma missingValue_empty (v : option string) :
  missingValue v
  = match v with
    | None => true
    | Some value => String.eqb value ""
    end.
Proof. destruct v as [[|c s]|]; reflexivity. Qed.

Lemma validateDimensions_filter (dimensions : list string) : forall missing,
  foldl (fun missing dim =>
           match extractor dim context with
           | None => missing ++ [dim]
           | Some value =>
               if String.eqb value "" then missing ++ [dim] else missing
           end) missing dimensions
  = missing
    ++ filter (fun d => missingValue (extractor d context) = true) dimensions.
Proof.
  induction dimensions as [|d rest IH]; intros missing; simpl.
  - now rewrite app_nil_r.
  - rewrite IH.
    destruct (missingValue (extractor d context)) eqn:E.
    + rewrite filter_cons_True by exact E.
      rewrite missingValue_empty in E.
      destruct (extractor d context) as [value|];
        [rewrite E|]; now rewrite <- app_assoc.
    + rewrite filter_cons_False by congruence.
      rewrite missingValue_empty in E.
      destruct (extractor d context) as [value|]; [|discriminate].
      now rewrite E.
Qed.

Lemma filter_missing_nil (dimensions : list string) :
  filter (fun d => missingValue (extractor d context) = true) dimensions = []
  <-> existsb (fun d => missingValue (extractor d context)) dimensions = false.
Proof.
  induction dimensions as [|d rest IH]; simpl; [tauto|].
  destruct (missingValue (extractor d context)) eqn:E.
  - rewrite filter_cons_True by exact E. simpl. split; discriminate.
  - rewrite filter_cons_False by congruence. simpl. exact IH.
Qed.
End KeyFacts.

(** X16.  [validateDimensions] predicts [buildKey].  It returns, in order,
    exactly the dimensions whose value is absent or empty, and it returns
    none exactly when [buildKey] builds a key for a rule with these
    dimensions. *)
Theorem validateDimensions_predicts_buildKey :
  (forall context dimensions extractor,
      validateDimensions context dimensions extractor
      = filter (fun d => missingValue (extractor d context) = true) dimensions)
  /\ (forall action rule context extractor,
        validateDimensions context (Rule.key rule) extractor = []
        <-> is_Some (buildKey action rule context extractor)).
Proof.
  split.
  - intros context dimensions extractor. unfold validateDimensions.
    now rewrite validateDimensions_filter.
  - intros action rule context extractor. unfold validateDimensions.
    rewrite validateDimensions_filter, app_nil_l, filter_missing_nil.
    rewrite buildKey_spec.
    destruct (existsb _ (Rule.key rule)).
    + split; [discriminate | intros [k Hk]; discriminate].
    + split; [eauto | reflexivity].
Qed.

Section Separation.
Implicit Types (s t : string) (c : ascii).

Lemma append_separator_inj c s s' t t' :
  noChar c s = true -> noChar c s' = true ->
  s +:+ String c t = s' +:+ String c t' -> s = s' /\ t = t'.
Proof.
  revert s'. induction s as [|a s IH]; intros [|a' s'] Hs Hs' E; simpl in *.
  - injection E as <-. auto.
  - injection E as <- _. rewrite Ascii.eqb_refl in Hs'. discriminate.
  - injection E as -> _. rewrite Ascii.eqb_refl in Hs. discriminate.
  - injection E as <- E.
    apply andb_true_iff in Hs as [_ Hs]. apply andb_true_iff in Hs' as [_ Hs'].
    destruct (IH s' Hs Hs' E) as [-> ->]. auto.
Qed.

Lemma segments_inj (extractor extractor' : KeyExtractor)
    (context context' : Ctx.t) (dimensions : list string) :
  forall dimensions',
    forallb wellFormedDimension dimensions = true ->
    forallb wellFormedDimension dimensions' = true ->
    List.map (segmentOf extractor context) dimensions
    = List.map (segmentOf extractor' context') dimensions' ->
    dimensions = dimensions'
    /\ forall d, d ∈ dimensions ->
         sanitizeValue (default EmptyString (extractor d context))
         = sanitizeValue (default EmptyString (extractor' d context')).
Proof.
  induction dimensions as [|d rest IH]; intros [|d' rest'] Hw Hw' E;
    simpl in *; try discriminate.
  - split; [reflexivity|]. intros d Hd. inversion Hd.
  - injection E as Eseg E.
    apply andb_true_iff in Hw as [Hd Hw]. apply andb_true_iff in Hw' as [Hd' Hw'].
    unfold wellFormedDimension in Hd, Hd'.
    apply andb_true_iff in Hd as [_ Hd]. apply andb_true_iff in Hd' as [_ Hd'].
    unfold segmentOf, dimensionPart in Eseg.
    destruct (append_separator_inj _ _ _ _ _ Hd Hd' Eseg) as [<- Evalue].
    destruct (IH rest' Hw Hw' E) as [<- Hrest].
    split; [reflexivity|].
    intros x [-> | Hx]%elem_of_cons; [exact Evalue | now apply Hrest].
Qed.
End Separation.

(** X17.  Keys separate buckets.  When two well-formed requests (action and
    rule name non-empty and free of ':', dimension names non-empty and free
    of ':' and '=') are given the same key, they have the same action, the
    same rule name, the same dimensions, and for every dimension the same
    value once sanitized. *)
Theorem buildKey_separates (action action' : string) (rule rule' : Rule.t)
    (context context' : Ctx.t) (extractor extractor' : KeyExtractor)
    (key : string) :
  wellFormedKey action rule = true ->
  wellFormedKey action' rule' = true ->
  buildKey action rule context extractor = Some key ->
  buildKey action' rule' context' extractor' = Some key ->
  action = action'
  /\ Rule.name rule = Rule.name rule'
  /\ Rule.key rule = Rule.key rule'
  /\ forall d, d ∈ Rule.key rule ->
       sanitizeValue <$> extractor d context
       = sanitizeValue <$> extractor' d context'.
Proof.
  unfold wellFormedKey, wellFormedName.
  intros [[[_ Ha]%andb_true_iff [_ Hn]%andb_true_iff]%andb_true_iff
            Hdims]%andb_true_iff.
  intros [[[_ Ha']%andb_true_iff [_ Hn']%andb_true_iff]%andb_true_iff
            Hdims']%andb_true_iff.
  rewrite !buildKey_spec.
  pose proof (existsb_missing extractor context (Rule.key rule)) as Hmiss.
  pose proof (existsb_missing extractor' context' (Rule.key rule')) as Hmiss'.
  destruct (existsb _ (Rule.key rule)); [discriminate|].
  destruct (existsb _ (Rule.key rule')); [discriminate|].
  intros Hk Hk'.
  assert (E : join KEY_SEPARATOR
                (action :: Rule.name rule
                 :: List.map (segmentOf extractor context) (Rule.key rule))
              = join KEY_SEPARATOR
                  (action' :: Rule.name rule'
                   :: List.map (segmentOf extractor' context') (Rule.key rule')))
    by congruence.
  apply (f_equal (split KEY_SEPARATOR)) in E.
  rewrite !split_join in E; try discriminate.
  - injection E as <- En Esegs.
    destruct (segments_inj _ _ _ _ _ _ Hdims Hdims' Esegs) as [Ekeys Hvalues].
    split; [reflexivity|]. split; [exact En|]. split; [exact Ekeys|].
    intros d Hd. specialize (Hvalues d Hd).
    destruct (extractor d context) as [v|] eqn:Ev.
    + destruct (extractor' d context') as [v'|] eqn:Ev'; simpl in *;
        [now rewrite Hvalues|].
      exfalso. enough (false = true) by discriminate.
      apply Hmiss'. exists d. rewrite <- Ekeys. split; [exact Hd | now left].
    + exfalso. enough (false = true) by discriminate.
      apply Hmiss. exists d. split; [exact Hd | now left].
  - simpl. rewrite Ha', Hn'. simpl. now apply segmentOf_noKeySeparator.
  - simpl. rewrite Ha, Hn. simpl. now apply segmentOf_noKeySeparator.
Qed.

(** X17 on two requests that differ in their address: the keys differ. *)
Lemma buildKey_separates_witness :
  let rule := Rule.mk "per_ip" ["ip"%string] 3 3 60000 None None None in
  wellFormedKey "login" rule = true
  /\ buildKey "login" rule (requestFrom (Some "10.0.0.1"%string))
       defaultKeyExtractor = Some "login:per_ip:ip=10.0.0.1"%string
  /\ buildKey "login" rule (requestFrom (Some "10.0.0.2"%string))
       defaultKeyExtractor <> Some "login:per_ip:ip=10.0.0.1"%string.
Proof.
  intros rule.
  assert (Hw : wellFormedKey "login" rule = true) by reflexivity.
  assert (Hk : buildKey "login" rule (requestFrom (Some "10.0.0.1"%string))
                 defaultKeyExtractor = Some "login:per_ip:ip=10.0.0.1"%string)
    by reflexivity.
  split; [exact Hw|]. split; [exact Hk|].
  intros Hk'.
  destruct (buildKey_separates "login" "login" rule rule
              (requestFrom (Some "10.0.0.1"%string))
              (requestFrom (Some "10.0.0.2"%string))
              defaultKeyExtractor defaultKeyExtractor _ Hw Hw Hk Hk')
    as (_ & _ & _ & Hvalues).
  specialize (Hvalues "ip"%string ltac:(left)).
  discriminate Hvalues.
Defined.

Section EngineKeys.
Context {W : Type}.
Variables (env : Env W) (extractor : KeyExtractor).
Variables (policy : Policy.t) (context : Ctx.t).

Lemma buildKey_not_skipped (rule : Rule.t) (key : string) :
  buildKey (Policy.id policy) rule context extractor = Some key ->
  String.eqb key "skipped" = false.
Proof.
  rewrite buildKey_spec. destruct (existsb _ _); [discriminate|].
  intros [= <-]. apply String.eqb_neq. intros E.
  apply (f_equal (noChar KEY_SEPARATOR)) in E.
  change (join KEY_SEPARATOR
            (Policy.id policy :: Rule.name rule
             :: List.map (segmentOf extractor context) (Rule.key rule)))
    with (Policy.id policy
          +:+ String KEY_SEPARATOR
                (join KEY_SEPARATOR
                   (Rule.name rule
                    :: List.map (segmentOf extractor context) (Rule.key rule))))
    in E.
  rewrite noChar_append in E. simpl in E.
  rewrite andb_false_r in E. discriminate.
Qed.

Lemma evaluateRules_keys (rules : list Rule.t) :
  forall acc keys rs keys' (w w' : W),
    PolicyEngine.evaluateRules env extractor policy context rules acc keys w
    = (Ok (rs, keys'), w') ->
    keys' = engineKeys extractor policy context keys rules.
Proof.
  induction rules as [|rule rest IH]; intros acc keys rs keys' w w' H; simpl in H.
  - now injection H as <- <- <-.
  - unfold bind at 1 in H.
    destruct (PolicyEngine.evaluateRule env extractor rule context policy w)
      as [[r | e] w1] eqn:Hr; [|discriminate].
    destruct (evaluateRule_resultFor env extractor policy context rule r w w1 Hr)
      as [_ Hkey].
    rewrite (IH _ _ _ _ _ _ H). unfold engineKeys. simpl. rewrite Hkey.
    destruct (buildKey (Policy.id policy) rule context extractor) as [key|] eqn:E;
      simpl.
    + now rewrite (buildKey_not_skipped rule key E).
    + reflexivity.
Qed.

Lemma engineKeys_other (rules : list Rule.t) : forall keys name,
  name ∉ Rule.name <$> rules ->
  engineKeys extractor policy context keys rules !! name = keys !! name.
Proof.
  unfold engineKeys.
  induction rules as [|rule rest IH]; intros keys name Hname; [reflexivity|].
  rewrite fmap_cons, not_elem_of_cons in Hname. destruct Hname as [Hne Hrest].
  simpl. rewrite (IH _ _ Hrest).
  destruct (buildKey _ rule _ _); [|reflexivity].
  now rewrite lookup_insert_ne.
Qed.

Lemma engineKeys_lookup (rules : list Rule.t) : forall keys rule,
  NoDup (Rule.name <$> rules) -> rule ∈ rules ->
  engineKeys extractor policy context keys rules !! Rule.name rule
  = match buildKey (Policy.id policy) rule context extractor with
    | Some key => Some key
    | None => keys !! Rule.name rule
    end.
Proof.
  induction rules as [|rule0 rest IH]; intros keys rule Hnodup Hin;
    [inversion Hin|].
  rewrite fmap_cons in Hnodup. apply NoDup_cons in Hnodup as [Hfresh Hnodup].
  apply elem_of_cons in Hin as [-> | Hin].
  - change (engineKeys extractor policy context keys (rule0 :: rest))
      with (engineKeys extractor policy context
              match buildKey (Policy.id policy) rule0 context extractor with
              | Some key => <[Rule.name rule0 := key]> keys
              | None => keys
              end rest).
    rewrite (engineKeys_other _ _ _ Hfresh).
    destruct (buildKey _ rule0 _ _); [|reflexivity].
    now rewrite lookup_insert_eq.
  - change (engineKeys extractor policy context keys (rule0 :: rest))
      with (engineKeys extractor policy context
              match buildKey (Policy.id policy) rule0 context extractor with
              | Some key => <[Rule.name rule0 := key]> keys
              | None => keys
              end rest).
    rewrite (IH _ rule Hnodup Hin).
    destruct (buildKey _ rule _ _); [reflexivity|].
    assert (Hne : Rule.name rule0 <> Rule.name rule).
    { intros E. apply Hfresh. rewrite E. now apply list_elem_of_fmap_2. }
    destruct (buildKey _ rule0 _ _); [|reflexivity].
    now rewrite lookup_insert_ne.
Qed.

Lemma buildKeys_other (action : string) (rules : list Rule.t) :
  forall (keys : gmap string (option string)) name,
    name ∉ Rule.name <$> rules ->
    foldl (fun keys rule =>
             <[Rule.name rule := buildKey action rule context extractor]> keys)
      keys rules !! name = keys !! name.
Proof.
  induction rules as [|rule rest IH]; intros keys name Hname; [reflexivity|].
  rewrite fmap_cons, not_elem_of_cons in Hname. destruct Hname as [Hne Hrest].
  simpl. rewrite (IH _ _ Hrest). now rewrite lookup_insert_ne.
Qed.

Lemma buildKeys_lookup (action : string) (rules : list Rule.t) :
  forall (keys : gmap string (option string)) rule,
    NoDup (Rule.name <$> rules) -> rule ∈ rules ->
    foldl (fun keys rule =>
             <[Rule.name rule := buildKey action rule context extractor]> keys)
      keys rules !! Rule.name rule
    = Some (buildKey action rule context extractor).
Proof.
  induction rules as [|rule0 rest IH]; intros keys rule Hnodup Hin;
    [inversion Hin|].
  rewrite fmap_cons in Hnodup. apply NoDup_cons in Hnodup as [Hfresh Hnodup].
  apply elem_of_cons in Hin as [-> | Hin]; simpl.
  - rewrite (buildKeys_other _ _ _ _ Hfresh). now rewrite lookup_insert_eq.
  - now apply IH.
Qed.
End EngineKeys.

(** X18.  The keys a decision reports.  When no store operation throws and
    the rules of the policy have distinct names, the decision's [keys] holds
    for every rule the key [buildKey] gives it (none for a skipped rule) and
    nothing else; this is what [buildKeysForRules] computes, with its
    undefined entries left out. *)
Theorem decision_keys {W : Type} (env : Env W) (extractor : KeyExtractor)
    (policy : Policy.t) (context : Ctx.t) (w w' : W) (d : Decision.t) :
  PolicyEngine.evaluatePolicy env extractor policy context w = (Ok d, w') ->
  NoDup (Rule.name <$> Policy.rules policy) ->
  let built :=
    buildKeysForRules (Policy.id policy) (Policy.rules policy) context
      extractor in
  (forall rule, rule ∈ Policy.rules policy ->
     Decision.keys d !! Rule.name rule
     = buildKey (Policy.id policy) rule context extractor
     /\ built !! Rule.name rule
        = Some (buildKey (Policy.id policy) rule context extractor))
  /\ (forall name, name ∉ Rule.name <$> Policy.rules policy ->
        Decision.keys d !! name = None /\ built !! name = None)
  /\ (forall name, Decision.keys d !! name = mjoin (built !! name)).
Proof.
  intros H Hnodup built. unfold PolicyEngine.evaluatePolicy, bind in H.
  destruct (PolicyEngine.evaluateRules env extractor policy context
              (Policy.rules policy) [] ∅ w) as [[[rs keys] | e] w1] eqn:E;
    [|discriminate].
  injection H as <- <-.
  rewrite combineRuleResults_scan. simpl.
  rewrite (evaluateRules_keys env extractor policy context _ _ _ _ _ _ _ E).
  assert (Hin : forall rule, rule ∈ Policy.rules policy ->
            engineKeys extractor policy context ∅ (Policy.rules policy)
              !! Rule.name rule
            = buildKey (Policy.id policy) rule context extractor
            /\ built !! Rule.name rule
               = Some (buildKey (Policy.id policy) rule context extractor)).
  { intros rule Hrule. split.
    - rewrite (engineKeys_lookup extractor policy context _ _ _ Hnodup Hrule).
      destruct (buildKey _ rule _ _); [reflexivity | apply lookup_empty].
    - apply (buildKeys_lookup extractor context _ _ _ _ Hnodup Hrule). }
  assert (Hout : forall name, name ∉ Rule.name <$> Policy.rules policy ->
            engineKeys extractor policy context ∅ (Policy.rules policy) !! name
            = None
            /\ built !! name = None).
  { intros name Hname. split.
    - rewrite (engineKeys_other extractor policy context _ _ _ Hname).
      apply lookup_empty.
    - unfold built, buildKeysForRules.
      rewrite (buildKeys_other extractor context _ _ _ _ Hname).
      apply lookup_empty. }
  split; [exact Hin|]. split; [exact Hout|].
  intros name. destruct (decide (name ∈ Rule.name <$> Policy.rules policy))
    as [Hname | Hname].
  - apply list_elem_of_fmap in Hname as (rule & -> & Hrule).
    destruct (Hin rule Hrule) as [-> ->]. reflexivity.
  - destruct (Hout name Hname) as [-> ->]. reflexivity.
Qed.

(** X18 on the two-rule policy: both keys are reported. *)
Lemma decision_keys_witness :
  exists d w',
    PolicyEngine.evaluatePolicy recordingEnv defaultKeyExtractor strictPolicy
      loginRequest [] = (Ok d, w')
    /\ NoDup (Rule.name <$> Policy.rules strictPolicy)
    /\ Decision.keys d !! "per_ip"%string = Some "login:per_ip:ip=10.0.0.1"%string
    /\ Decision.keys d !! "per_email"%string
       = Some "login:per_email:emailHash=ab12"%string.
Proof.
  destruct (PolicyEngine.evaluatePolicy recordingEnv defaultKeyExtractor
              strictPolicy loginRequest []) as [[d | e] w'] eqn:E;
    [|vm_compute in E; discriminate E].
  exists d, w'. split; [reflexivity|].
  assert (Hnodup : NoDup (Rule.name <$> Policy.rules strictPolicy)).
  { simpl. repeat (apply NoDup_cons; split);
      [| | apply NoDup_nil; exact I]; rewrite ?elem_of_cons, elem_of_nil;
      intros H; repeat (destruct H as [H | H]; [discriminate H|]); exact H. }
  split; [exact Hnodup|].
  destruct (decision_keys recordingEnv defaultKeyExtractor strictPolicy
              loginRequest [] w' d E Hnodup) as (Hin & _).
  split.
  - exact (proj1 (Hin (Rule.mk "per_ip" ["ip"%string] 0 1 1000 None None None)
                    ltac:(left))).
  - exact (proj1 (Hin (Rule.mk "per_email" ["emailHash"%string] 3 3 60000
                         None None None) ltac:(right; left))).
Defined.

(** ** Logging *)

Section Logging.
Implicit Types (s t : string).

Lemma substring_length s : forall n : nat,
  (n <= String.length s)%nat -> String.length (String.substring 0 n s) = n.
Proof.
  induction s as [|a s IH]; intros [|n] Hn; simpl in *; try reflexivity; [lia|].
  f_equal. apply IH. lia.
Qed.

Lemma maskHash_short s : (String.length s <= 8)%nat -> maskHash s = s.
Proof.
  intros H. unfold maskHash.
  destruct (Z.leb_spec (Z.of_nat (String.length s)) 8); [reflexivity | lia].
Qed.

Lemma maskHash_long s :
  (8 < String.length s)%nat -> maskHash s = String.substring 0 8 s +:+ "...".
Proof.
  intros H. unfold maskHash.
  destruct (Z.leb_spec (Z.of_nat (String.length s)) 8); [lia | reflexivity].
Qed.

Lemma maskHash_length s : (String.length (maskHash s) <= 11)%nat.
Proof.
  destruct (le_lt_dec (String.length s) 8) as [Hshort | Hlong].
  - rewrite (maskHash_short s Hshort). lia.
  - rewrite (maskHash_long s Hlong), append_length, substring_length by lia.
    simpl. lia.
Qed.

Lemma extractDimensionsForLogging_fold (context : Ctx.t)
    (dimensions : list string) : forall (acc : gmap string string) dim,
  foldl (fun result dim =>
           match defaultKeyExtractor dim context with
           | Some value =>
               if String.eqb dim "emailHash" || String.eqb dim "phoneHash"
               then <[dim := maskHash value]> result
               else <[dim := value]> result
           | None => result
           end) acc dimensions !! dim
  = if decide (dim ∈ dimensions)
    then match defaultKeyExtractor dim context with
         | Some value => Some (loggedValue dim value)
         | None => acc !! dim
         end
    else acc !! dim.
Proof.
  induction dimensions as [|d0 rest IH]; intros acc dim.
  - simpl. destruct (decide (dim ∈ [])) as [H|_]; [inversion H | reflexivity].
  - simpl foldl. rewrite IH.
    assert (Hstep : match defaultKeyExtractor d0 context with
                    | Some value =>
                        if String.eqb d0 "emailHash" || String.eqb d0 "phoneHash"
                        then <[d0 := maskHash value]> acc
                        else <[d0 := value]> acc
                    | None => acc
                    end !! dim
                    = if decide (dim = d0)
                      then match defaultKeyExtractor d0 context with
                           | Some value => Some (loggedValue d0 value)
                           | None => acc !! dim
                           end
                      else acc !! dim).
    { unfold loggedValue, isHashDimension.
      destruct (decide (dim = d0)) as [-> | Hne].
      - destruct (defaultKeyExtractor d0 context); [|reflexivity].
        destruct (_ || _); now rewrite lookup_insert_eq.
      - destruct (defaultKeyExtractor d0 context); [|reflexivity].
        destruct (_ || _); now rewrite lookup_insert_ne. }
    rewrite Hstep.
    destruct (decide (dim ∈ rest)) as [Hin | Hnin];
      destruct (decide (dim = d0)) as [-> | Hne];
      destruct (decide (_ ∈ _ :: rest)) as [Hc | Hc];
      try reflexivity;
      try (exfalso; apply Hc; now (left || (right; assumption)));
      try (now destruct (defaultKeyExtractor d0 context)).
    exfalso. apply elem_of_cons in Hc as [Hc | Hc]; auto.
Qed.
End Logging.

(** X19.  What the logs reveal of a hash.  [maskHash] returns at most
    eleven characters: a hash of up to eight characters as it is, a longer
    one as its first eight characters followed by "...".
    [extractDimensionsForLogging] logs each requested dimension that has a
    value, and the emailHash and phoneHash dimensions only masked, so what
    it logs for them is never longer than eleven characters. *)
Theorem logging_masks_hashes :
  (forall hash,
      (String.length (maskHash hash) <= 11)%nat
      /\ ((String.length hash <= 8)%nat -> maskHash hash = hash)
      /\ ((8 < String.length hash)%nat ->
          maskHash hash = String.substring 0 8 hash +:+ "..."
          /\ String.length (maskHash hash) = 11%nat))
  /\ (forall context dimensions dim,
        extractDimensionsForLogging context dimensions !! dim
        = if decide (dim ∈ dimensions)
          then loggedValue dim <$> defaultKeyExtractor dim context
          else None)
  /\ (forall context dimensions dim value,
        isHashDimension dim = true ->
        extractDimensionsForLogging context dimensions !! dim = Some value ->
        (String.length value <= 11)%nat
        /\ exists hash, defaultKeyExtractor dim context = Some hash
                        /\ value = maskHash hash).
Proof.
  assert (Hclosed : forall context dimensions dim,
            extractDimensionsForLogging context dimensions !! dim
            = if decide (dim ∈ dimensions)
              then loggedValue dim <$> defaultKeyExtractor dim context
              else None).
  { intros context dimensions dim. unfold extractDimensionsForLogging.
    rewrite extractDimensionsForLogging_fold.
    destruct (decide (dim ∈ dimensions)); [|apply lookup_empty].
    destruct (defaultKeyExtractor dim context); [reflexivity | apply lookup_empty]. }
  split; [|split; [exact Hclosed|]].
  - intros hash. split; [apply maskHash_length|].
    split; [apply maskHash_short|].
    intros Hlong. split; [now apply maskHash_long|].
    rewrite (maskHash_long hash Hlong), append_length, substring_length by lia.
    reflexivity.
  - intros context dimensions dim value Hhash. rewrite Hclosed.
    destruct (decide (dim ∈ dimensions)); [|discriminate].
    destruct (defaultKeyExtractor dim context) as [hash|]; [|discriminate].
    unfold loggedValue. rewrite Hhash. simpl. intros [= <-].
    split; [apply maskHash_length | eauto].
Qed.

(** X19 on a SHA-256 digest in hexadecimal: eleven characters are logged. *)
Lemma logging_masks_hashes_witness :
  let digest :=
    "9f86d081884c7d659a2feaa0c55ad015a3bf4f1b2b0b822cd15d6c15b0f00a08"%string in
  let context := Ctx.mk None (Some digest) None None None "login" None ∅ in
  isHashDimension "emailHash" = true
  /\ extractDimensionsForLogging context ["emailHash"%string] !! "emailHash"%string
     = Some "9f86d081..."%string
  /\ (String.length "9f86d081..." <= 11)%nat.
Proof.
  intros digest context.
  assert (Hdim : isHashDimension "emailHash" = true) by reflexivity.
  assert (Hlogged : extractDimensionsForLogging context ["emailHash"%string]
                      !! "emailHash"%string = Some "9f86d081..."%string)
    by (vm_compute; reflexivity).
  split; [exact Hdim|]. split; [exact Hlogged|].
  exact (proj1 (proj2 (proj2 logging_masks_hashes) context ["emailHash"%string]
                  "emailHash"%string "9f86d081..."%string Hdim Hlogged)).
Defined.

Lemma evaluatePolicy_results {W : Type} (env : Env W) (extractor : KeyExtractor)
    (policy : Policy.t) (context : Ctx.t) (w w' : W) (d : Decision.t) :
  PolicyEngine.evaluatePolicy env extractor policy context w = (Ok d, w') ->
  exists rs keys,
    d = combineRuleResults (Policy.id policy) rs keys
    /\ Decision.ruleResults d = rs
    /\ Forall engineResult rs
    /\ Forall2 (resultFor extractor policy context) (Policy.rules policy) rs.
Proof.
  intros H. unfold PolicyEngine.evaluatePolicy, bind in H.
  destruct (PolicyEngine.evaluateRules env extractor policy context
              (Policy.rules policy) [] ∅ w) as [[[rs keys] | e] w1] eqn:E;
    [|discriminate].
  injection H as <- <-.
  destruct (evaluateRules_results env extractor policy context _ _ _ _ _ _ _ E)
    as (new & -> & Hall).
  exists new, keys. simpl fst. simpl snd. simpl app.
  split; [reflexivity|]. split; [now rewrite combineRuleResults_scan|].
  split.
  - clear E. induction Hall as [|rule r rules new (w1' & w2' & Hr) _ IH];
      constructor; [|exact IH].
    destruct (evaluateRule_inversion env extractor policy context rule r w1' w2' Hr)
      as [(_ & -> & _) | (key & now & stored & _ & _ & _ & _ & _ & _ & ->)].
    + apply skippedResult_engineResult.
    + apply resultOf_engineResult.
  - clear E. induction Hall as [|rule r rules new (w1' & w2' & Hr) _ IH];
      constructor; [|exact IH].
    exact (evaluateRule_resultFor env extractor policy context rule r w1' w2' Hr).
Qed.

Lemma failed_filter (rs : list RuleResult.t) :
  Forall engineResult rs ->
  filter (fun r => RuleResult.allowed r = false) rs
  = filter (fun r => isAllowedOutcome (RuleResult.outcome r) = false) rs.
Proof.
  induction 1 as [|r rs (Hallowed & _) _ IH]; [reflexivity|].
  destruct (RuleResult.allowed r) eqn:Ea.
  - pose proof (proj1 Hallowed eq_refl) as Ho.
    rewrite !filter_cons_False; [exact IH | rewrite Ho; discriminate | congruence].
  - assert (Ho : isAllowedOutcome (RuleResult.outcome r) = false).
    { destruct (RuleResult.outcome r) eqn:Eo; try reflexivity.
      pose proof (proj2 Hallowed eq_refl). congruence. }
    rewrite !filter_cons_True; [now rewrite IH | exact Ho | exact Ea].
Qed.

Lemma failed_nil (rs : list RuleResult.t) :
  filter (fun r => isAllowedOutcome (RuleResult.outcome r) = false) rs = []
  <-> ~ blockedIn rs /\ ~ challengeIn rs.
Proof.
  unfold blockedIn, challengeIn. induction rs as [|r rs IH].
  - split; [|reflexivity]. intros _.
    split; intros (x & Hx & _); inversion Hx.
  - destruct (RuleResult.outcome r) eqn:Eo.
    + rewrite filter_cons_False by (rewrite Eo; discriminate).
      rewrite IH. split; intros [Hb Hc]; split; intros (x & Hx & Ho).
      * apply elem_of_cons in Hx as [-> | Hx]; [congruence | apply Hb; eauto].
      * apply elem_of_cons in Hx as [-> | Hx]; [congruence | apply Hc; eauto].
      * apply Hb. exists x. split; [now right | exact Ho].
      * apply Hc. exists x. split; [now right | exact Ho].
    + rewrite filter_cons_True by (now rewrite Eo).
      split; [discriminate|]. intros [Hb _]. exfalso. apply Hb.
      exists r. split; [left | exact Eo].
    + rewrite filter_cons_True by (now rewrite Eo).
      split; [discriminate|]. intros [_ Hc]. exfalso. apply Hc.
      exists r. split; [left | exact Eo].
Qed.

(** X20.  What is logged of an engine decision.  When no store operation
    throws, [formatDecisionForLogging] reports the policy's id, as many
    rules as the policy has, and as failed rules the names, in rule order,
    of the rules whose outcome is not ALLOWED; each of them is a rule of the
    policy, and there is none exactly when the decision is ALLOWED. *)
Theorem logged_failed_rules {W : Type} (env : Env W) (extractor : KeyExtractor)
    (policy : Policy.t) (context : Ctx.t) (w w' : W) (d : Decision.t) :
  PolicyEngine.evaluatePolicy env extractor policy context w = (Ok d, w') ->
  let logged := formatDecisionForLogging d in
  Logged.action logged = Policy.id policy
  /\ Logged.ruleCount logged = length (Policy.rules policy)
  /\ Logged.failedRules logged
     = RuleResult.ruleName
         <$> filter (fun r => isAllowedOutcome (RuleResult.outcome r) = false)
               (Decision.ruleResults d)
  /\ (forall name, name ∈ Logged.failedRules logged ->
        name ∈ Rule.name <$> Policy.rules policy)
  /\ (Logged.failedRules logged = [] <-> Decision.outcome d = ALLOWED)
  /\ Logged.failedDueToError logged = None.
Proof.
  intros H logged.
  destruct (evaluatePolicy_results env extractor policy context w w' d H)
    as (rs & keys & Hd & Hrs & Hfacts & Hfor).
  assert (Hfailed : Logged.failedRules logged
                    = RuleResult.ruleName
                        <$> filter (fun r => isAllowedOutcome (RuleResult.outcome r)
                                             = false) rs).
  { unfold logged, formatDecisionForLogging. cbn [Logged.failedRules].
    rewrite Hrs. now rewrite failed_filter. }
  assert (Haction : Logged.action logged = Policy.id policy).
  { unfold logged, formatDecisionForLogging. cbn [Logged.action].
    rewrite Hd. now rewrite combineRuleResults_scan. }
  assert (Hcount : Logged.ruleCount logged = length (Policy.rules policy)).
  { unfold logged, formatDecisionForLogging. cbn [Logged.ruleCount].
    rewrite Hrs. symmetry. eapply Forall2_length. exact Hfor. }
  assert (Herror : Logged.failedDueToError logged = None).
  { unfold logged, formatDecisionForLogging. cbn [Logged.failedDueToError].
    rewrite Hd. now rewrite combineRuleResults_scan. }
  split; [exact Haction|]. split; [exact Hcount|].
  split; [now rewrite Hrs|]. split; [|split; [|exact Herror]].
  - intros name. rewrite Hfailed.
    intros (r & -> & Hr)%list_elem_of_fmap.
    apply list_elem_of_filter in Hr as [_ Hr].
    clear -Hfor Hr. induction Hfor as [|rule r0 rules rs0 [Hname _] _ IH];
      [inversion Hr|].
    apply elem_of_cons in Hr as [-> | Hr].
    + rewrite Hname, fmap_cons. left.
    + rewrite fmap_cons. right. now apply IH.
  - rewrite Hfailed.
    destruct (combineRuleResults_outcome (Policy.id policy) rs keys)
      as (_ & _ & Hallowed & _).
    rewrite Hd, Hallowed, <- failed_nil.
    split; [intros E; now apply fmap_nil_inv in E | intros ->; reflexivity].
Qed.

(** X20 on the two-rule policy over the memory store: the rule that can
    never be satisfied is the one logged as failed. *)
Lemma logged_failed_rules_witness :
  let w := (0%Z, MemoryStore.new (PartialOptions.mk None None None)) in
  exists d w',
    PolicyEngine.evaluatePolicy memoryEnv defaultKeyExtractor strictPolicy
      loginRequest w = (Ok d, w')
    /\ Logged.failedRules (formatDecisionForLogging d) = ["per_ip"%string]
    /\ Logged.ruleCount (formatDecisionForLogging d) = 2%nat.
Proof.
  intros w.
  destruct (PolicyEngine.evaluatePolicy memoryEnv defaultKeyExtractor strictPolicy
              loginRequest w) as [[d | e] w'] eqn:E;
    [|vm_compute in E; discriminate E].
  exists d, w'. split; [reflexivity|].
  destruct (logged_failed_rules memoryEnv defaultKeyExtractor strictPolicy
              loginRequest w w' d E) as (_ & Hcount & _).
  split; [|exact Hcount].
  assert (Hd : fst (PolicyEngine.evaluatePolicy memoryEnv defaultKeyExtractor
                      strictPolicy loginRequest w) = Ok d) by now rewrite E.
  vm_compute in Hd. injection Hd as <-. reflexivity.
Defined.

(** ** Customised policies *)

Section Customise.

Lemma applyOverride_id (result : gmap string RawPolicy.t)
    (entry : string * option PartialPolicy.t) :
  (forall k raw, result !! k = Some raw -> RawPolicy.id raw = k) ->
  forall k raw, applyOverride result entry !! k = Some raw -> RawPolicy.id raw = k.
Proof.
  intros Hids actionId raw. unfold applyOverride.
  destruct entry as [k [o|]]; simpl; [|destruct (result !! k); apply Hids].
  destruct (result !! k) as [existing|];
    (destruct (decide (k = actionId)) as [-> | Hne];
     [rewrite lookup_insert_eq; now intros [= <-]
     | rewrite lookup_insert_ne by exact Hne; apply Hids]).
Qed.

Lemma foldl_applyOverride_id (entries : list (string * option PartialPolicy.t)) :
  forall result,
    (forall k raw, result !! k = Some raw -> RawPolicy.id raw = k) ->
    forall k raw,
      foldl applyOverride result entries !! k = Some raw -> RawPolicy.id raw = k.
Proof.
  induction entries as [|entry rest IH]; intros result Hids; [exact Hids|].
  simpl. apply IH. now apply applyOverride_id.
Qed.

Lemma applyOverride_other (result : gmap string RawPolicy.t)
    (entry : string * option PartialPolicy.t) (actionId : string) :
  fst entry <> actionId \/ snd entry = None ->
  applyOverride result entry !! actionId = result !! actionId.
Proof.
  unfold applyOverride. destruct entry as [k [o|]]; simpl.
  - intros [Hne | ?]; [|discriminate].
    destruct (result !! k); now rewrite lookup_insert_ne.
  - intros _. now destruct (result !! k).
Qed.

Lemma foldl_applyOverride_other
    (entries : list (string * option PartialPolicy.t)) (actionId : string) :
  forall result,
    (forall o, (actionId, Some o) ∉ entries) ->
    foldl applyOverride result entries !! actionId = result !! actionId.
Proof.
  induction entries as [|[k ov] rest IH]; intros result Hfree; [reflexivity|].
  simpl. rewrite IH.
  - apply applyOverride_other. simpl.
    destruct (decide (k = actionId)) as [-> | Hne]; [|now left].
    right. destruct ov as [o|]; [|reflexivity].
    exfalso. apply (Hfree o). left.
  - intros o Hin. apply (Hfree o). now right.
Qed.

Lemma foldl_applyOverride_entry
    (entries : list (string * option PartialPolicy.t)) (actionId : string)
    (o : PartialPolicy.t) :
  forall result,
    NoDup entries.*1 -> (actionId, Some o) ∈ entries ->
    foldl applyOverride result entries !! actionId
    = applyOverride result (actionId, Some o) !! actionId.
Proof.
  induction entries as [|[k ov] rest IH]; intros result Hnodup Hin;
    [inversion Hin|].
  rewrite fmap_cons in Hnodup. apply NoDup_cons in Hnodup as [Hfresh Hnodup].
  simpl in Hfresh. apply elem_of_cons in Hin as [[= <- <-] | Hin]; simpl.
  - apply foldl_applyOverride_other. intros o' Hin. apply Hfresh.
    now apply (list_elem_of_fmap_2 fst rest (actionId, Some o')).
  - assert (Hne : k <> actionId).
    { intros ->. apply Hfresh.
      now apply (list_elem_of_fmap_2 fst rest (actionId, Some o)). }
    rewrite (IH _ Hnodup Hin). unfold applyOverride at 1 3. simpl.
    rewrite (applyOverride_other result (k, ov) actionId) by now left.
    destruct (result !! actionId); now rewrite !lookup_insert_eq.
Qed.

Lemma defaultPolicies_ids : idsMatchKeys defaultPolicies.
Proof.
  intros actionId policy H. unfold defaultPolicies in H.
  apply elem_of_list_to_map_2 in H. unfold defaultPolicyList in H.
  repeat (apply elem_of_cons in H as [[= -> ->] | H]; [reflexivity|]).
  inversion H.
Qed.

Lemma check_action {W : Type} (env : Env W) (policies : gmap string Policy.t)
    (extractor : KeyExtractor) (context : Ctx.t) (w : W) :
  idsMatchKeys policies ->
  Decision.action (fst (PolicyEngine.check env policies extractor context w))
  = Ctx.action context.
Proof.
  intros Hids. unfold PolicyEngine.check.
  destruct (policies !! Ctx.action context) as [policy|] eqn:E; [|reflexivity].
  unfold PolicyEngine.evaluatePolicy, bind.
  destruct (PolicyEngine.evaluateRules env extractor policy context
              (Policy.rules policy) [] ∅ w) as [[[rs keys] | e] w1];
    [|reflexivity].
  simpl. rewrite combineRuleResults_scan. simpl. now apply Hids.
Qed.

Lemma customizePolicies_untouched
    (overrides : gmap string (option PartialPolicy.t)) (actionId : string) :
  overrides !! actionId = None \/ overrides !! actionId = Some None ->
  customizePolicies overrides !! actionId
  = rawPolicy <$> defaultPolicies !! actionId.
Proof.
  intros Hnone. unfold customizePolicies.
  rewrite foldl_applyOverride_other; [apply lookup_fmap|].
  intros o Hin. apply elem_of_map_to_list in Hin.
  destruct Hnone as [E | E]; rewrite E in Hin; discriminate.
Qed.

Lemma customizePolicies_overridden
    (overrides : gmap string (option PartialPolicy.t)) (actionId : string)
    (override : PartialPolicy.t) :
  overrides !! actionId = Some (Some override) ->
  customizePolicies overrides !! actionId
  = Some
      match defaultPolicies !! actionId with
      | Some existing =>
          RawPolicy.mk actionId
            (spread (Some (Policy.rules existing)) (PartialPolicy.rules override))
            (spread (Some (Policy.failMode existing))
               (PartialPolicy.failMode override))
      | None =>
          RawPolicy.mk actionId
            (Some (nullish (PartialPolicy.rules override) []))
            (Some (nullish (PartialPolicy.failMode override) closed))
      end.
Proof.
  intros Hsome. unfold customizePolicies.
  rewrite (foldl_applyOverride_entry _ actionId override);
    [|apply NoDup_fst_map_to_list | now apply elem_of_map_to_list].
  unfold applyOverride. simpl. rewrite lookup_fmap.
  destruct (defaultPolicies !! actionId) as [existing|]; simpl;
    now rewrite lookup_insert_eq.
Qed.

Lemma properPolicy_raw (policy : Policy.t) :
  properPolicy (rawPolicy policy) = Some policy.
Proof. now destruct policy. Qed.
End Customise.

(** X21.  Customised policies.  Whatever the overrides, every policy of
    [customizePolicies] is stored under its own id (an id given in an
    override is ignored), and an action that is not overridden keeps its
    default policy, or stays without one.  An overridden action that has a
    default policy takes [rules] and [failMode] from the override wherever
    the override has the property, even with the value undefined, and from
    the default policy otherwise; an overridden action without a default
    policy takes them from the override where they have a value, and is
    given no rules and fail mode closed otherwise; neither depends on the
    other overrides.  When no override sets [rules] or [failMode] to
    undefined, every customised policy has its rules and its fail mode, and
    an engine over the customised policies answers every request with a
    decision for the action that was asked about. *)
Theorem customizePolicies_spec
    (overrides : gmap string (option PartialPolicy.t)) :
  (forall actionId raw,
      customizePolicies overrides !! actionId = Some raw ->
      RawPolicy.id raw = actionId)
  /\ (forall actionId,
        overrides !! actionId = None \/ overrides !! actionId = Some None ->
        customizePolicies overrides !! actionId
        = rawPolicy <$> defaultPolicies !! actionId)
  /\ (forall actionId override existing,
        overrides !! actionId = Some (Some override) ->
        defaultPolicies !! actionId = Some existing ->
        customizePolicies overrides !! actionId
        = Some (RawPolicy.mk actionId
                  match PartialPolicy.rules override with
                  | Absent => Some (Policy.rules existing)
                  | Undefined => None
                  | Given rules => Some rules
                  end
                  match PartialPolicy.failMode override with
                  | Absent => Some (Policy.failMode existing)
                  | Undefined => None
                  | Given failMode => Some failMode
                  end))
  /\ (forall actionId override,
        overrides !! actionId = Some (Some override) ->
        defaultPolicies !! actionId = None ->
        customizePolicies overrides !! actionId
        = Some (RawPolicy.mk actionId
                  (Some match PartialPolicy.rules override with
                        | Given rules => rules
                        | _ => []
                        end)
                  (Some match PartialPolicy.failMode override with
                        | Given failMode => failMode
                        | _ => closed
                        end)))
  /\ (noUndefined overrides ->
      exists policies : gmap string Policy.t,
        customizePolicies overrides = rawPolicy <$> policies
        /\ idsMatchKeys policies
        /\ forall (W : Type) (env : Env W) extractor context (w : W),
             Decision.action
               (fst (PolicyEngine.check env policies extractor context w))
             = Ctx.action context).
Proof.
  assert (Hids : forall actionId raw,
            customizePolicies overrides !! actionId = Some raw ->
            RawPolicy.id raw = actionId).
  { apply foldl_applyOverride_id. intros k raw. rewrite lookup_fmap.
    destruct (defaultPolicies !! k) as [policy|] eqn:E; [|discriminate].
    intros [= <-]. simpl. now apply defaultPolicies_ids. }
  split; [exact Hids|]. split; [apply customizePolicies_untouched|].
  split; [|split].
  - intros actionId override existing Hsome Hdefault.
    rewrite (customizePolicies_overridden overrides actionId override Hsome).
    rewrite Hdefault. unfold spread. reflexivity.
  - intros actionId override Hsome Hdefault.
    rewrite (customizePolicies_overridden overrides actionId override Hsome).
    rewrite Hdefault. unfold nullish. reflexivity.
  - intros Hdefined.
    assert (Hproper : forall actionId raw,
              customizePolicies overrides !! actionId = Some raw ->
              exists policy, properPolicy raw = Some policy
                             /\ rawPolicy policy = raw).
    { intros actionId raw Hraw.
      destruct (overrides !! actionId) as [[override|]|] eqn:E.
      - rewrite (customizePolicies_overridden overrides actionId override E)
          in Hraw.
        destruct (Hdefined actionId override E) as [Hrules Hmode].
        injection Hraw as <-.
        destruct (defaultPolicies !! actionId) as [existing|];
          [destruct (PartialPolicy.rules override), (PartialPolicy.failMode override);
           try contradiction|];
          eexists; split; reflexivity.
      - rewrite (customizePolicies_untouched overrides actionId (or_intror E))
          in Hraw.
        destruct (defaultPolicies !! actionId) as [policy|]; [|discriminate].
        injection Hraw as <-. exists policy.
        split; [apply properPolicy_raw | reflexivity].
      - rewrite (customizePolicies_untouched overrides actionId (or_introl E))
          in Hraw.
        destruct (defaultPolicies !! actionId) as [policy|]; [|discriminate].
        injection Hraw as <-. exists policy.
        split; [apply properPolicy_raw | reflexivity]. }
    exists (omap properPolicy (customizePolicies overrides)).
    assert (Hmatch : idsMatchKeys (omap properPolicy (customizePolicies overrides))).
    { intros actionId policy. rewrite lookup_omap.
      destruct (customizePolicies overrides !! actionId) as [raw|] eqn:E;
        [|discriminate].
      simpl. intros Hp. destruct (Hproper actionId raw E) as (p & Hp' & Hraw).
      assert (p = policy) as -> by congruence.
      rewrite <- (Hids actionId raw E), <- Hraw. reflexivity. }
    split; [|split; [exact Hmatch|]].
    + apply map_eq. intros actionId. rewrite lookup_fmap, lookup_omap.
      destruct (customizePolicies overrides !! actionId) as [raw|] eqn:E;
        [|reflexivity].
      simpl. destruct (Hproper actionId raw E) as (p & -> & <-). reflexivity.
    + intros W env extractor context w. now apply check_action.
Qed.

(** X21 for three overrides: one relaxes the login policy to one rule,
    one sets the rules of the registration policy to undefined, and one
    names a new action. *)
Lemma customizePolicies_spec_witness :
  let relaxed := Rule.mk "per_ip" ["ip"%string] 100 100 TIME.HOUR None None None in
  let overrides : gmap string (option PartialPolicy.t) :=
    {[ "login"%string :=
         Some (PartialPolicy.mk (Given "other"%string) (Given [relaxed]) Absent);
       "register"%string :=
         Some (PartialPolicy.mk Absent Undefined Absent);
       "signup"%string :=
         Some (PartialPolicy.mk Absent Absent (Given open)) ]} in
  overrides !! "login"%string
  = Some (Some (PartialPolicy.mk (Given "other"%string) (Given [relaxed]) Absent))
  /\ overrides !! "register"%string
     = Some (Some (PartialPolicy.mk Absent Undefined Absent))
  /\ overrides !! "signup"%string
     = Some (Some (PartialPolicy.mk Absent Absent (Given open)))
  /\ overrides !! "otp_send"%string = None
  /\ customizePolicies overrides !! "login"%string
     = Some (RawPolicy.mk "login" (Some [relaxed]) (Some closed))
  /\ customizePolicies overrides !! "register"%string
     = Some (RawPolicy.mk "register" None (Some open))
  /\ customizePolicies overrides !! "signup"%string
     = Some (RawPolicy.mk "signup" (Some []) (Some open))
  /\ customizePolicies overrides !! "otp_send"%string
     = Some (rawPolicy otpSendPolicy).
Proof.
  intros relaxed overrides.
  assert (Hlogin : overrides !! "login"%string
                   = Some (Some (PartialPolicy.mk (Given "other"%string)
                                   (Given [relaxed]) Absent)))
    by (vm_compute; reflexivity).
  assert (Hregister : overrides !! "register"%string
                      = Some (Some (PartialPolicy.mk Absent Undefined Absent)))
    by (vm_compute; reflexivity).
  assert (Hsignup : overrides !! "signup"%string
                    = Some (Some (PartialPolicy.mk Absent Absent (Given open))))
    by (vm_compute; reflexivity).
  assert (Hotp : overrides !! "otp_send"%string = None)
    by (vm_compute; reflexivity).
  destruct (customizePolicies_spec overrides)
    as (_ & Hkeep & Hmerge & Hnew & _).
  split; [exact Hlogin|]. split; [exact Hregister|]. split; [exact Hsignup|].
  split; [exact Hotp|]. split; [|split; [|split]].
  - exact (Hmerge _ _ loginPolicy Hlogin ltac:(vm_compute; reflexivity)).
  - exact (Hmerge _ _ registerPolicy Hregister ltac:(vm_compute; reflexivity)).
  - exact (Hnew _ _ Hsignup ltac:(vm_compute; reflexivity)).
  - rewrite (Hkeep _ (or_introl Hotp)). vm_compute. reflexivity.
Defined.

(** ** Comparing hashes *)

Section HashFacts.
Variable normalize : string -> string.
Variable hmacSha256Hex : string -> string -> string.

Lemma N_of_ascii_inj (a b : ascii) : N_of_ascii a = N_of_ascii b -> a = b.
Proof.
  intros E. rewrite <- (ascii_N_embedding a), <- (ascii_N_embedding b).
  now rewrite E.
Qed.

Lemma xorAccumulate_zero (hash1 : string) : forall (hash2 : string) (acc : N),
  String.length hash1 = String.length hash2 ->
  xorAccumulate acc hash1 hash2 = 0%N <-> acc = 0%N /\ hash1 = hash2.
Proof.
  induction hash1 as [|a rest1 IH]; intros [|b rest2] acc Hlen; simpl in *;
    try discriminate.
  - tauto.
  - injection Hlen as Hlen. rewrite (IH rest2 _ Hlen).
    rewrite N.lor_eq_0_iff, N.lxor_eq_0_iff. split.
    + intros [[-> E] ->]. apply N_of_ascii_inj in E. now subst.
    + intros [-> [= -> ->]]. auto.
Qed.
End HashFacts.

(** X22.  Comparing hashes.  For any normalisation and any keyed digest,
    [hashesMatch] throws exactly when an identifier or the secret is empty
    (as [hashIdentifier] does), and otherwise answers true exactly when the
    two digests are the same string: the comparison that accumulates the
    XOR of the character codes is an equality test. *)
Theorem hashesMatch_spec (normalize : string -> string)
    (hmacSha256Hex : string -> string -> string)
    (identifier1 identifier2 secret : string) :
  let hashOf := hashIdentifier normalize hmacSha256Hex in
  let matching := hashesMatch normalize hmacSha256Hex identifier1 identifier2 secret in
  (matching = Ok true
   <-> exists hash, hashOf identifier1 secret = Ok hash
                    /\ hashOf identifier2 secret = Ok hash)
  /\ (matching = Ok false
      <-> exists hash1 hash2, hashOf identifier1 secret = Ok hash1
                              /\ hashOf identifier2 secret = Ok hash2
                              /\ hash1 <> hash2)
  /\ ((exists message, matching = Throw message)
      <-> truthy identifier1 = false \/ truthy identifier2 = false
          \/ truthy secret = false).
Proof.
  intros hashOf matching. unfold matching, hashesMatch. fold hashOf.
  assert (Hthrow : forall identifier,
            (exists message, hashOf identifier secret = Throw message)
            <-> truthy identifier = false \/ truthy secret = false).
  { intros identifier. unfold hashOf, hashIdentifier.
    destruct (truthy identifier), (truthy secret); simpl;
      split; try (intros [m H]; discriminate); try (intros [H | H]; discriminate);
      eauto. }
  assert (Hok : forall identifier hash,
            hashOf identifier secret = Ok hash ->
            truthy identifier = true /\ truthy secret = true).
  { intros identifier hash. unfold hashOf, hashIdentifier.
    destruct (truthy identifier), (truthy secret); simpl; try discriminate; auto. }
  destruct (hashOf identifier1 secret) as [hash1 | m1] eqn:E1.
  - destruct (hashOf identifier2 secret) as [hash2 | m2] eqn:E2.
    + destruct (Hok _ _ E1) as [T1 Ts]. destruct (Hok _ _ E2) as [T2 _].
      assert (Hcompare :
                (if negb (String.length hash1 =? String.length hash2)%nat
                 then Ok false
                 else Ok (N.eqb (xorAccumulate 0 hash1 hash2) 0))
                = Ok (bool_decide (hash1 = hash2))).
      { destruct (Nat.eqb_spec (String.length hash1) (String.length hash2))
          as [Hlen | Hlen]; simpl.
        - f_equal. destruct (N.eqb_spec (xorAccumulate 0 hash1 hash2) 0) as [Hz | Hz].
          + apply xorAccumulate_zero in Hz as [_ ->]; [|exact Hlen].
            now rewrite bool_decide_eq_true_2.
          + rewrite bool_decide_eq_false_2; [reflexivity|].
            intros ->. apply Hz. now apply xorAccumulate_zero.
        - rewrite bool_decide_eq_false_2; [reflexivity|]. intros ->. now apply Hlen. }
      rewrite Hcompare. split; [|split].
      * split.
        -- intros [= Ht]. apply bool_decide_eq_true_1 in Ht as ->. eauto.
        -- intros (hash & [= ->] & [= ->]). now rewrite bool_decide_eq_true_2.
      * split.
        -- intros [= Hf]. apply bool_decide_eq_false_1 in Hf. eauto.
        -- intros (h1 & h2 & [= ->] & [= ->] & Hne).
           now rewrite bool_decide_eq_false_2.
      * split; [intros [m H]; discriminate|].
        intros [H | [H | H]]; congruence.
    + split; [|split].
      * split; [discriminate | intros (hash & _ & H); discriminate].
      * split; [discriminate | intros (h1 & h2 & _ & H & _); discriminate].
      * split; [|eauto]. intros _.
        destruct (proj1 (Hthrow identifier2)) as [H | H]; [rewrite E2; eauto | |];
          auto.
  - split; [|split].
    + split; [discriminate | intros (hash & H & _); discriminate].
    + split; [discriminate | intros (h1 & h2 & H & _); discriminate].
    + split; [|eauto]. intros _.
      destruct (proj1 (Hthrow identifier1)) as [H | H]; [rewrite E1; eauto | |];
        auto.
Qed.

(** ** Eviction removes no more than it has to *)

Section EvictionExact.
Import MemoryStore.
Variables (targetSize now : Z).
Implicit Types (m pending : EntryMap).

Lemma Map_delete_floor (k : string) m :
  uniqueKeys m -> (Map_size m - 1 <= Map_size (Map_delete k m))%Z.
Proof.
  intros Hunique. unfold Map_size.
  destruct (decide (k ∈ m.*1)) as [Hin | Hnin].
  - pose proof (Map_delete_length k m Hunique Hin). lia.
  - rewrite (Map_delete_absent k m Hnin). lia.
Qed.

Lemma evictExpired_floor pending : forall m,
  uniqueKeys m ->
  (Z.min (Map_size m) targetSize
   <= Map_size (evictExpired targetSize now pending m))%Z.
Proof.
  induction pending as [|[k e] rest IH]; intros m Hunique; simpl; [lia|].
  destruct (Z.leb_spec (Map_size m) targetSize) as [Hle | Hgt]; [lia|].
  destruct (expiredAt now e); [|now apply IH].
  pose proof (Map_delete_floor k m Hunique) as Hfloor.
  pose proof (IH (Map_delete k m) (uniqueKeys_Map_delete k m Hunique)). lia.
Qed.

Lemma evictOldest_exact m :
  uniqueKeys m ->
  Map_size (evictOldest targetSize m)
  = Z.min (Map_size m) (Z.max targetSize 0).
Proof.
  intros Hunique. unfold evictOldest.
  destruct (Z.ltb_spec targetSize (Map_size m)) as [Hlt | Hge];
    [|unfold Map_size in *; lia].
  change (take _ (sortByAccess m)) with (oldestEntries targetSize m).
  pose proof (deleteAll_length (oldestEntries targetSize m) m Hunique
                (chosen_uniqueKeys targetSize m Hunique)
                (chosen_in_map targetSize m)) as Hlen.
  assert (Hchosen : length (oldestEntries targetSize m) =
            Nat.min (Z.to_nat (Map_size m - targetSize)) (length m)).
  { unfold oldestEntries. rewrite length_take.
    now rewrite (Permutation_length (sortByAccess_perm m)). }
  unfold Map_size in *. lia.
Qed.
End EvictionExact.

Lemma evictEntries_exact (now : Z) (opts : Options.t) (m : EntryMap) :
  uniqueKeys m ->
  Map_size (MemoryStore.evictEntries now opts m)
  = Z.min (Map_size m)
      (Z.max (Options.highWaterMark opts - Options.evictionCount opts) 0).
Proof.
  intros Hunique. unfold MemoryStore.evictEntries.
  set (targetSize := (Options.highWaterMark opts - Options.evictionCount opts)%Z).
  pose proof (evictExpired_sublist targetSize now m m) as Hsub.
  pose proof (evictExpired_floor targetSize now m m Hunique) as Hfloor.
  rewrite evictOldest_exact by (eapply uniqueKeys_sublist; eauto).
  apply sublist_length in Hsub. unfold Map_size in *. lia.
Qed.

(** X23.  Eviction removes no more than it has to.  On a store with unique
    keys, [evictEntries] leaves exactly min(size, max(highWaterMark -
    evictionCount, 0)) entries; so a [set] of a new key on a live store at
    or over its high-water mark leaves exactly that many and one, which is
    highWaterMark - evictionCount + 1 when 0 <= evictionCount <=
    highWaterMark. *)
Theorem eviction_is_exact (ms : MemoryStore.t) (key : string) (state : State.t)
    (ttlMs : Q) (now : Z) :
  uniqueKeys (MemoryStore.store ms) ->
  let opts := MemoryStore.options ms in
  let size := Map_size (MemoryStore.store ms) in
  let targetSize := (Options.highWaterMark opts - Options.evictionCount opts)%Z in
  Map_size (MemoryStore.evictEntries now opts (MemoryStore.store ms))
  = Z.min size (Z.max targetSize 0)
  /\ (MemoryStore.isShutdown ms = false ->
      Map_get key (MemoryStore.store ms) = None ->
      (Options.highWaterMark opts <= size)%Z ->
      Map_size (MemoryStore.store (snd (MemoryStore.set key state ttlMs now ms)))
      = (Z.min size (Z.max targetSize 0) + 1)%Z
      /\ ((0 <= Options.evictionCount opts <= Options.highWaterMark opts)%Z ->
          Map_size
            (MemoryStore.store (snd (MemoryStore.set key state ttlMs now ms)))
          = (targetSize + 1)%Z)).
Proof.
  intros Hunique opts size targetSize.
  pose proof (evictEntries_exact now opts (MemoryStore.store ms) Hunique) as Hexact.
  fold targetSize size in Hexact.
  split; [exact Hexact|].
  intros Hlive Hnew Hfull.
  assert (Hset : Map_size
                   (MemoryStore.store (snd (MemoryStore.set key state ttlMs now ms)))
                 = (Z.min size (Z.max targetSize 0) + 1)%Z).
  { unfold MemoryStore.set, MemoryStore.checkShutdown.
    rewrite Hlive, Hnew. fold opts size.
    destruct (Z.leb_spec (Options.highWaterMark opts) size); [|lia].
    simpl. unfold Map_size in *. rewrite length_app. simpl. lia. }
  split; [exact Hset|]. intros Hcount. rewrite Hset. lia.
Qed.

(** X23 on a full store of three entries, one of them expired, with
    highWaterMark 3 and evictionCount 1: exactly one entry goes. *)
Lemma eviction_is_exact_witness :
  let live := State.mk 10 0 0 60000 in
  let stale := State.mk 10 0 0 3 in
  let ms :=
    MemoryStore.mk
      [("a"%string, Entry.mk live 0); ("b"%string, Entry.mk stale 1);
       ("c"%string, Entry.mk live 2)]
      (Options.mk 60000 3 1) true false in
  uniqueKeys (MemoryStore.store ms)
  /\ Map_size (MemoryStore.evictEntries 5 (MemoryStore.options ms)
                 (MemoryStore.store ms)) = 2%Z
  /\ Map_size (MemoryStore.store (snd (MemoryStore.set "d" live 60000 5 ms)))
     = 3%Z.
Proof.
  intros live stale ms.
  assert (Hunique : uniqueKeys (MemoryStore.store ms)).
  { unfold uniqueKeys. simpl. repeat (apply NoDup_cons; split);
      [| | | apply NoDup_nil; exact I]; rewrite ?elem_of_cons, elem_of_nil;
      intros H; repeat (destruct H as [H | H]; [discriminate H|]); exact H. }
  split; [exact Hunique|].
  destruct (eviction_is_exact ms "d" live 60000 5 Hunique) as [Hevict Hset].
  split; [exact Hevict|].
  destruct (Hset eq_refl eq_refl) as [_ Hexact]; [vm_compute; discriminate|].
  apply Hexact. split; vm_compute; discriminate.
Defined.
